(** * FastyTranscript: the transcript utilities of [utils.ts], embedded and verified

    The development follows the TypeScript source function by function.
    JavaScript strings are sequences of UTF-16 code units, so a string is a
    list of code units ([N]); the regular expressions of the source are
    written in a small syntax and run by a backtracking matcher that follows
    the ECMAScript matcher (backtracking in priority order, greedy and lazy
    repetition, capture groups, leftmost search, the global [exec] loop and
    the global [replace]).  Numbers are IEEE 754 binary64 values, taken from
    the SpecFloat library. *)

From Stdlib Require Import String Ascii.
From Stdlib Require Import List Bool Arith NArith ZArith Lia.
From Stdlib Require Import SpecFloat.
Import ListNotations.

Set Implicit Arguments.

(** ** Strings as code-unit sequences *)

Definition char := N.
Bind Scope N_scope with char.
Definition str := list char.

(** The code units of an ASCII literal. *)
Definition u (s : string) : str := map N_of_ascii (list_ascii_of_string s).

(** Same, with every backquote standing for a double quote (code unit 34),
    so that markup carrying quoted attributes can be written in one literal. *)
Definition uq (s : string) : str :=
  map (fun c => if N.eqb c 96 then 34%N else c) (u s).

Definition LF : char := 10%N.

Definition str_eqb (a b : str) : bool :=
  if list_eq_dec N.eq_dec a b then true else false.

(** A JavaScript string is truthy when it is not empty. *)
Definition truthy (s : str) : bool :=
  match s with [] => false | _ :: _ => true end.

(** ** Character classes *)

Definition in_range (lo hi c : char) : bool := (N.leb lo c && N.leb c hi)%bool.

Definition isCh (a : string) (c : char) : bool :=
  match u a with x :: _ => N.eqb c x | [] => false end.

(** [[0-9]] *)
Definition isDigit (c : char) : bool := in_range 48 57 c.

(** [[a-zA-Z0-9_-]] *)
Definition isIdChar (c : char) : bool :=
  (in_range 97 122 c || in_range 65 90 c || in_range 48 57 c
   || N.eqb c 95 || N.eqb c 45)%bool.

(** [\s], which is also the set that [trim] strips: the WhiteSpace and
    LineTerminator code units of ECMAScript. *)
Definition isSpace (c : char) : bool :=
  (in_range 9 13 c || N.eqb c 32 || N.eqb c 160 || N.eqb c 5760
   || in_range 8192 8202 c || N.eqb c 8232 || N.eqb c 8233
   || N.eqb c 8239 || N.eqb c 8287 || N.eqb c 12288 || N.eqb c 65279)%bool.

Definition anyChar (c : char) : bool := true.

(** The code unit of a one-character literal, and the double quote. *)
Definition chr (a : string) : char := hd 0%N (u a).
Definition DQ : char := 34%N.

(** [[^x]] *)
Definition noneOf (x c : char) : bool := negb (N.eqb c x).

(** ** Regular expressions *)

Inductive regex : Type :=
| Eps
| Cls (p : char -> bool)
| Seq (r1 r2 : regex)
| Opt (r : regex)
| Star (greedy : bool) (r : regex)
| Grp (i : nat) (r : regex)
| Bol
| Eol.

Fixpoint lit (w : str) : regex :=
  match w with
  | [] => Eps
  | c :: w' => Seq (Cls (N.eqb c)) (lit w')
  end.

(** [r+] *)
Definition Plus (r : regex) : regex := Seq r (Star true r).

(** [r{n}] *)
Fixpoint Rep (n : nat) (r : regex) : regex :=
  match n with
  | O => Eps
  | S n' => Seq r (Rep n' r)
  end.

Fixpoint seqs (rs : list regex) : regex :=
  match rs with
  | [] => Eps
  | r :: rs' => Seq r (seqs rs')
  end.

(** Captures: the most recent binding of a group comes first. *)
Definition caps := list (nat * str).

Fixpoint capture (i : nat) (cs : caps) : option str :=
  match cs with
  | [] => None
  | (j, w) :: cs' => if Nat.eqb i j then Some w else capture i cs'
  end.

Fixpoint groups (r : regex) : list nat :=
  match r with
  | Seq r1 r2 => groups r1 ++ groups r2
  | Opt r' | Star _ r' => groups r'
  | Grp i r' => i :: groups r'
  | _ => []
  end.

(** A repetition resets the captures of the groups it contains each time it
    is entered. *)
Definition reset (gs : list nat) (cs : caps) : caps :=
  filter (fun b => negb (existsb (Nat.eqb (fst b)) gs)) cs.

Definition cont := str -> caps -> option (str * caps).

(** The loop of a repetition [r*] (greedy) or [r*?] (lazy).  [body] runs one
    iteration of [r]; an iteration that consumes nothing is refused, as the
    ECMAScript RepeatMatcher does, so [fuel = length s] iterations are always
    enough. *)
Section StarLoop.
Variable body : cont -> str -> caps -> option (str * caps).
Variable gs : list nat.
Variable greedy : bool.
Variable k : cont.

Fixpoint star_loop (fuel : nat) (s : str) (cs : caps) {struct fuel}
  : option (str * caps) :=
  match fuel with
  | O => k s cs
  | S fuel' =>
      let again (_ : unit) :=
        body (fun s' cs' =>
                if Nat.ltb (length s') (length s)
                then star_loop fuel' s' cs' else None)
             s (reset gs cs) in
      if greedy then
        match again tt with Some x => Some x | None => k s cs end
      else
        match k s cs with Some x => Some x | None => again tt end
  end.
End StarLoop.

(** The matcher, in continuation-passing style.  [n] is the length of the
    whole input, [s] the part of the input that is still ahead, so the current
    position is [n - length s]. *)
Fixpoint rmatch (n : nat) (r : regex) (k : cont) (s : str) (cs : caps)
  {struct r} : option (str * caps) :=
  match r with
  | Eps => k s cs
  | Cls p =>
      match s with
      | c :: s' => if p c then k s' cs else None
      | [] => None
      end
  | Seq r1 r2 => rmatch n r1 (rmatch n r2 k) s cs
  | Opt r' =>
      match rmatch n r'
              (fun s' cs' => if Nat.ltb (length s') (length s) then k s' cs' else None)
              s (reset (groups r') cs) with
      | Some x => Some x
      | None => k s cs
      end
  | Star g r' => star_loop (rmatch n r') (groups r') g k (length s) s cs
  | Grp i r' =>
      rmatch n r' (fun s' cs' => k s' ((i, firstn (length s - length s') s) :: cs')) s cs
  | Bol => if Nat.eqb (length s) n then k s cs else None
  | Eol => match s with [] => k s cs | _ :: _ => None end
  end.

(** One attempt at the current position. *)
Definition match_here (n : nat) (r : regex) (s : str) : option (str * caps) :=
  rmatch n r (fun s' cs => Some (s', cs)) s [].

(** Leftmost match at or after the current position: the skipped text, the
    input after the match, and the captures. *)
Fixpoint search (n : nat) (r : regex) (s : str) : option (str * str * caps) :=
  match match_here n r s with
  | Some (s', cs) => Some ([], s', cs)
  | None =>
      match s with
      | [] => None
      | c :: t =>
          match search n r t with
          | Some (pre, s', cs) => Some (c :: pre, s', cs)
          | None => None
          end
      end
  end.

(** [s.match(re)] for a regular expression without the global flag: the
    captures of the leftmost match. *)
Definition str_match (r : regex) (s : str) : option caps :=
  match search (length s) r s with
  | Some (_, _, cs) => Some cs
  | None => None
  end.

(** ** extractVideoId *)

Definition urlPrefix : regex :=
  Seq (Opt (seqs [lit (u "http"); Opt (Cls (isCh "s")); lit (u "://")]))
      (Opt (lit (u "www."))).

Definition idPattern (host : string) : regex :=
  seqs [urlPrefix; lit (u host); Grp 1 (Plus (Cls isIdChar))].

Definition barePattern : regex :=
  seqs [Bol; Grp 1 (Rep 11 (Cls isIdChar)); Eol].

Definition patterns : list regex :=
  [ idPattern "youtu.be/";
    idPattern "youtube.com/watch?v=";
    idPattern "youtube.com/embed/";
    idPattern "youtube.com/shorts/";
    barePattern ].

Fixpoint firstCapture (ps : list regex) (url : str) : option str :=
  match ps with
  | [] => None
  | p :: ps' =>
      match str_match p url with
      | Some cs =>
          match capture 1 cs with
          | Some w => if truthy w then Some w else firstCapture ps' url
          | None => firstCapture ps' url
          end
      | None => firstCapture ps' url
      end
  end.

Definition extractVideoId (url : str) : option str := firstCapture patterns url.

(** ** String helpers of the JavaScript library *)

Fixpoint takeWhile (p : char -> bool) (s : str) : str :=
  match s with
  | c :: t => if p c then c :: takeWhile p t else []
  | [] => []
  end.

Fixpoint dropWhile (p : char -> bool) (s : str) : str :=
  match s with
  | c :: t => if p c then dropWhile p t else s
  | [] => []
  end.

(** [s.trim()] *)
Definition trim (s : str) : str :=
  rev (dropWhile isSpace (rev (dropWhile isSpace s))).

(** [s.startsWith(w)] *)
Fixpoint startsWith (w s : str) : bool :=
  match w, s with
  | [], _ => true
  | a :: w', b :: s' => (N.eqb a b && startsWith w' s')%bool
  | _ :: _, [] => false
  end.

(** [s.includes(w)] *)
Fixpoint includes (w s : str) : bool :=
  (startsWith w s || match s with [] => false | _ :: t => includes w t end)%bool.

(** [s.split("\n")] *)
Fixpoint split_lines (s : str) : list str :=
  match s with
  | [] => [[]]
  | c :: t =>
      if N.eqb c LF then [] :: split_lines t
      else match split_lines t with
           | l :: ls => (c :: l) :: ls
           | [] => [[c]]
           end
  end.

(** [xs.join(sep)] *)
Fixpoint join (sep : str) (xs : list str) : str :=
  match xs with
  | [] => []
  | [x] => x
  | x :: rest => x ++ sep ++ join sep rest
  end.

(** [s.padStart(2, "0")] *)
Definition padStart2 (s : str) : str :=
  match s with
  | [] => u "00"
  | [c] => u "0" ++ [c]
  | _ => s
  end.

(** [re.test(s)] for a regular expression without the global flag. *)
Definition regex_test (r : regex) (s : str) : bool :=
  match str_match r s with Some _ => true | None => false end.

(** ** Outcomes of a call

    A call returns, throws (the payload is the message that
    [e instanceof Error ? e.message : String(e)] reads), or does not come back
    within the fuel given to its loops. *)

Inductive result (A : Type) : Type :=
| Ok (a : A)
| Throw (msg : str)
| OutOfFuel.

Arguments Ok {A} a.
Arguments Throw {A} msg.
Arguments OutOfFuel {A}.

Definition bind {A B : Type} (x : result A) (f : A -> result B) : result B :=
  match x with
  | Ok a => f a
  | Throw e => Throw e
  | OutOfFuel => OutOfFuel
  end.

Notation "x <- e ;; k" := (bind e (fun x => k))
  (at level 61, e at next level, right associativity).

(** Reading a property of [undefined]. *)
Definition TypeError : str := u "TypeError: Cannot read properties of undefined".

(** ** Global [replace] *)

(** [s.replace(re, f)] with a global [re]: [f] receives the matched text and
    the captures.  After an empty match the search resumes one code unit
    further, so the loop always ends: [length s + 1] rounds are enough. *)
Fixpoint replace_loop (fuel n : nat) (r : regex) (f : str -> caps -> str) (s : str)
  : str :=
  match fuel with
  | O => s
  | S fuel' =>
      match search n r s with
      | None => s
      | Some (pre, s', cs) =>
          let here := skipn (length pre) s in
          let matched := firstn (length here - length s') here in
          pre ++ f matched cs ++
            (if Nat.ltb (length s') (length here) then replace_loop fuel' n r f s'
             else match s' with
                  | [] => []
                  | c :: t => c :: replace_loop fuel' n r f t
                  end)
      end
  end.

Definition replace_all (r : regex) (f : str -> caps -> str) (s : str) : str :=
  replace_loop (S (length s)) (length s) r f s.

(** ** Numbers: IEEE 754 binary64 *)

Definition number := spec_float.
Definition prec : Z := 53.
Definition emax : Z := 1024.

Definition NaN : number := S754_nan.
Definition zero : number := S754_zero false.

(** The number nearest to an integer. *)
Definition of_Z (z : Z) : number := binary_normalize prec emax z 0 false.

(** The number nearest to [m * 10 ^ e10], for [0 <= m]. *)
Definition round_decimal (neg : bool) (m e10 : Z) : number :=
  match m with
  | Z0 => S754_zero neg
  | Zpos p =>
      if (0 <=? e10)%Z then binary_round prec emax neg (p * Z.to_pos (10 ^ e10)) 0
      else
        let '(q, e, l) := SFdiv_core_binary prec emax (Zpos p) 0 (10 ^ (- e10)) 0 in
        binary_round_aux prec emax neg q e l
  | Zneg _ => S754_nan
  end.

(** [x || 0]: NaN and the two zeros are falsy. *)
Definition or_zero (x : number) : number :=
  match x with
  | S754_nan | S754_zero _ => zero
  | _ => x
  end.

Definition digitVal (c : char) : Z :=
  if isDigit c then Z.of_N c - 48
  else if in_range 97 122 c then Z.of_N c - 87
  else Z.of_N c - 55.

Definition radixValue (radix : Z) (ds : str) : Z :=
  fold_left (fun a c => (radix * a + digitVal c)%Z) ds 0%Z.

Definition stripSign (s : str) : bool * str :=
  match s with
  | c :: t =>
      if isCh "-" c then (true, t)
      else if isCh "+" c then (false, t)
      else (false, s)
  | [] => (false, [])
  end.

Definition exponentPart (s : str) : Z :=
  match s with
  | c :: t =>
      if (isCh "e" c || isCh "E" c)%bool then
        let '(neg, t') := stripSign t in
        match takeWhile isDigit t' with
        | [] => 0%Z
        | ds => if neg then (- radixValue 10 ds)%Z else radixValue 10 ds
        end
      else 0%Z
  | [] => 0%Z
  end.

(** [parseFloat(x)]: leading white space is skipped and the longest prefix
    that is a decimal literal is read; [undefined] reads as NaN. *)
Definition parseFloat (arg : option str) : number :=
  match arg with
  | None => NaN
  | Some s0 =>
      let '(neg, s1) := stripSign (dropWhile isSpace s0) in
      if startsWith (u "Infinity") s1 then S754_infinity neg
      else
        let ip := takeWhile isDigit s1 in
        let r1 := dropWhile isDigit s1 in
        let '(fp, r2) :=
          match r1 with
          | c :: t =>
              if isCh "." c then (takeWhile isDigit t, dropWhile isDigit t)
              else ([], r1)
          | [] => ([], [])
          end in
        match ip ++ fp with
        | [] => NaN
        | ds => round_decimal neg (radixValue 10 ds)
                  (exponentPart r2 - Z.of_nat (length fp))
        end
  end.

Definition isHexDigit (c : char) : bool :=
  (isDigit c || in_range 97 102 c || in_range 65 70 c)%bool.

(** [parseInt(x)] with no radix argument: leading white space, a sign, a
    [0x] prefix selecting radix 16, then the longest run of digits. *)
Definition parseInt (arg : option str) : number :=
  match arg with
  | None => NaN
  | Some s0 =>
      let '(neg, s1) := stripSign (dropWhile isSpace s0) in
      let '(hex, s2) :=
        match s1 with
        | c0 :: c1 :: t =>
            if (isCh "0" c0 && (isCh "x" c1 || isCh "X" c1))%bool then (true, t)
            else (false, s1)
        | _ => (false, s1)
        end in
      match takeWhile (if hex then isHexDigit else isDigit) s2 with
      | [] => NaN
      | ds => round_decimal neg (radixValue (if hex then 16 else 10) ds) 0
      end
  end.

(** The integer part of a finite number, towards zero. *)
Definition truncZ (x : number) : Z :=
  match x with
  | S754_finite neg m e =>
      let a := if (0 <=? e)%Z then (Zpos m * 2 ^ e)%Z else (Zpos m / 2 ^ (- e))%Z in
      if neg then (- a)%Z else a
  | _ => 0%Z
  end.

(** [String.fromCharCode(x)]: the code unit [ToUint16(x)]. *)
Definition fromCharCode (x : number) : str := [Z.to_N (truncZ x mod 65536)].

(** [x / y] *)
Definition num_div (x y : number) : number := SFdiv prec emax x y.

(** [Math.floor(x)] *)
Definition Math_floor (x : number) : number :=
  match x with
  | S754_finite neg m e =>
      if (0 <=? e)%Z then x
      else
        let q := (Zpos m / 2 ^ (- e))%Z in
        let exact := (Zpos m mod 2 ^ (- e) =? 0)%Z in
        if neg then
          binary_normalize prec emax (if exact then - q else - q - 1) 0 true
        else binary_normalize prec emax q 0 false
  | _ => x
  end.

(** [x % y]: the remainder has the sign of the dividend and is exact. *)
Definition num_rem (x y : number) : number :=
  match x, y with
  | S754_nan, _ | _, S754_nan => NaN
  | S754_infinity _, _ => NaN
  | _, S754_zero _ => NaN
  | _, S754_infinity _ => x
  | S754_zero _, _ => x
  | S754_finite sx mx ex, S754_finite _ my ey =>
      let e := Z.min ex ey in
      let a := (Zpos mx * 2 ^ (ex - e))%Z in
      let b := (Zpos my * 2 ^ (ey - e))%Z in
      let r := (a mod b)%Z in
      binary_normalize prec emax (if sx then - r else r) e sx
  end.

(** Decimal digits of a non-negative integer. *)
Fixpoint digitsOf (fuel : nat) (z : Z) (acc : str) : str :=
  match fuel with
  | O => acc
  | S fuel' =>
      let acc' := Z.to_N (z mod 10 + 48) :: acc in
      if (z <? 10)%Z then acc' else digitsOf fuel' (z / 10) acc'
  end.

Definition decimal (z : Z) : str := digitsOf (S (Z.to_nat (Z.log2 z))) z [].

(** Least [t >= 1] with [num * 10 ^ t >= den], searched upwards. *)
Fixpoint leadingZeros (fuel : nat) (num den t : Z) : Z :=
  match fuel with
  | O => t
  | S fuel' =>
      if (den <=? num * 10 ^ t)%Z then t else leadingZeros fuel' num den (t + 1)%Z
  end.

(** The shortest digit string [s] (of [k] digits) and the exponent [n] with
    [s * 10 ^ (n - k)] reading back as [x = num / den]; of two candidates the
    nearer one, and the even one on a tie. *)
Fixpoint shortest (fuel : nat) (x : number) (num den n k : Z) : Z * Z :=
  let j := (k - n)%Z in
  let numK := (num * 10 ^ Z.max j 0)%Z in
  let denK := (den * 10 ^ Z.max (- j) 0)%Z in
  let lo := (numK / denK)%Z in
  let hi := (lo + 1)%Z in
  let ok s := SFeqb (round_decimal false s (n - k)) x in
  let norm s := if (s =? 10 ^ k)%Z then (10 ^ (k - 1), n + 1)%Z else (s, n) in
  match fuel with
  | O => (lo, n)
  | S fuel' =>
      match ok lo, ok hi with
      | true, true =>
          match (2 * (numK mod denK) ?= denK)%Z with
          | Lt => (lo, n)
          | Gt => norm hi
          | Eq => if Z.even lo then (lo, n) else norm hi
          end
      | true, false => (lo, n)
      | false, true => norm hi
      | false, false => shortest fuel' x num den n (k + 1)%Z
      end
  end.

(** [String(x)] (Number::toString, radix 10). *)
Definition numberToString (x : number) : str :=
  match x with
  | S754_nan => u "NaN"
  | S754_zero _ => u "0"
  | S754_infinity neg => (if neg then u "-" else []) ++ u "Infinity"
  | S754_finite neg m e =>
      let num := (Zpos m * 2 ^ Z.max e 0)%Z in
      let den := (2 ^ Z.max (- e) 0)%Z in
      let ip := (num / den)%Z in
      let n0 := if (0 <? ip)%Z then Z.of_nat (length (decimal ip))
                else (1 - leadingZeros 400 num den 1)%Z in
      let '(s, n) := shortest 17 (S754_finite false m e) num den n0 1 in
      let ds := decimal s in
      let k := Z.of_nat (length ds) in
      let zeros (c : Z) := repeat 48%N (Z.to_nat c) in
      let expo := (if (0 <=? n - 1)%Z then u "+" else u "-") ++ decimal (Z.abs (n - 1)) in
      (if neg then u "-" else []) ++
      (if ((k <=? n) && (n <=? 21))%Z%bool then ds ++ zeros (n - k)%Z
       else if ((0 <? n) && (n <=? 21))%Z%bool then
              firstn (Z.to_nat n) ds ++ u "." ++ skipn (Z.to_nat n) ds
       else if ((-6 <? n) && (n <=? 0))%Z%bool then u "0." ++ zeros (- n)%Z ++ ds
       else match ds with
            | [d] => [d] ++ u "e" ++ expo
            | d :: rest => [d] ++ u "." ++ rest ++ u "e" ++ expo
            | [] => []
            end)
  end.

(** ** decodeHtmlEntities *)

Definition constant (w : str) : str -> caps -> str := fun _ _ => w.

Definition numericEntity : regex :=
  seqs [lit (u "&#"); Grp 1 (Plus (Cls isDigit)); lit (u ";")].

Definition decodeHtmlEntities (text : str) : str :=
  let t := replace_all (lit (u "&#39;")) (constant (u "'")) text in
  let t := replace_all (lit (u "&quot;")) (constant [DQ]) t in
  let t := replace_all (lit (u "&amp;")) (constant (u "&")) t in
  let t := replace_all (lit (u "&lt;")) (constant (u "<")) t in
  let t := replace_all (lit (u "&gt;")) (constant (u ">")) t in
  let t := replace_all (lit (u "&nbsp;")) (constant (u " ")) t in
  let t := replace_all numericEntity
             (fun _ cs => fromCharCode (parseInt (capture 1 cs))) t in
  replace_all (Plus (Cls isSpace)) (constant (u " ")) t.

(** ** parseTranscriptXml *)

Record TranscriptSegment : Type := {
  text : str;
  start : number;
  duration : number
}.

(** The loop [while ((m = re.exec(s)) !== null) body(m)] for a global [re]:
    each round resumes at the end of the previous match, and [body] may push
    one element.  A round that matched nothing new would repeat for ever;
    here it uses up the fuel. *)
Fixpoint exec_loop {A : Type} (fuel n : nat) (r : regex)
    (body : caps -> result (option A)) (s : str) : result (list A) :=
  match fuel with
  | O => OutOfFuel
  | S fuel' =>
      match search n r s with
      | None => Ok []
      | Some (_, s', m) =>
          x <- body m ;;
          xs <- exec_loop fuel' n r body s' ;;
          Ok (match x with Some a => a :: xs | None => xs end)
      end
  end.

(** An attribute [name=...] whose value, between double quotes and free of
    double quotes, is captured as group [i]. *)
Definition attribute (name : string) (i : nat) : regex :=
  seqs [lit (u name); lit [chr "="; DQ]; Grp i (Star true (Cls (noneOf DQ))); lit [DQ]].

Definition timed (tag first second : string) (content : regex) : regex :=
  seqs [lit (u "<"); lit (u tag); Plus (Cls isSpace); attribute first 1;
        Opt (Seq (Plus (Cls isSpace)) (attribute second 2));
        Star true (Cls (noneOf (chr ">"))); lit (u ">");
        Grp 3 content; lit (u "</"); lit (u tag); lit (u ">")].

Definition srv1Re : regex :=
  timed "text" "start" "dur" (Star true (Cls (noneOf (chr "<")))).

Definition pRe : regex :=
  timed "p" "t" "d" (Star false (Cls anyChar)).

Definition sRe : regex :=
  seqs [lit (u "<s"); Star true (Cls (noneOf (chr ">"))); lit (u ">");
        Grp 1 (Star true (Cls (noneOf (chr "<")))); lit (u "</s>")].

(** [/<[^>]+>/g] *)
Definition tagRe : regex :=
  seqs [lit (u "<"); Plus (Cls (noneOf (chr ">"))); lit (u ">")].

Definition stripTags (s : str) : str := replace_all tagRe (constant []) s.

Definition srv1Segment (m : caps) : result (option TranscriptSegment) :=
  match capture 3 m with
  | None => Throw TypeError
  | Some m3 =>
      Ok (if truthy (trim m3)
          then Some {| text := m3;
                       start := or_zero (parseFloat (capture 1 m));
                       duration := or_zero (parseFloat (capture 2 m)) |}
          else None)
  end.

Definition word (s : caps) : result (option str) :=
  Ok (match capture 1 s with
      | Some w => if truthy w then Some w else None
      | None => None
      end).

Definition srv3Segment (fuel : nat) (m : caps) : result (option TranscriptSegment) :=
  let startMs := or_zero (parseInt (capture 1 m)) in
  let durMs := or_zero (parseInt (capture 2 m)) in
  match capture 3 m with
  | None => Throw TypeError
  | Some inner =>
      words <- exec_loop fuel (length inner) sRe word inner ;;
      let text :=
        match words with
        | _ :: _ => concat words
        | [] => trim (stripTags inner)
        end in
      Ok (if truthy text
          then Some {| text := text;
                       start := num_div startMs (of_Z 1000);
                       duration := num_div durMs (of_Z 1000) |}
          else None)
  end.

Definition parseTranscriptXml_fuel (fuel : nat) (xml : str)
  : result (list TranscriptSegment) :=
  srv1Segments <- exec_loop fuel (length xml) srv1Re srv1Segment xml ;;
  match srv1Segments with
  | _ :: _ => Ok srv1Segments
  | [] => exec_loop fuel (length xml) pRe (srv3Segment fuel) xml
  end.

Definition parseTranscriptXml (xml : str) : result (list TranscriptSegment) :=
  parseTranscriptXml_fuel (S (length xml)) xml.

(** ** extractJsonObject *)

(** The [for] loop: [rest] is the input from index [i] on, [len] is
    [i - startIdx]; the result is [i + 1 - startIdx] for the first [i] at which
    the depth is back to zero. *)
Fixpoint braceScan (rest : str) (depth : Z) (len : nat) : option nat :=
  match rest with
  | [] => None
  | c :: rest' =>
      let depth' :=
        if isCh "{" c then (depth + 1)%Z
        else if isCh "}" c then (depth - 1)%Z
        else depth in
      if (depth' =? 0)%Z then Some (S len) else braceScan rest' depth' (S len)
  end.

Definition extractJsonObject (s : str) (startIdx : Z) : option str :=
  if (startIdx <? 0)%Z then None
  else
    let from := skipn (Z.to_nat startIdx) s in
    match from with
    | c :: _ =>
        if isCh "{" c then
          match braceScan from 0 0 with
          | Some len => Some (firstn len from)
          | None => None
          end
        else None
    | [] => None
    end.

(** ** pickTrackUrl *)

Record CaptionTrack : Type := {
  baseUrl : str;
  languageCode : str
}.

Definition isEnglish (t : CaptionTrack) : bool :=
  (str_eqb (languageCode t) (u "en") || startsWith (u "en") (languageCode t))%bool.

Definition pickTrackUrl (tracks : list CaptionTrack) : result str :=
  match find isEnglish tracks with
  | Some en => Ok (baseUrl en)
  | None =>
      match tracks with
      | t :: _ => Ok (baseUrl t)
      | [] => Throw TypeError
      end
  end.

(** ** fetchTranscriptFromYtDlp, from the fetched subtitle payload on *)

Definition vttSkipped (trimmed : str) : bool :=
  (negb (truthy trimmed)
   || str_eqb trimmed (u "WEBVTT")
   || startsWith (u "Kind:") trimmed
   || startsWith (u "Language:") trimmed
   || startsWith (u "NOTE") trimmed
   || regex_test (seqs [Bol; Plus (Cls isDigit); Eol]) trimmed
   || regex_test (lit (u "-->")) trimmed)%bool.

Definition vttLine (textSegments : list TranscriptSegment) (line : str)
  : list TranscriptSegment :=
  let trimmed := trim line in
  if vttSkipped trimmed then textSegments
  else
    let cleaned := trim (stripTags trimmed) in
    if (truthy cleaned
        && negb (existsb (fun s => str_eqb (text s) cleaned) textSegments))%bool
    then textSegments ++ [{| text := cleaned; start := zero; duration := zero |}]
    else textSegments.

Definition vttSegments (subResp : str) : list TranscriptSegment :=
  fold_left vttLine (split_lines subResp) [].

Definition subtitleSegments (subResp : str) : result (list TranscriptSegment) :=
  if (negb (truthy subResp) || Nat.eqb (length (trim subResp)) 0)%bool
  then Throw (u "yt-dlp: subtitle URL returned empty")
  else
    segments <- parseTranscriptXml subResp ;;
    match segments with
    | _ :: _ => Ok segments
    | [] =>
        let failed := Throw (u "yt-dlp: could not parse subtitle content") in
        if includes (u "WEBVTT") subResp then
          match vttSegments subResp with
          | (_ :: _) as textSegments => Ok textSegments
          | [] => failed
          end
        else failed
    end.

(** ** Formatting *)

Definition formatTimestamp (seconds : number) : str :=
  let mins := Math_floor (num_div seconds (of_Z 60)) in
  let secs := Math_floor (num_rem seconds (of_Z 60)) in
  padStart2 (numberToString mins) ++ u ":" ++ padStart2 (numberToString secs).

Definition timestampedLine (s : TranscriptSegment) : str :=
  u "[" ++ formatTimestamp (start s) ++ u "] " ++ trim (decodeHtmlEntities (text s)).

Definition joinSegmentsWithTimestamps (segments : list TranscriptSegment) : str :=
  join [LF] (map timestampedLine segments).

Definition joinSegments (segments : list TranscriptSegment) : str :=
  trim (decodeHtmlEntities (join (u " ") (map text segments))).

Record TranscriptOptions : Type := { timestamps : option bool }.

Definition formatSegments (segments : list TranscriptSegment)
    (options : TranscriptOptions) : str :=
  match timestamps options with
  | Some true => joinSegmentsWithTimestamps segments
  | _ => joinSegments segments
  end.

(** ** getVideoTranscript

    The three strategies and the title lookup reach the network and a
    subprocess; the orchestrator sees only what each call gives back.  A
    [World] fixes those answers, and the orchestrator runs in a monad that
    logs every call it makes. *)

Record World : Type := {
  fetchVideoTitle : str -> str;
  fetchTranscriptFromAndroid : str -> result (list TranscriptSegment);
  fetchTranscriptFromPage : str -> result (list TranscriptSegment);
  fetchTranscriptFromYtDlp : str -> result (list TranscriptSegment)
}.

Inductive call : Type := Title | StrategyA | StrategyB | StrategyC.

Definition M (A : Type) : Type := list call -> result A * list call.

Definition ret {A : Type} (a : A) : M A := fun log => (Ok a, log).

Definition throw {A : Type} (msg : str) : M A := fun log => (Throw msg, log).

Definition mbind {A B : Type} (m : M A) (f : A -> M B) : M B :=
  fun log =>
    match m log with
    | (Ok a, log') => f a log'
    | (Throw e, log') => (Throw e, log')
    | (OutOfFuel, log') => (OutOfFuel, log')
    end.

Definition try_catch {A : Type} (m : M A) (handler : str -> M A) : M A :=
  fun log =>
    match m log with
    | (Throw e, log') => handler e log'
    | other => other
    end.

Definition invoke {A : Type} (c : call) (answer : result A) : M A :=
  fun log => (answer, log ++ [c]).

Notation "x <~ e ;; k" := (mbind e (fun x => k))
  (at level 61, e at next level, right associativity).

Record TranscriptResult : Type := {
  transcript : str;
  title : str
}.

(** One [try { ... return ... } catch (e) { errors.push(...) }] block: either
    the value returned, or the error list with one more entry. *)
Definition attempt (label : string) (c : call)
    (answer : result (list TranscriptSegment)) (titlePromise : str)
    (options : TranscriptOptions) (errors : list str)
  : M (TranscriptResult + list str) :=
  try_catch
    (segments <~ invoke c answer ;;
     ret (inl {| transcript := formatSegments segments options;
                 title := titlePromise |}))
    (fun e => ret (inr (errors ++ [u label ++ e]))).

Definition failureMessage (errors : list str) : str :=
  u "No transcript available. All methods failed:" ++ [LF]
  ++ join [LF] (map (fun e => u "- " ++ e) errors).

Definition getVideoTranscript (w : World) (videoId : str)
    (options : TranscriptOptions) : M TranscriptResult :=
  titlePromise <~ invoke Title (Ok (fetchVideoTitle w videoId)) ;;
  a <~ attempt "ANDROID API: " StrategyA (fetchTranscriptFromAndroid w videoId)
                titlePromise options [] ;;
  match a with
  | inl res => ret res
  | inr errors =>
      b <~ attempt "Page scraping: " StrategyB (fetchTranscriptFromPage w videoId)
                    titlePromise options errors ;;
      match b with
      | inl res => ret res
      | inr errors =>
          c <~ attempt "yt-dlp: " StrategyC (fetchTranscriptFromYtDlp w videoId)
                        titlePromise options errors ;;
          match c with
          | inl res => ret res
          | inr errors => throw (failureMessage errors)
          end
      end
  end.

(** ** formatTranscriptAsMarkdown *)

Definition formatTranscriptAsMarkdown (transcript videoId title : str) : str :=
  u "# " ++ title ++ [LF; LF]
  ++ u "**URL:** https://youtube.com/watch?v=" ++ videoId ++ [LF; LF]
  ++ u "---" ++ [LF; LF]
  ++ transcript ++ [LF; LF]
  ++ u "---" ++ [LF; LF]
  ++ u "*Generated by FastyTranscript*".

(** ** Calls that leave the program

    The strategies talk to the network and to subprocesses.  A computation
    that does so runs against a log of the requests made so far: every
    request is appended to the log, and what it gives back is fixed by an
    environment that may answer differently each time (it sees how many
    requests came before). *)

(** What a call to the outside comes back with: a value, or an error with
    its message. *)
Inductive answer (A : Type) : Type :=
| Resolved (a : A)
| Rejected (msg : str).

Arguments Resolved {A} a.
Arguments Rejected {A} msg.

Definition settled {A : Type} (x : answer A) : result A :=
  match x with
  | Resolved a => Ok a
  | Rejected msg => Throw msg
  end.

Section Logging.

Variable E : Type.

Definition Log (A : Type) : Type := list E -> result A * list E.

Definition pure {A : Type} (a : A) : Log A := fun log => (Ok a, log).

Definition raise {A : Type} (msg : str) : Log A := fun log => (Throw msg, log).

Definition lift {A : Type} (x : result A) : Log A := fun log => (x, log).

Definition andThen {A B : Type} (m : Log A) (f : A -> Log B) : Log B :=
  fun log =>
    match m log with
    | (Ok a, log') => f a log'
    | (Throw e, log') => (Throw e, log')
    | (OutOfFuel, log') => (OutOfFuel, log')
    end.

(** [try { m } catch (e) { handler(e) }] *)
Definition recover {A : Type} (m : Log A) (handler : str -> Log A) : Log A :=
  fun log =>
    match m log with
    | (Throw e, log') => handler e log'
    | other => other
    end.

(** One request: logged, and answered by [reply], which is told how many
    requests came before. *)
Definition perform {A : Type} (e : E) (reply : nat -> answer A) : Log A :=
  fun log => (settled (reply (length log)), log ++ [e]).

End Logging.

Arguments pure {E A} a.
Arguments raise {E A} msg.
Arguments lift {E A} x.
Arguments andThen {E A B} m f.
Arguments recover {E A} m handler.
Arguments perform {E A} e reply.

Notation "x <-- e ;; k" := (andThen e (fun x => k))
  (at level 61, e at next level, right associativity).
Notation "e ;;; k" := (andThen e (fun _ => k))
  (at level 61, right associativity).

(** [s.indexOf(w, from)], [-1] when there is no occurrence. *)
Fixpoint indexOf_at (w s : str) (i : nat) : Z :=
  if startsWith w s then Z.of_nat i
  else match s with
       | [] => (-1)%Z
       | _ :: t => indexOf_at w t (S i)
       end.

Definition indexOf (w s : str) (from : nat) : Z :=
  let from := Nat.min from (length s) in
  indexOf_at w (skipn from s) from.

(** [s.split(sep)] for a separator that is not empty: [skip] code units of
    the separator found last are still to be passed over, [cur] is the part
    read so far. *)
Fixpoint split_at (sep s : str) (skip : nat) (cur : str) : list str :=
  match s with
  | [] => [cur]
  | c :: t =>
      match skip with
      | S k => split_at sep t k cur
      | O =>
          if startsWith sep s then cur :: split_at sep t (length sep - 1) []
          else split_at sep t 0 (cur ++ [c])
      end
  end.

Definition split (sep s : str) : list str := split_at sep s 0 [].

Module Net.

(** What [fetch] resolves to; [payload] is what [response.text()] or
    [response.json()] resolves to, at the type the code reads it at. *)
Record Response (A : Type) : Type := {
  ok : bool;
  status : number;
  payload : answer A
}.

(** The JSON values, at the types the code casts them to. *)
Record OEmbed : Type := { oembedTitle : option str }.
Record Tracklist : Type := { captionTracks : option (list CaptionTrack) }.
Record Captions : Type := { playerCaptionsTracklistRenderer : option Tracklist }.
Record PlayerData : Type := { captions : option Captions }.
Record SubtitleTrack : Type := { url : str; ext : str }.

(** An object used as a map from language codes: its properties, in the
    order [Object.values] lists them. *)
Definition Sources : Type := list (str * list SubtitleTrack).

Record Info : Type := {
  subtitles : option Sources;
  automatic_captions : option Sources
}.

(** The requests: the title lookup, the player request (a POST whose body is
    the fixed description of the client and [videoId]), a GET with its
    headers, and a subprocess with its command line. *)
Inductive request : Type :=
| GetTitle (url : str)
| PostPlayer (url : str) (userAgent : str) (videoId : str)
| Get (url : str) (headers : list (str * str))
| ExecSync (command : str).

(** What the outside gives back: to the requests, by the number of earlier
    requests, and to [JSON.parse]. *)
Record Env : Type := {
  oembed : nat -> str -> answer (Response OEmbed);
  player : nat -> str -> answer (Response PlayerData);
  http : nat -> str -> list (str * str) -> answer (Response str);
  execSync : nat -> str -> answer str;
  parsePlayerData : str -> answer PlayerData;
  parseCaptions : str -> answer Captions;
  parseInfo : str -> answer Info
}.

Definition IO : Type -> Type := Log request.

Definition WEB_UA : str :=
  u "Mozilla/5.0 (Macintosh; Intel Mac OS X 10_15_7) AppleWebKit/537.36 (KHTML, like Gecko) Chrome/131.0.0.0 Safari/537.36".

Definition ANDROID_UA : str :=
  u "com.google.android.youtube/19.09.37 (Linux; U; Android 12; en_US) gzip".

Definition watchUrl (videoId : str) : str :=
  u "https://www.youtube.com/watch?v=" ++ videoId.

(** *** fetchVideoTitle *)

Definition oembedUrl (videoId : str) : str :=
  u "https://www.youtube.com/oembed?url=https://www.youtube.com/watch?v="
  ++ videoId ++ u "&format=json".

Definition defaultTitle (videoId : str) : str := u "YouTube Video " ++ videoId.

Definition fetchVideoTitle (env : Env) (videoId : str) : IO str :=
  recover
    (response <-- perform (GetTitle (oembedUrl videoId))
                    (fun n => oembed env n (oembedUrl videoId)) ;;
     if ok response then
       data <-- lift (settled (payload response)) ;;
       pure (match oembedTitle data with
             | Some t => if truthy t then t else defaultTitle videoId
             | None => defaultTitle videoId
             end)
     else pure (defaultTitle videoId))
    (fun _ => pure (defaultTitle videoId)).

(** *** fetchCaptionTrack *)

Definition fetchCaptionTrack (env : Env) (url ua : str) : IO (list TranscriptSegment) :=
  let headers := [(u "User-Agent", ua)] in
  response <-- perform (Get url headers) (fun n => http env n url headers) ;;
  if negb (ok response)
  then raise (u "Caption track returned " ++ numberToString (status response))
  else
    xml <-- lift (settled (payload response)) ;;
    if (negb (truthy xml) || Nat.eqb (length xml) 0)%bool
    then raise (u "Caption track returned empty response")
    else
      segments <-- lift (parseTranscriptXml xml) ;;
      if Nat.eqb (length segments) 0 then raise (u "Could not parse caption XML")
      else pure segments.

(** *** fetchTranscriptFromAndroid *)

Definition playerUrl : str :=
  u "https://www.youtube.com/youtubei/v1/player?prettyPrint=false".

Definition fetchTranscriptFromAndroid (env : Env) (videoId : str)
  : IO (list TranscriptSegment) :=
  response <-- perform (PostPlayer playerUrl ANDROID_UA videoId)
                  (fun n => player env n videoId) ;;
  if negb (ok response)
  then raise (u "ANDROID API returned " ++ numberToString (status response))
  else
    data <-- lift (settled (payload response)) ;;
    match captions data with
    | None => raise (u "ANDROID: no captions in response")
    | Some captions =>
        match playerCaptionsTracklistRenderer captions with
        | None => raise (u "ANDROID: no caption tracklist")
        | Some tracklist =>
            match captionTracks tracklist with
            | None | Some [] => raise (u "ANDROID: no caption tracks")
            | Some tracks =>
                url <-- lift (pickTrackUrl tracks) ;;
                fetchCaptionTrack env url ANDROID_UA
            end
        end
    end.

(** *** fetchTranscriptFromPage *)

(** [/ytInitialPlayerResponse\s*=\s*\{/] *)
Definition markerRe : regex :=
  seqs [lit (u "ytInitialPlayerResponse"); Star true (Cls isSpace); lit (u "=");
        Star true (Cls isSpace); lit (u "{")].

(** The two blocks [if (tracks && tracks.length > 0) return await
    fetchCaptionTrack(pickTrackUrl(tracks))] inside [try { } catch { }]:
    [Some] is the value returned, [None] means that the function goes on. *)
Definition tryTracks (env : Env) (tracks : result (option (list CaptionTrack)))
  : IO (option (list TranscriptSegment)) :=
  recover
    (found <-- lift tracks ;;
     match found with
     | Some (t :: ts) =>
         url <-- lift (pickTrackUrl (t :: ts)) ;;
         segments <-- fetchCaptionTrack env url WEB_UA ;;
         pure (Some segments)
     | _ => pure None
     end)
    (fun _ => pure None).

(** [captions?.playerCaptionsTracklistRenderer?.captionTracks] *)
Definition tracksOf (captions : option Captions) : option (list CaptionTrack) :=
  match captions with
  | Some c =>
      match playerCaptionsTracklistRenderer c with
      | Some tracklist => captionTracks tracklist
      | None => None
      end
  | None => None
  end.

Definition fromMarker (env : Env) (html : str) : IO (option (list TranscriptSegment)) :=
  match search (length html) markerRe html with
  | Some (before, _, _) =>
      let braceStart := indexOf (u "{") html (length before) in
      match extractJsonObject html braceStart with
      | Some jsonStr =>
          if truthy jsonStr then
            tryTracks env (pr <- settled (parsePlayerData env jsonStr) ;;
                           Ok (tracksOf (captions pr)))
          else pure None
      | None => pure None
      end
  | None => pure None
  end.

Definition fromCaptionsKey (env : Env) (html : str) : IO (option (list TranscriptSegment)) :=
  match split (uq "`captions`:") html with
  | _ :: part1 :: _ =>
      let braceIdx := indexOf (u "{") part1 0 in
      if (braceIdx =? -1)%Z then pure None
      else
        match extractJsonObject part1 braceIdx with
        | Some captionsJson =>
            if truthy captionsJson then
              tryTracks env (obj <- settled (parseCaptions env captionsJson) ;;
                             Ok (tracksOf (Some obj)))
            else pure None
        | None => pure None
        end
  | _ => pure None
  end.

Definition fetchTranscriptFromPage (env : Env) (videoId : str)
  : IO (list TranscriptSegment) :=
  let headers := [(u "User-Agent", WEB_UA); (u "Accept-Language", u "en-US,en;q=0.9")] in
  response <-- perform (Get (watchUrl videoId) headers)
                  (fun n => http env n (watchUrl videoId) headers) ;;
  if negb (ok response)
  then raise (u "YouTube page returned " ++ numberToString (status response))
  else
    html <-- lift (settled (payload response)) ;;
    if includes (uq "class=`g-recaptcha`") html then raise (u "Rate limited (captcha)")
    else
      first <-- fromMarker env html ;;
      match first with
      | Some segments => pure segments
      | None =>
          second <-- fromCaptionsKey env html ;;
          match second with
          | Some segments => pure segments
          | None =>
              if negb (includes (uq "`playabilityStatus`:") html)
              then raise (u "Video is unavailable")
              else raise (u "Could not extract captions from page")
          end
      end.

(** *** fetchTranscriptFromYtDlp *)

Definition ytDlpCommand (videoId : str) : str :=
  uq "yt-dlp --skip-download --dump-json -- `https://www.youtube.com/watch?v="
  ++ videoId ++ uq "` 2>/dev/null".

Definition curlCommand (url : str) : str := uq "curl -sL -- `" ++ url ++ uq "`".

(** [obj[key]] *)
Fixpoint lookup (key : str) (obj : Sources) : option (list SubtitleTrack) :=
  match obj with
  | [] => None
  | (k, v) :: rest => if str_eqb k key then Some v else lookup key rest
  end.

(** [Object.values(obj)[0]] *)
Definition firstValue (obj : Sources) : option (list SubtitleTrack) :=
  match obj with
  | [] => None
  | (_, v) :: _ => Some v
  end.

(** [a || b] for values that are arrays or undefined: an array, even an
    empty one, is truthy. *)
Definition orElse {A : Type} (a b : option A) : option A :=
  match a with
  | Some _ => a
  | None => b
  end.

Definition subtitleSource (info : Info) : option (list SubtitleTrack) :=
  let subs := match subtitles info with Some s => s | None => [] end in
  let autoCaps := match automatic_captions info with Some s => s | None => [] end in
  orElse (lookup (u "en") subs)
    (orElse (lookup (u "en-US") subs)
       (orElse (firstValue subs)
          (orElse (lookup (u "en") autoCaps)
             (orElse (lookup (u "en-US") autoCaps)
                (firstValue autoCaps))))).

Definition hasExt (e : string) (s : SubtitleTrack) : bool := str_eqb (ext s) (u e).

Definition subtitleTrack (subSource : list SubtitleTrack) : option SubtitleTrack :=
  orElse (find (hasExt "srv1") subSource)
    (orElse (find (hasExt "srv2") subSource)
       (orElse (find (hasExt "srv3") subSource)
          (orElse (find (hasExt "vtt") subSource)
             (hd_error subSource)))).

Definition fetchTranscriptFromYtDlp (env : Env) (videoId : str)
  : IO (list TranscriptSegment) :=
  result <-- perform (ExecSync (ytDlpCommand videoId))
                (fun n => execSync env n (ytDlpCommand videoId)) ;;
  info <-- lift (settled (parseInfo env result)) ;;
  match subtitleSource info with
  | None | Some [] => raise (u "yt-dlp: no subtitle sources found")
  | Some subSource =>
      match subtitleTrack subSource with
      | None => raise (u "yt-dlp: no subtitle track URL")
      | Some track =>
          if negb (truthy (url track)) then raise (u "yt-dlp: no subtitle track URL")
          else
            subResp <-- perform (ExecSync (curlCommand (url track)))
                          (fun n => execSync env n (curlCommand (url track))) ;;
            lift (subtitleSegments subResp)
      end
  end.

End Net.

(** ** The command of the extension

    [Command] reads the clipboard, fetches the transcript and shows it.  Its
    effect [fetchTranscript] runs against a log of what it does to the
    outside: the clipboard, the toast, and the two state setters of the
    component. *)

Module App.

Inductive effect : Type :=
| ReadText
| GetVideoTranscript (videoId : str)
| Copy (content : str)
| ShowToast (title : str)
| SetMarkdown (markdown : str)
| SetIsLoading (isLoading : bool).

(** What the outside gives back; the transcript is fetched in [world]. *)
Record Host : Type := {
  readText : nat -> answer (option str);
  world : World;
  copy : nat -> str -> answer unit;
  showToast : nat -> answer unit
}.

Definition UI : Type -> Type := Log effect.

Definition setMarkdown (markdown : str) : UI unit :=
  perform (SetMarkdown markdown) (fun _ => Resolved tt).

Definition setIsLoading (isLoading : bool) : UI unit :=
  perform (SetIsLoading isLoading) (fun _ => Resolved tt).

(** The code unit U+274C, the cross mark of the headings. *)
Definition crossMark : str := [10060%N].

Definition noUrlFound : str :=
  u "# " ++ crossMark ++ u " No YouTube URL Found" ++ [LF; LF]
  ++ u "Copy a YouTube URL to your clipboard, then try again.".

Definition invalidUrl (videoUrl : str) : str :=
  u "# " ++ crossMark ++ u " Invalid URL" ++ [LF; LF]
  ++ u "Not a valid YouTube link." ++ [LF; LF]
  ++ u "**URL:** " ++ videoUrl.

Definition fetchFailed (msg videoId : str) : str :=
  u "# " ++ crossMark ++ u " Error" ++ [LF; LF] ++ msg ++ [LF; LF]
  ++ u "**Video ID:** " ++ videoId ++ [LF]
  ++ u "**URL:** https://youtube.com/watch?v=" ++ videoId.

Definition failed (errorMessage : str) : str :=
  u "# " ++ crossMark ++ u " Error" ++ [LF; LF] ++ errorMessage.

(** [getVideoTranscript(videoId)], with no options. *)
Definition transcriptOf (host : Host) (videoId : str) : UI TranscriptResult :=
  fun log =>
    (fst (getVideoTranscript (world host) videoId {| timestamps := None |} []),
     log ++ [GetVideoTranscript videoId]).

Definition fetchTranscript (host : Host) : UI unit :=
  recover
    (videoUrl <--
       recover
         (clipboardText <-- perform ReadText (readText host) ;;
          pure (match clipboardText with
                | Some t =>
                    if truthy t then
                      match extractVideoId t with
                      | Some id => if truthy id then Some t else None
                      | None => None
                      end
                    else None
                | None => None
                end))
         (fun _ => pure None) ;;
     match videoUrl with
     | None => setMarkdown noUrlFound ;;; setIsLoading false
     | Some videoUrl =>
         match extractVideoId videoUrl with
         | None => setMarkdown (invalidUrl videoUrl) ;;; setIsLoading false
         | Some videoId =>
             if negb (truthy videoId)
             then setMarkdown (invalidUrl videoUrl) ;;; setIsLoading false
             else
               fetched <--
                 recover (result <-- transcriptOf host videoId ;; pure (inl result))
                   (fun msg => pure (inr msg)) ;;
               match fetched with
               | inr msg => setMarkdown (fetchFailed msg videoId) ;;; setIsLoading false
               | inl result =>
                   let markdownContent :=
                     formatTranscriptAsMarkdown (transcript result) videoId (title result) in
                   perform (Copy markdownContent) (fun n => copy host n markdownContent) ;;;
                   perform (ShowToast (u "Copied to clipboard!")) (showToast host) ;;;
                   setMarkdown markdownContent ;;;
                   setIsLoading false
               end
         end
     end)
    (fun errorMessage => setMarkdown (failed errorMessage) ;;; setIsLoading false).

(** The state of the component after the effect has run: the arguments of
    the last calls of the two setters, from the initial state. *)
Fixpoint shown (log : list effect) (markdown : str) (isLoading : bool) : str * bool :=
  match log with
  | [] => (markdown, isLoading)
  | SetMarkdown m :: rest => shown rest m isLoading
  | SetIsLoading b :: rest => shown rest markdown b
  | _ :: rest => shown rest markdown isLoading
  end.

(** [<Detail isLoading={isLoading} markdown={isLoading ? "" : markdown} />] *)
Definition Detail (state : str * bool) : bool * str :=
  let '(markdown, isLoading) := state in
  (isLoading, if isLoading then [] else markdown).

End App.

(** ** The shared parsers of the batch scripts, [lib/parsers.mjs] *)

Module Parsers.

Definition decodeHtmlEntities (text : str) : str :=
  let t := replace_all (lit (u "&amp;")) (constant (u "&")) text in
  let t := replace_all (lit (u "&lt;")) (constant (u "<")) t in
  let t := replace_all (lit (u "&gt;")) (constant (u ">")) t in
  let t := replace_all (lit (u "&#39;")) (constant (u "'")) t in
  replace_all (lit (u "&quot;")) (constant [DQ]) t.

(** The lines dropped by [vttToPlainText]. *)
Definition dropped (line : str) : bool :=
  (startsWith (u "WEBVTT") line
   || startsWith (u "Kind:") line
   || startsWith (u "Language:") line
   || includes (u "-->") line
   || str_eqb (trim line) [])%bool.

(** One round of the loop: [textLines], and [seen] as the list of its
    members. *)
Definition vttStep (state : list str * list str) (line : str) : list str * list str :=
  let '(textLines, seen) := state in
  if dropped line then state
  else
    let clean := trim (decodeHtmlEntities (stripTags line)) in
    if (truthy clean && negb (existsb (str_eqb clean) seen))%bool
    then (textLines ++ [clean], clean :: seen)
    else state.

Definition vttToPlainText (vttContent : str) : str :=
  let lines := split_lines vttContent in
  let '(textLines, _) := fold_left vttStep lines ([], []) in
  trim (replace_all (Plus (Cls isSpace)) (constant (u " ")) (join (u " ") textLines)).

(** [[^a-zA-Z0-9 _-]] *)
Definition notFilenameChar (c : char) : bool :=
  negb (in_range 97 122 c || in_range 65 90 c || in_range 48 57 c
        || N.eqb c 32 || N.eqb c 95 || N.eqb c 45)%bool.

Definition sanitizeFilename (title : str) : str :=
  firstn 80
    (replace_all (Plus (Cls isSpace)) (constant (u "_"))
       (replace_all (Cls notFilenameChar) (constant []) title)).

Definition formatTranscriptMarkdown (title videoId transcript : str) : str :=
  u "# " ++ title ++ [LF; LF]
  ++ u "**URL:** https://youtube.com/watch?v=" ++ videoId ++ [LF; LF]
  ++ u "---" ++ [LF; LF]
  ++ transcript ++ [LF].

End Parsers.

(** ** The command-line program, [cli.mjs]

    The program carries its own copies of extractVideoId,
    decodeHtmlEntities and formatTimestamp, which are the functions above
    word for word.  What its three strategies and the title lookup give back
    is fixed by a [World]; [JSON.stringify] of the result object is left to
    the host.  A run logs what it prints and which strategies it calls, and
    ends with an exit status. *)

Module Cli.

Inductive effect : Type :=
| ConsoleLog (line : str)
| ConsoleError (line : str)
| Called (c : call).

Record Host : Type := {
  world : World;
  (** [JSON.stringify({ videoId, title, method, segmentCount, segments }, null, 2)] *)
  stringify : str -> str -> str -> nat -> list TranscriptSegment -> str
}.

Definition isFlag (a : str) : bool := startsWith (u "--") a.

Definition includesArg (name : string) (xs : list str) : bool :=
  existsb (fun a => str_eqb a (u name)) xs.

Definition consoleLog (line : str) : Log effect unit :=
  perform (ConsoleLog line) (fun _ => Resolved tt).

Definition consoleError (line : str) : Log effect unit :=
  perform (ConsoleError line) (fun _ => Resolved tt).

Definition called {A : Type} (c : call) (r : result A) : Log effect A :=
  fun log => (r, log ++ [Called c]).

Definition usage : str :=
  u "Usage: node cli.mjs <youtube-url-or-id> [--timestamps] [--json]".

Definition output (host : Host) (timestamps jsonOutput : bool) (videoId : str)
    (segments : list TranscriptSegment) (title method : str) : Log effect unit :=
  if jsonOutput then
    consoleLog (stringify host videoId title method (length segments) segments)
  else
    let text :=
      if timestamps then join [LF] (map timestampedLine segments)
      else trim (decodeHtmlEntities (join (u " ") (map text segments))) in
    consoleLog
      (u "# " ++ title ++ [LF; LF]
       ++ u "**URL:** https://youtube.com/watch?v=" ++ videoId ++ [LF]
       ++ u "**Method:** " ++ method ++ [LF; LF]
       ++ u "---" ++ [LF; LF]
       ++ text ++ [LF; LF]
       ++ u "---" ++ [LF; LF]
       ++ u "*Generated by FastyTranscript CLI*").

(** One block [try { ...; output(...); return; } catch (e) { errors.push(...) }]:
    [inl] when the function has returned, [inr] with the errors so far. *)
Definition strategy (host : Host) (timestamps jsonOutput : bool) (videoId : str)
    (label method : string) (c : call) (answer : result (list TranscriptSegment))
    (titlePromise : str) (errors : list str) : Log effect (unit + list str) :=
  recover
    (segments <-- called c answer ;;
     output host timestamps jsonOutput videoId segments titlePromise (u method) ;;;
     pure (inl tt))
    (fun message => pure (inr (errors ++ [u label ++ message]))).

Definition main (host : Host) (timestamps jsonOutput : bool) (videoId : str)
  : Log effect Z :=
  let w := world host in
  titlePromise <-- called Title (Ok (fetchVideoTitle w videoId)) ;;
  a <-- strategy host timestamps jsonOutput videoId "ANDROID: " "android" StrategyA
          (fetchTranscriptFromAndroid w videoId) titlePromise [] ;;
  match a with
  | inl _ => pure 0%Z
  | inr errors =>
      b <-- strategy host timestamps jsonOutput videoId "Page: " "page" StrategyB
              (fetchTranscriptFromPage w videoId) titlePromise errors ;;
      match b with
      | inl _ => pure 0%Z
      | inr errors =>
          c <-- strategy host timestamps jsonOutput videoId "yt-dlp: " "yt-dlp" StrategyC
                  (fetchTranscriptFromYtDlp w videoId) titlePromise errors ;;
          match c with
          | inl _ => pure 0%Z
          | inr errors =>
              consoleError
                (u "No transcript available. All methods failed:" ++ [LF]
                 ++ join [LF] (map (fun e => u "- " ++ e) errors)) ;;;
              pure 1%Z
          end
      end
  end.

(** The program, from [process.argv.slice(2)] to the exit status. *)
Definition run (host : Host) (args : list str) : Log effect Z :=
  let flags := filter isFlag args in
  let positional := filter (fun a => negb (isFlag a)) args in
  let timestamps := includesArg "--timestamps" flags in
  let jsonOutput := includesArg "--json" flags in
  match positional with
  | [] => consoleError usage ;;; pure 2%Z
  | first :: _ =>
      match extractVideoId first with
      | Some videoId =>
          if truthy videoId then main host timestamps jsonOutput videoId
          else consoleError (u "Invalid YouTube URL or ID: " ++ first) ;;; pure 2%Z
      | None => consoleError (u "Invalid YouTube URL or ID: " ++ first) ;;; pure 2%Z
      end
  end.

End Cli.

(** ** Notions used by the proofs *)

(** [s'] is what is left of [s] after some prefix. *)
Definition suffix (s' s : str) : Prop := exists w, s = w ++ s'.

(** A regular expression that consumes at least one code unit whenever it
    matches. *)
Fixpoint progresses (r : regex) : bool :=
  match r with
  | Cls _ => true
  | Seq r1 r2 => (progresses r1 || progresses r2)%bool
  | Grp _ r' => progresses r'
  | _ => false
  end.

(** Greedy and lazy repetition of a character class, written by recursion
    on the input. *)
Fixpoint greedy_run (p : char -> bool) (k : cont) (s : str) (cs : caps)
  : option (str * caps) :=
  match s with
  | c :: s' =>
      if p c then
        match greedy_run p k s' cs with Some x => Some x | None => k s cs end
      else k s cs
  | [] => k s cs
  end.


(** The input after an identifier: empty, or starting with a code unit that
    cannot continue the identifier. *)
Definition endsId (tail : str) : Prop :=
  match tail with
  | c :: _ => isIdChar c = false
  | [] => True
  end.

(** The optional beginnings and the four hosts-with-path of the URL shapes. *)
Definition schemes : list str := [[]; u "http://"; u "https://"].
Definition wwws : list str := [[]; u "www."].
Definition hosts : list string :=
  ["youtu.be/"; "youtube.com/watch?v="; "youtube.com/embed/"; "youtube.com/shorts/"]%string.




(** Counts of opening and closing braces. *)
Definition opens (s : str) : Z := Z.of_nat (count_occ N.eq_dec s (chr "{")).
Definition closes (s : str) : Z := Z.of_nat (count_occ N.eq_dec s (chr "}")).

(** The depth the loop has reached after reading [s]. *)
Definition depthOf (s : str) : Z := opens s - closes s.

(** A track with a language code and a fetch location named after it. *)
Definition track (code : string) : CaptionTrack :=
  {| baseUrl := u "https://captions.example/" ++ u code; languageCode := u code |}.

(** The outcome and the log of a run of the orchestrator from an empty log. *)
Definition run (w : World) (videoId : str) (options : TranscriptOptions)
  : result TranscriptResult * list call :=
  getVideoTranscript w videoId options [].

Definition success (w : World) (videoId : str) (options : TranscriptOptions)
    (segments : list TranscriptSegment) : result TranscriptResult :=
  Ok {| transcript := formatSegments segments options;
        title := fetchVideoTitle w videoId |}.

(** A world in which every strategy fails with the given reason. *)
Definition failingWorld (a b c : string) : World :=
  {| fetchVideoTitle := fun id => u "YouTube Video " ++ id;
     fetchTranscriptFromAndroid := fun _ => Throw (u a);
     fetchTranscriptFromPage := fun _ => Throw (u b);
     fetchTranscriptFromYtDlp := fun _ => Throw (u c) |}.

(** The accepting continuation of a top-level match. *)
Definition final : cont := fun s' cs => Some (s', cs).

(** The closing tag of an element. *)
Definition closing (tag : string) : str := u "</" ++ u tag ++ u ">".









(** The segment, if any, that an element gives. *)
Definition textSegment (v : str) (d : option str) (content : str)
  : list TranscriptSegment :=
  if truthy (trim content)
  then [{| text := content;
           start := or_zero (parseFloat (Some v));
           duration := or_zero (parseFloat d) |}]
  else [].

(** An item of a tag-per-line document: the text before an element, and the
    element. *)
Record textItem : Type := {
  before : str;
  startAttr : str;
  durAttrOf : option str;
  content : str
}.



Definition textSegments (items : list textItem) : list TranscriptSegment :=
  flat_map (fun it => textSegment (startAttr it) (durAttrOf it) (content it)) items.

Definition segment (t : string) (s d : Z) : TranscriptSegment :=
  {| text := u t; start := of_Z s; duration := of_Z d |}.





(** Milliseconds, read as an integer, to seconds. *)
Definition seconds (attr : option str) : number :=
  num_div (or_zero (parseInt attr)) (of_Z 1000).







(** The plain-subtitle path, line by line: whether a line is kept, and what
    it gives once its markup is stripped. *)
Definition vttKept (line : str) : bool := negb (vttSkipped (trim line)).

Definition vttCleaned (line : str) : str := trim (stripTags (trim line)).

Definition vttCandidates (subResp : str) : list str :=
  filter truthy (map vttCleaned (filter vttKept (split_lines subResp))).

Definition plainSegment (t : str) : TranscriptSegment :=
  {| text := t; start := zero; duration := zero |}.

(** The same path as the specification words it: the entities of a line are
    decoded before the line is compared and kept. *)
Definition vttLine_decoding (textSegments : list TranscriptSegment) (line : str)
  : list TranscriptSegment :=
  let trimmed := trim line in
  if vttSkipped trimmed then textSegments
  else
    let cleaned := decodeHtmlEntities (trim (stripTags trimmed)) in
    if (truthy cleaned
        && negb (existsb (fun s => str_eqb (text s) cleaned) textSegments))%bool
    then textSegments ++ [{| text := cleaned; start := zero; duration := zero |}]
    else textSegments.

Definition vttSegments_decoding (subResp : str) : list TranscriptSegment :=
  fold_left vttLine_decoding (split_lines subResp) [].





(** The example input of the end-to-end scenarios. *)
Definition helloWorld : str :=
  uq "<text start=`0` dur=`2`>Hello</text><text start=`2` dur=`2`>World</text>".

(** A code unit other than the line feed. *)
Definition plainChar (c : char) : Prop := c <> LF.

(** ** Notions used by the further properties *)

(** The input begins with white space. *)
Definition startsSpace (s : str) : bool :=
  match s with
  | c :: _ => isSpace c
  | [] => false
  end.

(** White space in normal form: every white-space code unit of [s] is a
    space, and no white space follows it. *)
Fixpoint singleSpaced (s : str) : bool :=
  match s with
  | [] => true
  | c :: t =>
      ((negb (isSpace c) || (N.eqb c 32 && negb (startsSpace t))) && singleSpaced t)%bool
  end.

(** Each run of white space replaced by the one code unit [x], by
    recursion on the input: a white-space code unit is dropped when white
    space follows it and becomes [x] otherwise. *)
Fixpoint collapseTo (x : char) (s : str) : str :=
  match s with
  | [] => []
  | c :: t =>
      if isSpace c then (if startsSpace t then collapseTo x t else x :: collapseTo x t)
      else c :: collapseTo x t
  end.

(** A segment as the parser may return it: its text is not empty and its
    times are numbers. *)
Definition soundSegment (s : TranscriptSegment) : Prop :=
  text s <> [] /\ start s <> NaN /\ duration s <> NaN.


(** The first request of the page strategy. *)
Definition pageRequest (videoId : str) : Net.request :=
  Net.Get (Net.watchUrl videoId)
    [(u "User-Agent", Net.WEB_UA); (u "Accept-Language", u "en-US,en;q=0.9")].


(** Environments for the examples: nothing answers, except that every page
    or caption request resolves to an ok response with the body [body], and
    the player request to a response that lists [tracks]. *)
Definition okResponse {A : Type} (a : A) : Net.Response A :=
  {| Net.ok := true; Net.status := of_Z 200; Net.payload := Resolved a |}.

Definition sampleEnv (tracks : list CaptionTrack) (body : str) : Net.Env :=
  {| Net.oembed := fun _ _ => Rejected (u "offline");
     Net.player := fun _ _ =>
       Resolved (okResponse
         {| Net.captions :=
              Some {| Net.playerCaptionsTracklistRenderer :=
                        Some {| Net.captionTracks := Some tracks |} |} |});
     Net.http := fun _ _ _ => Resolved (okResponse body);
     Net.execSync := fun _ _ => Rejected (u "not installed");
     Net.parsePlayerData := fun _ => Rejected (u "SyntaxError");
     Net.parseCaptions := fun _ => Rejected (u "SyntaxError");
     Net.parseInfo := fun _ => Rejected (u "SyntaxError") |}.

(** The same environment, with an oEmbed endpoint that answers with the
    given title. *)
Definition titledEnv (t : option str) : Net.Env :=
  {| Net.oembed := fun _ _ => Resolved (okResponse {| Net.oembedTitle := t |});
     Net.player := Net.player (sampleEnv [] []);
     Net.http := Net.http (sampleEnv [] []);
     Net.execSync := Net.execSync (sampleEnv [] []);
     Net.parsePlayerData := Net.parsePlayerData (sampleEnv [] []);
     Net.parseCaptions := Net.parseCaptions (sampleEnv [] []);
     Net.parseInfo := Net.parseInfo (sampleEnv [] []) |}.

(** The rank of a subtitle format in the order the yt-dlp strategy prefers. *)
Definition extRank (s : Net.SubtitleTrack) : nat :=
  if Net.hasExt "srv1" s then 0
  else if Net.hasExt "srv2" s then 1
  else if Net.hasExt "srv3" s then 2
  else if Net.hasExt "vtt" s then 3
  else 4.

(** What the clipboard holds, as the command reads it: a text in which
    extractVideoId finds an identifier, or nothing of use. *)
Definition clipboardUrl (host : App.Host) : option (str * str) :=
  match App.readText host 0 with
  | Resolved (Some t) =>
      if truthy t then
        match extractVideoId t with
        | Some id => Some (t, id)
        | None => None
        end
      else None
  | _ => None
  end.

Definition plainTranscript (host : App.Host) (videoId : str) : result TranscriptResult :=
  fst (getVideoTranscript (App.world host) videoId {| timestamps := None |} []).

Definition document (videoId : str) (res : TranscriptResult) : str :=
  formatTranscriptAsMarkdown (transcript res) videoId (title res).


(** The two state setters of the component. *)
Definition isSetter (e : App.effect) : bool :=
  match e with
  | App.SetMarkdown _ | App.SetIsLoading _ => true
  | _ => false
  end.


(** * Part II: properties *)

Unset Implicit Arguments.

(** ** Strings *)

Lemma str_eqb_eq (a b : str) : str_eqb a b = true <-> a = b.
Proof.
  unfold str_eqb. destruct (list_eq_dec N.eq_dec a b); split; congruence.
Qed.

Lemma str_eqb_refl (a : str) : str_eqb a a = true.
Proof. now apply str_eqb_eq. Qed.

Lemma suffix_refl (s : str) : suffix s s.
Proof. now exists []. Qed.

Lemma suffix_cons (c : char) (s' s : str) : suffix s' s -> suffix s' (c :: s).
Proof. intros [w ->]. now exists (c :: w). Qed.

Lemma suffix_trans (a b c : str) : suffix a b -> suffix b c -> suffix a c.
Proof. intros [w ->] [v ->]. exists (v ++ w). now rewrite app_assoc. Qed.

Lemma suffix_length (s' s : str) : suffix s' s -> length s' <= length s.
Proof. intros [w ->]. rewrite length_app. lia. Qed.

Lemma suffix_tail (c : char) (s' s : str) : suffix (c :: s') s -> suffix s' s.
Proof. intros [w ->]. exists (w ++ [c]). now rewrite <- app_assoc. Qed.

Create HintDb rx.
#[local] Hint Resolve suffix_refl suffix_cons suffix_trans : rx.

Lemma reset_nil (cs : caps) : reset [] cs = cs.
Proof.
  unfold reset. induction cs as [|b cs IH]; [reflexivity|].
  simpl. f_equal. exact IH.
Qed.

(** ** The matcher calls its continuation on what is left of the input *)

Section MatcherFacts.
Variable n : nat.

(** A success of the repetition loop is a success of its continuation. *)
Lemma star_loop_inv (body : cont -> str -> caps -> option (str * caps))
    (gs : list nat) (g : bool) (k : cont) :
  (forall k' s cs x, body k' s cs = Some x ->
     exists s' cs', suffix s' s /\ k' s' cs' = Some x) ->
  forall fuel s cs x, star_loop body gs g k fuel s cs = Some x ->
    exists s' cs', suffix s' s /\ k s' cs' = Some x.
Proof.
  intros Hbody. induction fuel as [|fuel IH]; intros s cs x H; simpl in H.
  - eauto with rx.
  - assert (Hagain : forall y,
        body (fun s' cs' => if Nat.ltb (length s') (length s)
                            then star_loop body gs g k fuel s' cs' else None)
             s (reset gs cs) = Some y ->
        exists s' cs', suffix s' s /\ k s' cs' = Some y).
    { intros y Hy. apply Hbody in Hy. destruct Hy as (s1 & cs1 & Hs1 & Hy).
      destruct (Nat.ltb (length s1) (length s)); [|discriminate].
      apply IH in Hy. destruct Hy as (s2 & cs2 & Hs2 & Hy). eauto with rx. }
    destruct g.
    + destruct (body _ s (reset gs cs)) as [y|] eqn:E.
      * inversion H; subst. now apply Hagain.
      * eauto with rx.
    + destruct (k s cs) as [y|] eqn:E.
      * inversion H; subst. eauto with rx.
      * now apply Hagain.
Qed.

Lemma rmatch_inv (r : regex) :
  forall k s cs x, rmatch n r k s cs = Some x ->
    exists s' cs', suffix s' s /\ k s' cs' = Some x.
Proof.
  induction r as [|p|r1 IH1 r2 IH2|r IH|g r IH|i r IH| |]; intros k s cs x H; simpl in H.
  - eauto with rx.
  - destruct s as [|c s]; [discriminate|]. destruct (p c); [|discriminate].
    eauto with rx.
  - apply IH1 in H. destruct H as (s1 & cs1 & Hs1 & H).
    apply IH2 in H. destruct H as (s2 & cs2 & Hs2 & H). eauto with rx.
  - destruct (rmatch n r _ s (reset (groups r) cs)) as [y|] eqn:E.
    + inversion H; subst. apply IH in E. destruct E as (s1 & cs1 & Hs1 & E).
      destruct (Nat.ltb (length s1) (length s)); [|discriminate]. eauto.
    + eauto with rx.
  - eapply star_loop_inv; eauto.
  - apply IH in H. destruct H as (s1 & cs1 & Hs1 & H). eauto.
  - destruct (Nat.eqb (length s) n); [|discriminate]. eauto with rx.
  - destruct s; [|discriminate]. eauto with rx.
Qed.

(** Two continuations that agree on what is left of the input give the
    same result. *)
Lemma star_loop_ext (body : cont -> str -> caps -> option (str * caps))
    (gs : list nat) (g : bool) (k1 k2 : cont) (s0 : str) :
  (forall k1' k2' s cs, suffix s s0 ->
     (forall s' cs', suffix s' s -> k1' s' cs' = k2' s' cs') ->
     body k1' s cs = body k2' s cs) ->
  (forall s' cs', suffix s' s0 -> k1 s' cs' = k2 s' cs') ->
  forall fuel s cs, suffix s s0 ->
    star_loop body gs g k1 fuel s cs = star_loop body gs g k2 fuel s cs.
Proof.
  intros Hbody Hk. induction fuel as [|fuel IH]; intros s cs Hs; simpl.
  - now apply Hk.
  - rewrite (Hk s cs Hs).
    rewrite (Hbody
      (fun s' cs' => if Nat.ltb (length s') (length s)
                     then star_loop body gs g k1 fuel s' cs' else None)
      (fun s' cs' => if Nat.ltb (length s') (length s)
                     then star_loop body gs g k2 fuel s' cs' else None)
      s (reset gs cs) Hs).
    + reflexivity.
    + intros s' cs' Hs'. destruct (Nat.ltb (length s') (length s)); [|reflexivity].
      apply IH. eauto with rx.
Qed.

Lemma rmatch_ext (r : regex) :
  forall k1 k2 s cs,
    (forall s' cs', suffix s' s -> k1 s' cs' = k2 s' cs') ->
    rmatch n r k1 s cs = rmatch n r k2 s cs.
Proof.
  induction r as [|p|r1 IH1 r2 IH2|r IH|g r IH|i r IH| |]; intros k1 k2 s cs Hk; simpl.
  - apply Hk; auto with rx.
  - destruct s as [|c s]; [reflexivity|]. destruct (p c); [|reflexivity].
    apply Hk; auto with rx.
  - apply IH1. intros s' cs' Hs'. apply IH2. intros; apply Hk; eauto with rx.
  - rewrite (Hk s cs) by auto with rx.
    rewrite (IH _ (fun s' cs' => if Nat.ltb (length s') (length s) then k2 s' cs' else None)).
    + reflexivity.
    + intros s' cs' Hs'. now rewrite Hk.
  - apply star_loop_ext with (s0 := s); auto with rx.
  - apply IH. intros s' cs' Hs'. now apply Hk.
  - destruct (Nat.eqb (length s) n); [|reflexivity]. apply Hk; auto with rx.
  - destruct s; [|reflexivity]. apply Hk; auto with rx.
Qed.

(** For an expression that always consumes something, only the proper
    remainders of the input matter. *)
Lemma rmatch_ext_strict (r : regex) :
  progresses r = true ->
  forall k1 k2 s cs,
    (forall s' cs', suffix s' s -> length s' < length s -> k1 s' cs' = k2 s' cs') ->
    rmatch n r k1 s cs = rmatch n r k2 s cs.
Proof.
  induction r as [|p|r1 IH1 r2 IH2|r IH|g r IH|i r IH| |]; intros Hp k1 k2 s cs Hk;
    simpl in Hp; try discriminate; simpl.
  - destruct s as [|c s]; [reflexivity|]. destruct (p c); [|reflexivity].
    apply Hk; simpl; auto with rx.
  - destruct (progresses r1) eqn:E1.
    + apply IH1; [reflexivity|]. intros s' cs' Hs' Hlt.
      apply rmatch_ext. intros s2 cs2 Hs2. apply Hk; [eauto with rx|].
      apply suffix_length in Hs2. lia.
    + apply rmatch_ext. intros s' cs' Hs'.
      apply IH2; [exact Hp|]. intros s2 cs2 Hs2 Hlt.
      apply Hk; [eauto with rx|]. apply suffix_length in Hs'. lia.
  - apply IH; [exact Hp|]. intros s' cs' Hs' Hlt. now apply Hk.
Qed.


Lemma rmatch_lit_inv (w : str) :
  forall k s cs x, rmatch n (lit w) k s cs = Some x ->
    exists s', s = w ++ s' /\ k s' cs = Some x.
Proof.
  induction w as [|a w IH]; intros k s cs x H; simpl in H.
  - exists s. auto.
  - destruct s as [|c s]; [discriminate|].
    destruct (N.eqb a c) eqn:E; [|discriminate].
    apply N.eqb_eq in E. subst c.
    apply IH in H. destruct H as (s' & -> & H). exists s'. auto.
Qed.

Lemma rmatch_lit_app (w : str) :
  forall k s cs, rmatch n (lit w) k (w ++ s) cs = k s cs.
Proof.
  induction w as [|a w IH]; intros k s cs; simpl; [reflexivity|].
  now rewrite N.eqb_refl.
Qed.

Lemma star_loop_cls_greedy (p : char -> bool) (k : cont) :
  forall fuel s cs, length s <= fuel ->
    star_loop (rmatch n (Cls p)) [] true k fuel s cs = greedy_run p k s cs.
Proof.
  induction fuel as [|fuel IH]; intros s cs Hlen.
  - destruct s; [reflexivity | simpl in Hlen; lia].
  - destruct s as [|c s]; [reflexivity|].
    cbn [star_loop rmatch greedy_run]. destruct (p c); [|reflexivity].
    replace (Nat.ltb (length s) (length (c :: s))) with true
      by (symmetry; apply Nat.ltb_lt; simpl; lia).
    rewrite reset_nil. rewrite IH by (simpl in Hlen; lia). reflexivity.
Qed.

Lemma rmatch_star_greedy (p : char -> bool) (k : cont) (s : str) (cs : caps) :
  rmatch n (Star true (Cls p)) k s cs = greedy_run p k s cs.
Proof. simpl. now apply star_loop_cls_greedy. Qed.


End MatcherFacts.

Lemma greedy_run_inv (p : char -> bool) (k : cont) :
  forall s cs x, greedy_run p k s cs = Some x ->
    exists w s', s = w ++ s' /\ forallb p w = true /\ k s' cs = Some x.
Proof.
  induction s as [|c s IH]; intros cs x H; simpl in H.
  - exists [], []. auto.
  - destruct (p c) eqn:E.
    + destruct (greedy_run p k s cs) as [y|] eqn:R.
      * inversion H; subst. destruct (IH _ _ R) as (w & s' & -> & Hw & Hk).
        exists (c :: w), s'. simpl. rewrite E. auto.
      * exists [], (c :: s). auto.
    + exists [], (c :: s). auto.
Qed.

(** The greedy run takes the longest run of the class when what follows
    accepts there. *)
Lemma greedy_run_max (p : char -> bool) (k : cont) (w s : str) (cs : caps) x :
  forallb p w = true ->
  match s with c :: _ => p c = false | [] => True end ->
  k s cs = Some x ->
  greedy_run p k (w ++ s) cs = Some x.
Proof.
  intros Hw Hs Hk. induction w as [|c w IH]; simpl.
  - destruct s as [|c s]; [exact Hk|]. simpl. now rewrite Hs.
  - simpl in Hw. apply andb_true_iff in Hw. destruct Hw as [Hc Hw].
    rewrite Hc. now rewrite IH.
Qed.

(** ** Equations of the matcher on the shapes the patterns use *)

Lemma rmatch_seq n r1 r2 k s cs :
  rmatch n (Seq r1 r2) k s cs = rmatch n r1 (rmatch n r2 k) s cs.
Proof. reflexivity. Qed.

Lemma rmatch_grp n i r k s cs :
  rmatch n (Grp i r) k s cs =
  rmatch n r (fun s' cs' => k s' ((i, firstn (length s - length s') s) :: cs')) s cs.
Proof. reflexivity. Qed.

Lemma rmatch_plus_cls n p k s cs :
  rmatch n (Plus (Cls p)) k s cs =
  match s with
  | c :: t => if p c then greedy_run p k t cs else None
  | [] => None
  end.
Proof.
  unfold Plus. rewrite rmatch_seq. destruct s as [|c t]; [reflexivity|].
  cbn [rmatch]. destruct (p c); [|reflexivity].
  now apply (rmatch_star_greedy n p k t cs).
Qed.

Lemma firstn_app_len (w s : str) : firstn (length (w ++ s) - length s) (w ++ s) = w.
Proof.
  rewrite length_app. replace (length w + length s - length s) with (length w) by lia.
  rewrite firstn_app, Nat.sub_diag, firstn_all. simpl. now rewrite app_nil_r.
Qed.

Lemma rmatch_rep_cls_inv n p j :
  forall k s cs x, rmatch n (Rep j (Cls p)) k s cs = Some x ->
    exists w s', s = w ++ s' /\ length w = j /\ forallb p w = true /\ k s' cs = Some x.
Proof.
  induction j as [|j IH]; intros k s cs x H.
  - exists [], s. auto.
  - cbn [Rep rmatch] in H. destruct s as [|c s]; [discriminate|].
    destruct (p c) eqn:E; [|discriminate].
    apply IH in H. destruct H as (w & s' & -> & Hlen & Hw & Hk).
    exists (c :: w), s'. simpl. rewrite E, Hlen. auto.
Qed.

Lemma rmatch_rep_cls_app n p :
  forall w k s cs, forallb p w = true ->
    rmatch n (Rep (length w) (Cls p)) k (w ++ s) cs = k s cs.
Proof.
  induction w as [|c w IH]; intros k s cs Hw; [reflexivity|].
  simpl in Hw. apply andb_true_iff in Hw. destruct Hw as [Hc Hw].
  cbn [length Rep rmatch app]. rewrite Hc. now apply IH.
Qed.

(** ** [startsWith] and [includes] *)

Lemma startsWith_iff (w s : str) : startsWith w s = true <-> exists b, s = w ++ b.
Proof.
  revert s. induction w as [|a w IH]; intros s; simpl.
  - split; [intros _; now exists s | reflexivity].
  - destruct s as [|c s].
    + split; [discriminate | intros [b Hb]; discriminate].
    + rewrite andb_true_iff, N.eqb_eq, IH. split.
      * intros [-> [b ->]]. now exists b.
      * intros [b Hb]. inversion Hb; subst. split; [reflexivity | now exists b].
Qed.

Lemma includes_iff (w s : str) :
  includes w s = true <-> exists a b, s = a ++ w ++ b.
Proof.
  induction s as [|c s IH].
  - simpl. rewrite orb_false_r, startsWith_iff. split.
    + intros [b Hb]. now exists [], b.
    + intros (a & b & H). destruct a; simpl in H.
      * now exists b.
      * discriminate.
  - cbn [includes]. rewrite orb_true_iff, startsWith_iff, IH. split.
    + intros [[b Hb] | (a & b & ->)].
      * now exists [], b.
      * now exists (c :: a), b.
    + intros (a & b & H). destruct a as [|c' a]; simpl in H.
      * left. now exists b.
      * right. inversion H; subst. now exists a, b.
Qed.

Lemma includes_In (x : char) (w s : str) :
  In x w -> includes w s = true -> In x s.
Proof.
  intros Hx H. apply includes_iff in H. destruct H as (a & b & ->).
  apply in_or_app. right. apply in_or_app. now left.
Qed.

Lemma includes_without (x : char) (w s : str) :
  In x w -> forallb (noneOf x) s = true -> includes w s = false.
Proof.
  intros Hx Hs. destruct (includes w s) eqn:E; [|reflexivity].
  apply (includes_In _ _ _ Hx) in E.
  rewrite forallb_forall in Hs. apply Hs in E.
  unfold noneOf in E. now rewrite N.eqb_refl in E.
Qed.

(** ** The patterns of extractVideoId *)

Lemma idGroup_inv n s cs s' cs' :
  rmatch n (Seq (Grp 1 (Plus (Cls isIdChar))) Eps) final s cs = Some (s', cs') ->
  exists w, cs' = (1, w) :: cs /\ s = w ++ s' /\ w <> [] /\ forallb isIdChar w = true.
Proof.
  rewrite rmatch_seq, rmatch_grp, rmatch_plus_cls.
  destruct s as [|c t]; [discriminate|].
  destruct (isIdChar c) eqn:Ec; [|discriminate].
  intros H. apply greedy_run_inv in H. destruct H as (w & t' & -> & Hw & H).
  cbn [rmatch] in H. unfold final in H. inversion H; subst.
  exists (c :: w). split; [|split; [|split]].
  - f_equal. f_equal. apply (firstn_app_len (c :: w) s').
  - reflexivity.
  - discriminate.
  - simpl. now rewrite Ec.
Qed.

Lemma idGroup_run n id tail :
  id <> [] -> forallb isIdChar id = true -> endsId tail ->
  rmatch n (Seq (Grp 1 (Plus (Cls isIdChar))) Eps) final (id ++ tail) [] =
  Some (tail, [(1, id)]).
Proof.
  intros Hne Hid Hend. rewrite rmatch_seq, rmatch_grp, rmatch_plus_cls.
  destruct id as [|c w]; [congruence|]. simpl in Hid.
  apply andb_true_iff in Hid. destruct Hid as [Hc Hw].
  cbn [app]. rewrite Hc. apply greedy_run_max; [exact Hw | exact Hend |].
  cbn [rmatch]. unfold final. f_equal. f_equal. f_equal. f_equal.
  apply (firstn_app_len (c :: w) tail).
Qed.

Lemma idPattern_inv n host s s' cs :
  match_here n (idPattern host) s = Some (s', cs) ->
  includes (u host) s = true /\
  exists w, capture 1 cs = Some w /\ w <> [] /\ forallb isIdChar w = true.
Proof.
  unfold match_here, idPattern. cbn [seqs]. rewrite rmatch_seq. intros H.
  apply rmatch_inv in H. destruct H as (s1 & cs1 & [a ->] & H).
  rewrite rmatch_seq in H. apply rmatch_lit_inv in H. destruct H as (s2 & -> & H).
  apply idGroup_inv in H. destruct H as (w & -> & -> & Hne & Hw). split.
  - apply includes_iff. eauto.
  - exists w. simpl. auto.
Qed.

Lemma search_suffix n r :
  forall s pre s' cs, search n r s = Some (pre, s', cs) ->
    exists t, s = pre ++ t /\ match_here n r t = Some (s', cs).
Proof.
  induction s as [|c s IH]; intros pre s' cs H; simpl in H.
  - destruct (match_here n r []) as [[s1 cs1]|] eqn:E; [|discriminate].
    inversion H; subst. now exists [].
  - destruct (match_here n r (c :: s)) as [[s1 cs1]|] eqn:E.
    + inversion H; subst. now exists (c :: s).
    + destruct (search n r s) as [[[pre1 s1] cs1]|] eqn:S; [|discriminate].
      inversion H; subst. destruct (IH _ _ _ eq_refl) as (t & -> & Ht).
      now exists t.
Qed.

Lemma search_here n r s s' cs :
  match_here n r s = Some (s', cs) -> search n r s = Some ([], s', cs).
Proof. intros H. destruct s; simpl; now rewrite H. Qed.

Lemma search_none n r :
  forall s, (forall t, suffix t s -> match_here n r t = None) -> search n r s = None.
Proof.
  induction s as [|c s IH]; intros H; simpl.
  - now rewrite (H [] (suffix_refl _)).
  - rewrite (H _ (suffix_refl _)). rewrite IH; [reflexivity|].
    intros t Ht. apply H. now apply suffix_cons.
Qed.

Lemma str_match_idPattern_inv host s cs :
  str_match (idPattern host) s = Some cs ->
  includes (u host) s = true /\
  exists w, capture 1 cs = Some w /\ w <> [] /\ forallb isIdChar w = true.
Proof.
  unfold str_match. destruct (search _ _ s) as [[[pre s'] cs1]|] eqn:E; [|discriminate].
  intros H. inversion H; subst. apply search_suffix in E. destruct E as (t & -> & E).
  apply idPattern_inv in E. destruct E as [Hinc Hw]. split; [|exact Hw].
  apply includes_iff in Hinc. destruct Hinc as (a & b & ->).
  apply includes_iff. exists (pre ++ a), b. now rewrite <- app_assoc.
Qed.

Lemma str_match_idPattern_none host s :
  includes (u host) s = false -> str_match (idPattern host) s = None.
Proof.
  intros H. destruct (str_match (idPattern host) s) as [cs|] eqn:E; [|reflexivity].
  apply str_match_idPattern_inv in E. destruct E as [E _]. congruence.
Qed.

Lemma barePattern_inv n s s' cs :
  match_here n barePattern s = Some (s', cs) ->
  length s = n /\ length s = 11 /\ forallb isIdChar s = true /\ cs = [(1, s)].
Proof.
  unfold match_here, barePattern. cbn [seqs]. rewrite rmatch_seq. cbn [rmatch].
  destruct (Nat.eqb (length s) n) eqn:En; [|discriminate].
  apply Nat.eqb_eq in En. intros H. apply rmatch_rep_cls_inv in H.
  destruct H as (w & t & -> & Hlen & Hw & H). destruct t; [|discriminate].
  unfold final in H. inversion H; subst. rewrite app_nil_r in *.
  rewrite Nat.sub_0_r, firstn_all. auto.
Qed.

Lemma str_match_bare_inv s cs :
  str_match barePattern s = Some cs ->
  length s = 11 /\ forallb isIdChar s = true /\ cs = [(1, s)].
Proof.
  unfold str_match. destruct (search _ _ s) as [[[pre s'] cs1]|] eqn:E; [|discriminate].
  intros H. inversion H; subst. apply search_suffix in E. destruct E as (t & -> & E).
  apply barePattern_inv in E. destruct E as (Hn & H11 & Hid & ->).
  rewrite length_app in Hn. assert (pre = []) by (destruct pre; [reflexivity | simpl in Hn; lia]).
  subst. auto.
Qed.

Lemma str_match_bare r :
  length r = 11 -> forallb isIdChar r = true -> str_match barePattern r = Some [(1, r)].
Proof.
  intros Hlen Hid. unfold str_match.
  enough (H : match_here (length r) barePattern r = Some ([], [(1, r)]))
    by (apply search_here in H; now rewrite H).
  unfold match_here, barePattern. cbn [seqs]. rewrite rmatch_seq. cbn [rmatch].
  rewrite Nat.eqb_refl.
  match goal with |- rmatch _ _ ?K _ _ = _ =>
    pose proof (rmatch_rep_cls_app (length r) isIdChar r K [] [] Hid) as H end.
  rewrite app_nil_r in H. rewrite Hlen in *. rewrite H.
  replace (11 - length (@nil char)) with (length r) by (simpl; lia).
  now rewrite firstn_all.
Qed.

Lemma idChar_not_dot (s : str) :
  forallb isIdChar s = true -> forallb (noneOf (chr ".")) s = true.
Proof.
  intros H. rewrite forallb_forall in *. intros c Hc. apply H in Hc.
  unfold noneOf. destruct (N.eqb c (chr ".")) eqn:E; [|reflexivity].
  apply N.eqb_eq in E. subst c. discriminate.
Qed.

Lemma host_has_dot host : In host hosts -> In (chr ".") (u host).
Proof.
  intros H. repeat (destruct H as [<-|H]; [vm_compute; tauto|]). destruct H.
Qed.

Lemma patterns_eq : patterns = map idPattern hosts ++ [barePattern].
Proof. reflexivity. Qed.

Lemma firstCapture_app ps qs url :
  firstCapture (ps ++ qs) url =
  match firstCapture ps url with Some w => Some w | None => firstCapture qs url end.
Proof.
  induction ps as [|p ps IH]; simpl; [now destruct (firstCapture qs url)|].
  destruct (str_match p url) as [cs|]; [|exact IH].
  destruct (capture 1 cs) as [w|]; [|exact IH].
  destruct (truthy w); [reflexivity | exact IH].
Qed.

Lemma firstCapture_hosts_inv hs url r :
  firstCapture (map idPattern hs) url = Some r ->
  r <> [] /\ forallb isIdChar r = true /\ exists h, In h hs /\ includes (u h) url = true.
Proof.
  induction hs as [|h hs IH]; simpl; [discriminate|].
  destruct (str_match (idPattern h) url) as [cs|] eqn:E.
  - apply str_match_idPattern_inv in E. destruct E as (Hinc & w & Hc & Hne & Hw).
    rewrite Hc. destruct w as [|c w]; [congruence|]. simpl truthy. cbv iota.
    intros H. inversion H; subst. split; [discriminate|]. split; [exact Hw|]. eauto.
  - intros H. apply IH in H. destruct H as (? & ? & h' & ? & ?). eauto 8.
Qed.

Lemma firstCapture_hosts_none hs url :
  (forall h, In h hs -> includes (u h) url = false) ->
  firstCapture (map idPattern hs) url = None.
Proof.
  intros H. destruct (firstCapture (map idPattern hs) url) as [r|] eqn:E; [|reflexivity].
  apply firstCapture_hosts_inv in E. destruct E as (_ & _ & h & Hin & Hinc).
  rewrite (H h Hin) in Hinc. discriminate.
Qed.

Lemma extractVideoId_sound url r :
  extractVideoId url = Some r -> r <> [] /\ forallb isIdChar r = true.
Proof.
  unfold extractVideoId. rewrite patterns_eq, firstCapture_app.
  destruct (firstCapture (map idPattern hosts) url) as [w|] eqn:E.
  - intros H. inversion H; subst. apply firstCapture_hosts_inv in E. tauto.
  - simpl. destruct (str_match barePattern url) as [cs|] eqn:B; [|discriminate].
    apply str_match_bare_inv in B. destruct B as (Hlen & Hid & ->). simpl.
    destruct url as [|c url]; [discriminate|]. simpl truthy. cbv iota.
    intros H. inversion H; subst. split; [discriminate | exact Hid].
Qed.

Lemma extractVideoId_bare r :
  length r = 11 -> forallb isIdChar r = true -> extractVideoId r = Some r.
Proof.
  intros Hlen Hid. unfold extractVideoId. rewrite patterns_eq, firstCapture_app.
  rewrite firstCapture_hosts_none.
  - simpl. rewrite (str_match_bare r Hlen Hid). simpl.
    destruct r; [discriminate | reflexivity].
  - intros h Hh. apply includes_without with (x := chr ".").
    + now apply host_has_dot.
    + now apply idChar_not_dot.
Qed.

Lemma extractVideoId_not11 r :
  length r <> 11 -> forallb isIdChar r = true -> extractVideoId r = None.
Proof.
  intros Hlen Hid. unfold extractVideoId. rewrite patterns_eq, firstCapture_app.
  rewrite firstCapture_hosts_none.
  - simpl. destruct (str_match barePattern r) as [cs|] eqn:B; [|reflexivity].
    apply str_match_bare_inv in B. tauto.
  - intros h Hh. apply includes_without with (x := chr ".").
    + now apply host_has_dot.
    + now apply idChar_not_dot.
Qed.

Ltac guards :=
  repeat match goal with
  | |- context [Nat.leb ?a ?b] =>
      replace (Nat.leb a b) with true by (symmetry; apply Nat.leb_le; lia)
  | |- context [Nat.ltb ?a ?b] =>
      replace (Nat.ltb a b) with true by (symmetry; apply Nat.ltb_lt; simpl; lia)
  end.

Lemma urlHead_run sc ww host :
  In sc schemes -> In ww wwws -> In host hosts ->
  forall n K rest x, K rest [] = Some x ->
    rmatch n (Seq urlPrefix (lit (u host))) K (sc ++ ww ++ u host ++ rest) [] = Some x.
Proof.
  intros Hsc Hww Hh n K rest x HK.
  destruct Hsc as [<-|[<-|[<-|[]]]]; destruct Hww as [<-|[<-|[]]];
    destruct Hh as [<-|[<-|[<-|[<-|[]]]]]; cbn; guards; rewrite ?HK; reflexivity.
Qed.


(** ** Where the URL patterns match *)

Lemma endsId_dropWhile s : endsId (dropWhile isIdChar s).
Proof.
  induction s as [|c s IH]; [exact I|]. cbn [dropWhile].
  destruct (isIdChar c) eqn:E; [exact IH | exact E].
Qed.

Lemma takeWhile_all p (s : str) : forallb p (takeWhile p s) = true.
Proof.
  induction s as [|c s IH]; [reflexivity|]. cbn [takeWhile].
  destruct (p c) eqn:E; [cbn [forallb]; now rewrite E | reflexivity].
Qed.

(** A greedy run before a continuation that accepts everywhere takes the
    whole run. *)
Lemma greedy_run_whole p (k : cont) :
  (forall s cs, k s cs <> None) ->
  forall s cs, greedy_run p k s cs = k (dropWhile p s) cs.
Proof.
  intros Hk. induction s as [|c s IH]; intros cs; [reflexivity|].
  cbn [greedy_run dropWhile]. destruct (p c); [|reflexivity].
  rewrite IH. destruct (k (dropWhile p s) cs) eqn:E; [reflexivity|].
  now apply Hk in E.
Qed.

Lemma idGroup_source n s cs s' cs' :
  rmatch n (Seq (Grp 1 (Plus (Cls isIdChar))) Eps) final s cs = Some (s', cs') ->
  exists w, cs' = (1, w) :: cs /\ s = w ++ s' /\ w <> []
            /\ forallb isIdChar w = true /\ endsId s'.
Proof.
  intros H. destruct (idGroup_inv _ _ _ _ _ H) as (w & Hcs & Hs & Hne & Hw).
  exists w. repeat split; try assumption.
  rewrite rmatch_seq, rmatch_grp, rmatch_plus_cls in H.
  destruct s as [|c t]; [discriminate|].
  destruct (isIdChar c); [|discriminate].
  rewrite greedy_run_whole in H by (intros; cbn [rmatch]; unfold final; discriminate).
  cbn [rmatch] in H. unfold final in H. inversion H. apply endsId_dropWhile.
Qed.

Lemma idPattern_source n host s s' cs :
  match_here n (idPattern host) s = Some (s', cs) ->
  exists a w, s = a ++ u host ++ w ++ s' /\ capture 1 cs = Some w
              /\ w <> [] /\ forallb isIdChar w = true /\ endsId s'.
Proof.
  unfold match_here, idPattern. cbn [seqs]. rewrite rmatch_seq. intros H.
  apply rmatch_inv in H. destruct H as (s1 & cs1 & [a ->] & H).
  rewrite rmatch_seq in H. apply rmatch_lit_inv in H. destruct H as (s2 & -> & H).
  apply idGroup_source in H. destruct H as (w & -> & -> & Hne & Hw & He).
  exists a, w. repeat split; try assumption; reflexivity.
Qed.





Lemma skipn_length_app (a b : str) : skipn (length a) (a ++ b) = b.
Proof. induction a as [|c a IH]; [reflexivity | exact IH]. Qed.




Lemma search_exists n r pre t :
  match_here n r t <> None -> search n r (pre ++ t) <> None.
Proof.
  intros H. induction pre as [|c pre IH].
  - cbn [app]. destruct (match_here n r t) as [[s' cs]|] eqn:E; [|congruence].
    now rewrite (search_here _ _ _ _ _ E).
  - cbn [app search]. destruct (match_here n r (c :: pre ++ t)) as [[s' cs]|]; [discriminate|].
    destruct (search n r (pre ++ t)) as [[[p s'] cs]|]; [discriminate | congruence].
Qed.







(** C4, the failing instance: a short link yields a three-character
    identifier, which extractVideoId does not map to itself. *)
Lemma extractVideoId_not_idempotent :
  extractVideoId (u "youtu.be/abc") = Some (u "abc")
  /\ extractVideoId (u "abc") <> Some (u "abc").
Proof. split; [vm_compute; reflexivity | vm_compute; discriminate]. Qed.

(** C4 (amended): whatever extractVideoId returns is a non-empty string of
    identifier characters; extractVideoId maps it to itself when it has
    exactly 11 characters and to null otherwise.  extractVideoId is a total
    function: it returns on every input. *)
Theorem extractVideoId_idempotent_on_11 (s r : str) :
  extractVideoId s = Some r ->
  r <> [] /\ forallb isIdChar r = true
  /\ (length r = 11 -> extractVideoId r = Some r)
  /\ (length r <> 11 -> extractVideoId r = None).
Proof.
  intros H. apply extractVideoId_sound in H. destruct H as [Hne Hid].
  repeat split; try assumption.
  - intros Hlen. now apply extractVideoId_bare.
  - intros Hlen. now apply extractVideoId_not11.
Qed.

Lemma extractVideoId_idempotent_on_11_witness :
  extractVideoId (u "dQw4w9WgXcQ") = Some (u "dQw4w9WgXcQ")
  /\ extractVideoId (u "abc") = None.
Proof.
  split.
  - apply (extractVideoId_idempotent_on_11 (u "https://youtu.be/dQw4w9WgXcQ")
             (u "dQw4w9WgXcQ")); reflexivity.
  - apply (extractVideoId_idempotent_on_11 (u "youtu.be/abc") (u "abc"));
      [reflexivity | vm_compute; discriminate].
Defined.




(** ** extractJsonObject *)

Lemma depthOf_cons c s :
  depthOf (c :: s) =
  ((if isCh "{" c then 1 else if isCh "}" c then -1 else 0) + depthOf s)%Z.
Proof.
  unfold depthOf, opens, closes, isCh. cbn [u list_ascii_of_string map count_occ].
  change (N_of_ascii "{") with (chr "{"). change (N_of_ascii "}") with (chr "}").
  destruct (N.eq_dec c (chr "{")) as [->|H1].
  - vm_compute (N.eqb _ _). destruct (N.eq_dec _ _) as [E|_]; [discriminate E|lia].
  - destruct (N.eqb c (chr "{")) eqn:E1; [apply N.eqb_eq in E1; congruence|].
    destruct (N.eq_dec c (chr "}")) as [->|H2].
    + vm_compute (N.eqb _ _). lia.
    + destruct (N.eqb c (chr "}")) eqn:E2; [apply N.eqb_eq in E2; congruence|].
      destruct (N.eq_dec (chr "{") c); [congruence|].
      destruct (N.eq_dec (chr "}") c); [congruence|]. lia.
Qed.

Lemma depthOf_app a b : depthOf (a ++ b) = (depthOf a + depthOf b)%Z.
Proof.
  induction a as [|c a IH]; [reflexivity|].
  cbn [app]. rewrite !depthOf_cons, IH. lia.
Qed.

Lemma depthOf_nil : depthOf [] = 0%Z.
Proof. reflexivity. Qed.

Lemma depthOf_step c : (-1 <= depthOf [c] <= 1)%Z.
Proof.
  rewrite depthOf_cons, depthOf_nil.
  destruct (isCh "{" c); [lia|]. destruct (isCh "}" c); lia.
Qed.

(** The scan stops after the shortest non-empty prefix that brings the depth
    back to zero. *)
Lemma braceScan_some :
  forall rest depth len n, braceScan rest depth len = Some n ->
    exists w t, rest = w ++ t /\ n = len + length w /\ w <> []
      /\ (depth + depthOf w = 0)%Z
      /\ forall p q, w = p ++ q -> p <> [] -> q <> [] -> (depth + depthOf p <> 0)%Z.
Proof.
  induction rest as [|c rest IH]; intros depth len n H; [discriminate|].
  cbn [braceScan] in H.
  set (d := if isCh "{" c then (depth + 1)%Z
            else if isCh "}" c then (depth - 1)%Z else depth) in H.
  assert (Hd : d = (depth + depthOf [c])%Z).
  { rewrite depthOf_cons, depthOf_nil. subst d.
    destruct (isCh "{" c); [lia|]. destruct (isCh "}" c); lia. }
  destruct (Z.eqb d 0) eqn:E.
  - apply Z.eqb_eq in E. inversion H; subst n. exists [c], rest.
    repeat split; try (simpl; lia); try discriminate.
    intros p q Hpq Hp Hq. destruct p as [|c' p]; [congruence|].
    destruct p; destruct q; simpl in Hpq; try congruence; discriminate.
  - apply Z.eqb_neq in E. apply IH in H.
    destruct H as (w & t & -> & -> & Hw & Hz & Hmin).
    exists (c :: w), t. repeat split.
    + simpl. lia.
    + discriminate.
    + change (c :: w) with ([c] ++ w). rewrite depthOf_app. lia.
    + intros p q Hpq Hp Hq. destruct p as [|c' p]; [congruence|].
      simpl in Hpq. inversion Hpq; subst c' w.
      change (c :: p) with ([c] ++ p). rewrite depthOf_app.
      destruct p as [|c2 p].
      * rewrite depthOf_nil. lia.
      * specialize (Hmin (c2 :: p) q eq_refl). 
        assert (d + depthOf (c2 :: p) <> 0)%Z by (apply Hmin; [discriminate | exact Hq]).
        lia.
Qed.

Lemma braceScan_none :
  forall rest depth len,
    (forall p q, rest = p ++ q -> p <> [] -> (depth + depthOf p <> 0)%Z) ->
    braceScan rest depth len = None.
Proof.
  induction rest as [|c rest IH]; intros depth len H; [reflexivity|].
  cbn [braceScan].
  set (d := if isCh "{" c then (depth + 1)%Z
            else if isCh "}" c then (depth - 1)%Z else depth).
  assert (Hd : d = (depth + depthOf [c])%Z).
  { rewrite depthOf_cons, depthOf_nil. subst d.
    destruct (isCh "{" c); [lia|]. destruct (isCh "}" c); lia. }
  destruct (Z.eqb d 0) eqn:E.
  - apply Z.eqb_eq in E. exfalso. apply (H [c] rest); [reflexivity | discriminate | lia].
  - apply IH. intros p q Hpq Hp.
    specialize (H (c :: p) q). change (c :: p) with ([c] ++ p) in H.
    rewrite depthOf_app in H. rewrite Hd.
    assert (depth + (depthOf [c] + depthOf p) <> 0)%Z
      by (apply H; [simpl; now rewrite Hpq | discriminate]).
    lia.
Qed.

(** The depth moves by at most one per code unit, so a depth that starts
    positive and is never zero stays positive. *)
Lemma depth_stays_positive (w : str) :
  forall p q, w = p ++ q -> p <> [] ->
    (0 < depthOf (firstn 1 w))%Z ->
    (forall p' q', p = p' ++ q' -> p' <> [] -> depthOf p' <> 0%Z) ->
    (0 < depthOf p)%Z.
Proof.
  intros p. induction p as [|c p IH] using rev_ind; intros q Hw Hp H1 Hnz; [congruence|].
  destruct p as [|c0 p].
  - subst w. simpl in H1. exact H1.
  - assert (Hpos : (0 < depthOf (c0 :: p))%Z).
    { apply (IH ([c] ++ q)).
      - now rewrite Hw, <- app_assoc.
      - discriminate.
      - exact H1.
      - intros p' q' Hp' Hne. apply (Hnz p' (q' ++ [c])); [|exact Hne].
        now rewrite Hp', <- app_assoc. }
    assert (Hlast : depthOf ((c0 :: p) ++ [c]) <> 0%Z)
      by (apply (Hnz _ []); [now rewrite app_nil_r | discriminate]).
    rewrite depthOf_app in Hlast |- *. pose proof (depthOf_step c). lia.
Qed.

(** C10, the failing instance: the empty string is a proper prefix of the
    result and has no more opening than closing braces. *)
Lemma extractJsonObject_empty_prefix :
  extractJsonObject (u "{}") 0 = Some (u "{}")
  /\ u "{}" = [] ++ u "{}" /\ u "{}" <> []
  /\ ~ (closes [] < opens [])%Z.
Proof.
  split; [reflexivity|]. split; [reflexivity|]. split; [discriminate|].
  vm_compute. discriminate.
Qed.

(** C10 (amended): a non-null result is the substring of [s] that starts at
    index [i]; it begins with an opening and ends with a closing brace, has as
    many opening as closing braces, and every non-empty proper prefix of it
    has strictly more opening than closing braces.  The result is null when
    [s[i]] is not an opening brace, and when no non-empty prefix of the input
    from [i] on has as many closing as opening braces. *)
Theorem extractJsonObject_balanced (s : str) (i : Z) :
  (forall r, extractJsonObject s i = Some r ->
     (0 <= i)%Z
     /\ (exists rest, skipn (Z.to_nat i) s = r ++ rest)
     /\ (exists body, r = chr "{" :: body)
     /\ (exists body, r = body ++ [chr "}"])
     /\ opens r = closes r
     /\ (forall p q, r = p ++ q -> p <> [] -> q <> [] -> (closes p < opens p)%Z))
  /\ ((i < 0)%Z \/ nth_error s (Z.to_nat i) <> Some (chr "{") ->
      extractJsonObject s i = None)
  /\ ((forall p q, skipn (Z.to_nat i) s = p ++ q -> p <> [] -> opens p <> closes p) ->
      extractJsonObject s i = None).
Proof.
  unfold extractJsonObject. split; [|split].
  - intros r H. destruct (Z.ltb i 0) eqn:Ei; [discriminate|]. apply Z.ltb_ge in Ei.
    destruct (skipn (Z.to_nat i) s) as [|c from] eqn:Ef; [discriminate|].
    destruct (isCh "{" c) eqn:Ec; [|discriminate].
    destruct (braceScan (c :: from) 0 0) as [len|] eqn:Eb; [|discriminate].
    inversion H; subst r. clear H.
    apply braceScan_some in Eb. destruct Eb as (w & t & Hw & -> & Hne & Hz & Hmin).
    rewrite Hw. cbn [Nat.add]. rewrite firstn_app, Nat.sub_diag, firstn_all.
    cbn [firstn]. rewrite app_nil_r.
    assert (Hc : c = chr "{") by (apply N.eqb_eq in Ec; exact Ec).
    destruct w as [|c' w']; [congruence|]. inversion Hw; subst c'.
    assert (Hfirst : (0 < depthOf (firstn 1 (c :: w')))%Z).
    { cbn [firstn]. rewrite depthOf_cons, Ec, depthOf_nil. lia. }
    assert (Hpre : forall p q, c :: w' = p ++ q -> p <> [] -> q <> [] ->
                     (0 < depthOf p)%Z).
    { intros p q Hpq Hp Hq. apply (depth_stays_positive (c :: w') p q Hpq Hp Hfirst).
      intros p' q' Hp' Hne'. specialize (Hmin p' (q' ++ q)).
      rewrite Hpq, Hp', <- app_assoc in Hmin.
      assert (0 + depthOf p' <> 0)%Z; [|lia].
      apply Hmin; [reflexivity | exact Hne' |].
      destruct q'; [exact Hq | discriminate]. }
    split; [exact Ei|]. split; [now exists t|]. split; [exists w'; now rewrite Hc|].
    split; [|split].
    + destruct (@exists_last _ (c :: w') Hne) as (body & z & Hbody).
      exists body. rewrite Hbody. f_equal. f_equal.
      assert (Hb : (0 < depthOf body)%Z).
      { destruct body as [|b0 body'].
        - exfalso. simpl in Hbody. inversion Hbody; subst.
          rewrite depthOf_cons, Ec, depthOf_nil in Hz. lia.
        - apply (Hpre _ [z] Hbody); discriminate. }
      rewrite Hbody, depthOf_app, depthOf_cons, depthOf_nil in Hz.
      destruct (isCh "{" z); [lia|].
      destruct (isCh "}" z) eqn:Ez; [|lia].
      apply N.eqb_eq in Ez. exact Ez.
    + unfold depthOf in Hz. lia.
    + intros p q Hpq Hp Hq. specialize (Hpre p q Hpq Hp Hq). unfold depthOf in Hpre. lia.
  - intros [Hi|Hn].
    + apply Z.ltb_lt in Hi. now rewrite Hi.
    + destruct (Z.ltb i 0); [reflexivity|].
      destruct (skipn (Z.to_nat i) s) as [|c from] eqn:Ef; [reflexivity|].
      destruct (isCh "{" c) eqn:Ec; [|reflexivity].
      exfalso. apply Hn. apply N.eqb_eq in Ec. subst c.
      rewrite <- (firstn_skipn (Z.to_nat i) s) at 1. rewrite Ef.
      rewrite nth_error_app2 by apply firstn_le_length.
      assert (Hlen : Z.to_nat i <= length s).
      { destruct (Nat.le_gt_cases (Z.to_nat i) (length s)) as [L|G]; [exact L|].
        rewrite skipn_all2 in Ef by lia. discriminate. }
      rewrite firstn_length_le by exact Hlen. now rewrite Nat.sub_diag.
  - intros Hnever. destruct (Z.ltb i 0); [reflexivity|].
    destruct (skipn (Z.to_nat i) s) as [|c from] eqn:Ef; [reflexivity|].
    destruct (isCh "{" c); [|reflexivity].
    rewrite braceScan_none; [reflexivity|].
    intros p q Hpq Hp. specialize (Hnever p q Hpq Hp). unfold depthOf. lia.
Qed.

Lemma extractJsonObject_balanced_witness :
  (exists body, u "{a{b}c}" = body ++ [chr "}"])
  /\ extractJsonObject (u "hello") 0 = None
  /\ extractJsonObject (u "{{}") 0 = None.
Proof.
  split; [|split].
  - destruct (extractJsonObject_balanced (u "x = {a{b}c};") 4) as (H & _ & _).
    apply (H (u "{a{b}c}") eq_refl).
  - destruct (extractJsonObject_balanced (u "hello") 0) as (_ & H & _).
    apply H. right. vm_compute. discriminate.
  - destruct (extractJsonObject_balanced (u "{{}") 0) as (_ & _ & H).
    apply H. intros p q Hpq Hp.
    change (skipn (Z.to_nat 0) (u "{{}")) with (u "{{}") in Hpq.
    destruct p as [|a [|b [|c [|d p]]]]; try congruence;
      inversion Hpq; subst; try (vm_compute; discriminate).
Defined.

(** ** pickTrackUrl *)

Lemma isEnglish_iff (t : CaptionTrack) :
  isEnglish t = true <-> exists rest, languageCode t = u "en" ++ rest.
Proof.
  unfold isEnglish. rewrite orb_true_iff, str_eqb_eq, startsWith_iff. split.
  - intros [H|H]; [exists []; now rewrite H | exact H].
  - intros H. now right.
Qed.

Lemma find_first {A : Type} (f : A -> bool) (l : list A) (x : A) :
  find f l = Some x ->
  exists before after, l = before ++ x :: after /\ f x = true
    /\ forallb (fun y => negb (f y)) before = true.
Proof.
  induction l as [|a l IH]; simpl; [discriminate|].
  destruct (f a) eqn:E.
  - intros H. inversion H; subst. now exists [], l.
  - intros H. destruct (IH H) as (before & after & -> & Hx & Hb).
    exists (a :: before), after. simpl. now rewrite E.
Qed.

Lemma find_none_forallb {A : Type} (f : A -> bool) (l : list A) :
  find f l = None -> forallb (fun y => negb (f y)) l = true.
Proof.
  induction l as [|a l IH]; simpl; [reflexivity|].
  destruct (f a); [discriminate | exact IH].
Qed.

(** C6: on a non-empty list pickTrackUrl returns the location of the first
    track, in source order, whose language code is [en] or starts with [en];
    when no track is such, the location of the first track.  The result is a
    function of the list alone.  With the codes fr, en-US, de the en-US track
    is chosen, with fr, de the fr track. *)
Theorem pickTrackUrl_prefers_english (tracks : list CaptionTrack) :
  tracks <> [] ->
  ((exists before en after,
      tracks = before ++ en :: after
      /\ (exists rest, languageCode en = u "en" ++ rest)
      /\ (forall t, In t before -> isEnglish t = false)
      /\ pickTrackUrl tracks = Ok (baseUrl en))
   \/ (exists first others,
         tracks = first :: others
         /\ (forall t, In t tracks -> isEnglish t = false)
         /\ pickTrackUrl tracks = Ok (baseUrl first)))
  /\ pickTrackUrl [track "fr"; track "en-US"; track "de"] = Ok (baseUrl (track "en-US"))
  /\ pickTrackUrl [track "fr"; track "de"] = Ok (baseUrl (track "fr")).
Proof.
  intros Hne. split; [|split; reflexivity].
  unfold pickTrackUrl. destruct (find isEnglish tracks) as [en|] eqn:E.
  - left. apply find_first in E. destruct E as (before & after & -> & Hen & Hb).
    exists before, en, after. split; [reflexivity|]. split; [now apply isEnglish_iff|].
    split; [|reflexivity].
    intros t Ht. rewrite forallb_forall in Hb. apply Hb in Ht.
    now destruct (isEnglish t).
  - right. destruct tracks as [|first others]; [congruence|].
    exists first, others. split; [reflexivity|]. split; [|reflexivity].
    apply find_none_forallb in E. rewrite forallb_forall in E.
    intros t Ht. apply E in Ht. now destruct (isEnglish t).
Qed.

Lemma pickTrackUrl_prefers_english_witness :
  [track "fr"; track "en-US"; track "de"] <> []
  /\ pickTrackUrl [track "fr"; track "en-US"; track "de"] = Ok (baseUrl (track "en-US")).
Proof.
  split; [discriminate|].
  apply (pickTrackUrl_prefers_english [track "fr"; track "en-US"; track "de"]).
  discriminate.
Defined.

(** ** getVideoTranscript *)

(** C1: the strategies are tried in the order A, B, C; the first one that
    returns segments ends the run, with no later strategy called; no strategy
    is called twice; when all three throw, the run throws one error whose
    message lists the three reasons, one per strategy, in strategy order. *)
Theorem getVideoTranscript_fallback (w : World) (videoId : str)
    (options : TranscriptOptions) :
  let a := fetchTranscriptFromAndroid w videoId in
  let b := fetchTranscriptFromPage w videoId in
  let c := fetchTranscriptFromYtDlp w videoId in
  (forall segs, a = Ok segs ->
     run w videoId options = (success w videoId options segs, [Title; StrategyA]))
  /\ (forall ea segs, a = Throw ea -> b = Ok segs ->
        run w videoId options =
        (success w videoId options segs, [Title; StrategyA; StrategyB]))
  /\ (forall ea eb segs, a = Throw ea -> b = Throw eb -> c = Ok segs ->
        run w videoId options =
        (success w videoId options segs, [Title; StrategyA; StrategyB; StrategyC]))
  /\ (forall ea eb ec, a = Throw ea -> b = Throw eb -> c = Throw ec ->
        run w videoId options =
        (Throw (u "No transcript available. All methods failed:" ++ [LF]
                ++ u "- ANDROID API: " ++ ea ++ [LF]
                ++ u "- Page scraping: " ++ eb ++ [LF]
                ++ u "- yt-dlp: " ++ ec),
         [Title; StrategyA; StrategyB; StrategyC]))
  /\ NoDup (snd (run w videoId options))
  /\ (exists later, [Title; StrategyA; StrategyB; StrategyC]
                    = snd (run w videoId options) ++ later).
Proof.
  intros a b c.
  unfold run, getVideoTranscript, attempt, mbind, try_catch, invoke, ret, throw, success.
  fold a b c. cbn [app].
  repeat split.
  - intros segs Ha. now rewrite Ha.
  - intros ea segs Ha Hb. now rewrite Ha, Hb.
  - intros ea eb segs Ha Hb Hc. now rewrite Ha, Hb, Hc.
  - intros ea eb ec Ha Hb Hc. rewrite Ha, Hb, Hc. cbn [app].
    reflexivity.
  - destruct a; [| destruct b; [| destruct c |] |]; cbn;
      repeat constructor; simpl; intuition discriminate.
  - destruct a; [| destruct b; [| destruct c |] |]; cbn;
      eexists; reflexivity.
Qed.

Lemma getVideoTranscript_fallback_witness :
  run (failingWorld "no captions" "captcha" "not installed") (u "dQw4w9WgXcQ")
      {| timestamps := None |} =
  (Throw (u "No transcript available. All methods failed:" ++ [LF]
          ++ u "- ANDROID API: no captions" ++ [LF]
          ++ u "- Page scraping: captcha" ++ [LF]
          ++ u "- yt-dlp: not installed"),
   [Title; StrategyA; StrategyB; StrategyC]).
Proof.
  destruct (getVideoTranscript_fallback
              (failingWorld "no captions" "captcha" "not installed")
              (u "dQw4w9WgXcQ") {| timestamps := None |}) as (_ & _ & _ & H & _).
  exact (H (u "no captions") (u "captcha") (u "not installed") eq_refl eq_refl eq_refl).
Defined.

(** ** Progress of a match, and the [exec] loop *)

Lemma rmatch_progress n r :
  progresses r = true ->
  forall k s cs x, rmatch n r k s cs = Some x ->
    exists s' cs', suffix s' s /\ length s' < length s /\ k s' cs' = Some x.
Proof.
  intros Hp k s cs x H.
  rewrite (rmatch_ext_strict n r Hp k
             (fun s' cs' => if Nat.ltb (length s') (length s) then k s' cs' else None)) in H.
  - apply rmatch_inv in H. destruct H as (s' & cs' & Hs & H).
    destruct (Nat.ltb (length s') (length s)) eqn:E; [|discriminate].
    apply Nat.ltb_lt in E. eauto.
  - intros s' cs' _ Hlt. apply Nat.ltb_lt in Hlt. now rewrite Hlt.
Qed.

Lemma match_here_suffix n r t s' m :
  match_here n r t = Some (s', m) -> suffix s' t.
Proof.
  unfold match_here. intros H. apply rmatch_inv in H.
  destruct H as (s1 & cs1 & Hs & H). now inversion H; subst.
Qed.

Lemma match_here_progress n r t s' m :
  progresses r = true -> match_here n r t = Some (s', m) -> length s' < length t.
Proof.
  unfold match_here. intros Hp H. apply (rmatch_progress n r Hp) in H.
  destruct H as (s1 & cs1 & _ & Hlt & H). now inversion H; subst.
Qed.

Lemma search_found n r s pre s' m :
  search n r s = Some (pre, s', m) ->
  exists t, s = pre ++ t /\ match_here n r t = Some (s', m) /\ suffix s' s.
Proof.
  intros H. apply search_suffix in H. destruct H as (t & -> & H).
  exists t. split; [reflexivity|]. split; [exact H|].
  apply match_here_suffix in H. destruct H as [w ->]. exists (pre ++ w).
  now rewrite app_assoc.
Qed.

(** When every match consumes something and the body returns, the loop
    returns within [length s + 1] rounds, and more fuel changes nothing. *)
Lemma exec_loop_ok {A : Type} n r (body : caps -> result (option A)) :
  progresses r = true ->
  forall fuel s,
    length s < fuel ->
    (forall t s' m, suffix t s -> match_here n r t = Some (s', m) ->
       exists o, body m = Ok o) ->
    exists xs, exec_loop fuel n r body s = Ok xs.
Proof.
  intros Hp. induction fuel as [|fuel IH]; intros s Hlen Hbody; [lia|].
  cbn [exec_loop]. destruct (search n r s) as [[[pre s'] m]|] eqn:E; [|now exists []].
  apply search_found in E. destruct E as (t & -> & Hm & Hs').
  destruct (Hbody t s' m) as [o Ho]; [now exists pre | exact Hm |].
  rewrite Ho. cbn [bind].
  destruct (IH s') as [xs Hxs].
  - apply match_here_progress in Hm; [|exact Hp]. rewrite length_app in Hlen. lia.
  - intros t2 s2 m2 Ht2. apply Hbody. eauto using suffix_trans.
  - rewrite Hxs. cbn [bind]. eauto.
Qed.

Lemma exec_loop_fuel {A : Type} n r (body1 body2 : caps -> result (option A)) :
  progresses r = true ->
  forall fuel1 fuel2 s,
    length s < fuel1 -> length s < fuel2 ->
    (forall t s' m, suffix t s -> match_here n r t = Some (s', m) ->
       body1 m = body2 m) ->
    exec_loop fuel1 n r body1 s = exec_loop fuel2 n r body2 s.
Proof.
  intros Hp. induction fuel1 as [|fuel1 IH]; intros fuel2 s H1 H2 Hbody; [lia|].
  destruct fuel2 as [|fuel2]; [lia|]. cbn [exec_loop].
  destruct (search n r s) as [[[pre s'] m]|] eqn:E; [|reflexivity].
  apply search_found in E. destruct E as (t & -> & Hm & Hs').
  rewrite (Hbody t s' m) by (eauto; now exists pre).
  destruct (body2 m); [|reflexivity|reflexivity]. cbn [bind].
  assert (Hlt : length s' < length t) by (now apply (match_here_progress n r t s' m)).
  rewrite length_app in H1, H2.
  rewrite (IH fuel2 s'); [reflexivity | lia | lia |].
  intros t2 s2 m2 Ht2. apply Hbody. eauto using suffix_trans.
Qed.

Lemma exec_loop_none {A : Type} fuel n r (body : caps -> result (option A)) s :
  search n r s = None -> exec_loop (S fuel) n r body s = Ok [].
Proof. intros H. cbn [exec_loop]. now rewrite H. Qed.

(** The global [replace] ends within [length s + 1] rounds: more fuel
    changes nothing. *)
Lemma replace_loop_fuel n r f :
  forall fuel1 fuel2 s,
    length s < fuel1 -> length s < fuel2 ->
    replace_loop fuel1 n r f s = replace_loop fuel2 n r f s.
Proof.
  induction fuel1 as [|fuel1 IH]; intros fuel2 s H1 H2; [lia|].
  destruct fuel2 as [|fuel2]; [lia|]. cbn [replace_loop].
  destruct (search n r s) as [[[pre s'] m]|] eqn:E; [|reflexivity].
  apply search_found in E. destruct E as (t & -> & Hm & Hs').
  apply match_here_suffix in Hm. apply suffix_length in Hm.
  rewrite skipn_app, Nat.sub_diag, skipn_all. cbn [skipn app].
  rewrite length_app in H1, H2. do 2 f_equal.
  destruct (Nat.ltb (length s') (length t)) eqn:El.
  - apply Nat.ltb_lt in El. apply IH; lia.
  - destruct s' as [|c s']; [reflexivity|]. f_equal. cbn [length] in Hm. apply IH; lia.
Qed.

(** ** The two timed-text patterns *)

Ltac peel_lit H s1 :=
  rewrite ?rmatch_seq in H; apply rmatch_lit_inv in H; destruct H as (s1 & -> & H).

Ltac peel H s1 cs1 w1 :=
  rewrite ?rmatch_seq in H; apply rmatch_inv in H;
  destruct H as (s1 & cs1 & [w1 ->] & H).

Lemma attribute_inv n name i k s cs x :
  rmatch n (attribute name i) k s cs = Some x ->
  exists v s' cs', s = u name ++ [chr "="; DQ] ++ v ++ DQ :: s'
    /\ k s' ((i, v) :: cs') = Some x.
Proof.
  unfold attribute. cbn [seqs]. intros H.
  peel_lit H s1. peel_lit H s2.
  rewrite ?rmatch_seq in H. rewrite rmatch_grp in H. peel H s3 cs3 v.
  peel_lit H s4.
  cbn [rmatch] in H. rewrite firstn_app_len in H.
  exists v, s4, cs3. split; [reflexivity | exact H].
Qed.

Lemma timed_inv n tag a b content s s' m :
  match_here n (timed tag a b content) s = Some (s', m) ->
  exists inner m0,
    m = (3, inner) :: m0
    /\ length inner <= length s
    /\ includes (closing tag) s = true
    /\ includes (u a ++ [chr "="; DQ]) s = true.
Proof.
  unfold match_here, timed. cbn [seqs]. intros H.
  peel_lit H s1. peel_lit H s2. peel H s3 cs3 w3.
  rewrite ?rmatch_seq in H.
  apply attribute_inv in H. destruct H as (v & s4 & cs4 & -> & H).
  peel H s5 cs5 w5. peel H s6 cs6 w6. peel_lit H s7.
  rewrite ?rmatch_seq in H. rewrite rmatch_grp in H. peel H s8 cs8 w8.
  peel_lit H s9. peel_lit H s10. peel_lit H s11.
  cbn [rmatch] in H. unfold final in H. inversion H; subst s' m. clear H.
  rewrite firstn_app_len.
  exists w8, cs8. split; [reflexivity|]. split; [|split].
  - repeat (rewrite !length_app; cbn [length]). lia.
  - apply includes_iff.
    exists (u "<" ++ u tag ++ w3 ++ u a ++ [chr "="; DQ] ++ v ++ DQ :: w5 ++ w6 ++ u ">" ++ w8), s11.
    unfold closing. rewrite <- !app_assoc. cbn [app]. rewrite <- !app_assoc. reflexivity.
  - apply includes_iff.
    exists (u "<" ++ u tag ++ w3), (v ++ DQ :: w5 ++ w6 ++ u ">" ++ w8 ++ u "</" ++ u tag ++ u ">" ++ s11).
    rewrite <- !app_assoc. reflexivity.
Qed.

Lemma progresses_timed tag a b content : progresses (timed tag a b content) = true.
Proof. reflexivity. Qed.

Lemma progresses_sRe : progresses sRe = true.
Proof. reflexivity. Qed.

Lemma suffix_length_le (t s : str) : suffix t s -> length t <= length s.
Proof. apply suffix_length. Qed.

Lemma words_ok fuel inner :
  length inner < fuel ->
  exists words, exec_loop fuel (length inner) sRe word inner = Ok words.
Proof.
  intros H. apply exec_loop_ok; [exact progresses_sRe | exact H |].
  intros t s' m _ _. unfold word. eauto.
Qed.

Lemma srv1Segment_ok n t s' m :
  match_here n srv1Re t = Some (s', m) -> exists o, srv1Segment m = Ok o.
Proof.
  intros H. apply timed_inv in H. destruct H as (inner & m0 & -> & _).
  unfold srv1Segment. cbn [capture Nat.eqb]. eauto.
Qed.

Lemma srv3Segment_ok fuel n t s' m :
  length t < fuel ->
  match_here n pRe t = Some (s', m) -> exists o, srv3Segment fuel m = Ok o.
Proof.
  intros Hlen H. apply timed_inv in H. destruct H as (inner & m0 & -> & Hin & _).
  unfold srv3Segment. cbn [capture Nat.eqb].
  destruct (words_ok fuel inner) as [words Hw]; [lia|].
  rewrite Hw. cbn [bind]. eauto.
Qed.

Lemma srv3Segment_fuel fuel1 fuel2 n t s' m :
  length t < fuel1 -> length t < fuel2 ->
  match_here n pRe t = Some (s', m) -> srv3Segment fuel1 m = srv3Segment fuel2 m.
Proof.
  intros H1 H2 H. apply timed_inv in H. destruct H as (inner & m0 & -> & Hin & _).
  unfold srv3Segment. cbn [capture Nat.eqb].
  rewrite (exec_loop_fuel (length inner) sRe word word progresses_sRe fuel1 fuel2 inner);
    [reflexivity | lia | lia | reflexivity].
Qed.

Lemma parseTranscriptXml_fuel_enough fuel xml :
  length xml < fuel -> parseTranscriptXml_fuel fuel xml = parseTranscriptXml xml.
Proof.
  intros Hlen. unfold parseTranscriptXml, parseTranscriptXml_fuel.
  rewrite (exec_loop_fuel (length xml) srv1Re srv1Segment srv1Segment
             (progresses_timed _ _ _ _) fuel (S (length xml)) xml);
    [| lia | lia | reflexivity].
  destruct (exec_loop (S (length xml)) (length xml) srv1Re srv1Segment xml) as [segs| |];
    [|reflexivity|reflexivity].
  cbn [bind]. destruct segs; [|reflexivity].
  apply exec_loop_fuel; [apply progresses_timed | lia | lia |].
  intros t s' m Ht Hm. apply suffix_length in Ht.
  apply (srv3Segment_fuel fuel (S (length xml)) (length xml) t s' m); [lia | lia | exact Hm].
Qed.

Lemma parseTranscriptXml_returns xml : exists segs, parseTranscriptXml xml = Ok segs.
Proof.
  unfold parseTranscriptXml, parseTranscriptXml_fuel.
  destruct (exec_loop_ok (length xml) srv1Re srv1Segment (progresses_timed _ _ _ _)
              (S (length xml)) xml) as [segs Hs]; [lia | |].
  - intros t s' m _ Hm. now apply srv1Segment_ok in Hm.
  - rewrite Hs. cbn [bind]. destruct segs; [|eauto].
    apply exec_loop_ok; [apply progresses_timed | lia |].
    intros t s' m Ht Hm. apply suffix_length in Ht.
    apply (srv3Segment_ok (S (length xml)) (length xml) t s' m); [lia | exact Hm].
Qed.

Lemma includes_suffix w t s : suffix t s -> includes w t = true -> includes w s = true.
Proof.
  intros [v ->] H. apply includes_iff in H. destruct H as (a & b & ->).
  apply includes_iff. exists (v ++ a), b. now rewrite <- app_assoc.
Qed.

(** No match of a timed-text pattern without its closing tag and its first
    attribute somewhere in the input. *)
Lemma search_timed_none n tag a b content s :
  includes (closing tag) s = false \/ includes (u a ++ [chr "="; DQ]) s = false ->
  search n (timed tag a b content) s = None.
Proof.
  intros H. apply search_none. intros t Ht.
  destruct (match_here n (timed tag a b content) t) as [[s' m]|] eqn:E; [|reflexivity].
  apply timed_inv in E. destruct E as (inner & m0 & _ & _ & Hc & Ha).
  apply (includes_suffix _ _ _ Ht) in Hc. apply (includes_suffix _ _ _ Ht) in Ha.
  destruct H as [H|H]; congruence.
Qed.

(** C9: parseTranscriptXml returns a sequence of segments on every input: its
    loops end within [length xml + 1] rounds (more fuel changes nothing) and
    nothing in it throws.  The sequence is empty when the input holds neither
    closing tag, in particular on the empty string, on text without markup
    and on an unclosed tag. *)
Theorem parseTranscriptXml_total (xml : str) :
  (exists segs, parseTranscriptXml xml = Ok segs)
  /\ (forall fuel, length xml < fuel ->
        parseTranscriptXml_fuel fuel xml = parseTranscriptXml xml)
  /\ (includes (closing "text") xml = false -> includes (closing "p") xml = false ->
      parseTranscriptXml xml = Ok [])
  /\ parseTranscriptXml [] = Ok []
  /\ parseTranscriptXml (u "just some text") = Ok []
  /\ parseTranscriptXml (u "<text>unclosed") = Ok []
  /\ parseTranscriptXml (uq "<text start=`0` dur=`1`>never closed <p t=`0`>") = Ok []
  /\ parseTranscriptXml (u "<root><item>data</item></root>") = Ok [].
Proof.
  split; [apply parseTranscriptXml_returns|].
  split; [intros fuel; apply parseTranscriptXml_fuel_enough|].
  split; [|repeat split; vm_compute; reflexivity].
  intros Ht Hp. unfold parseTranscriptXml, parseTranscriptXml_fuel.
  rewrite exec_loop_none by (apply search_timed_none; now left).
  cbn [bind]. apply exec_loop_none. apply search_timed_none. now left.
Qed.

Lemma parseTranscriptXml_total_witness :
  parseTranscriptXml_fuel 100 (u "a < b, no tags") = parseTranscriptXml (u "a < b, no tags")
  /\ parseTranscriptXml (u "a < b, no tags") = Ok [].
Proof.
  destruct (parseTranscriptXml_total (u "a < b, no tags")) as (_ & Hfuel & Hnone & _).
  split; [apply Hfuel; simpl; lia | apply Hnone; reflexivity].
Defined.

(** ** The timed-text patterns on a well-formed element *)




















(** ** The nested-paragraph pattern *)


Lemma rmatch_lit_none n w k s cs :
  startsWith w s = false -> rmatch n (lit w) k s cs = None.
Proof.
  intros H. destruct (rmatch n (lit w) k s cs) as [x|] eqn:E; [|reflexivity].
  apply rmatch_lit_inv in E. destruct E as (s' & -> & _).
  assert (startsWith w (w ++ s') = true) by (apply startsWith_iff; eauto).
  congruence.
Qed.







(** ** Word elements and plain bodies *)














(** ** The plain-subtitle path *)

Lemma match_here_lit n w s :
  match_here n (lit w) s =
  if startsWith w s then Some (skipn (length w) s, []) else None.
Proof.
  unfold match_here. destruct (startsWith w s) eqn:E.
  - apply startsWith_iff in E. destruct E as [b ->].
    rewrite rmatch_lit_app. rewrite skipn_app, Nat.sub_diag, skipn_all. reflexivity.
  - now apply rmatch_lit_none.
Qed.

Lemma regex_test_lit w s : regex_test (lit w) s = includes w s.
Proof.
  unfold regex_test, str_match. generalize (length s) as n. intros n.
  induction s as [|c s IH]; cbn [search includes]; rewrite match_here_lit.
  - now destruct (startsWith w []).
  - destruct (startsWith w (c :: s)); [reflexivity|]. cbn [orb].
    rewrite <- IH. now destruct (search n (lit w) s) as [[[pre s'] cs]|].
Qed.

Lemma rmatch_bol n k s cs :
  rmatch n Bol k s cs = if Nat.eqb (length s) n then k s cs else None.
Proof. reflexivity. Qed.

Lemma rmatch_eol n k s cs :
  rmatch n Eol k s cs = match s with [] => k s cs | _ :: _ => None end.
Proof. reflexivity. Qed.

Lemma rmatch_eps n k s cs : rmatch n Eps k s cs = k s cs.
Proof. reflexivity. Qed.

Lemma regex_test_digits s :
  regex_test (seqs [Bol; Plus (Cls isDigit); Eol]) s = true
  <-> s <> [] /\ forallb isDigit s = true.
Proof.
  unfold regex_test, str_match. split.
  - destruct (search _ _ s) as [[[pre s'] cs]|] eqn:E; [intros _|discriminate].
    apply search_suffix in E. destruct E as (t & -> & E).
    unfold match_here in E. cbn [seqs] in E. rewrite rmatch_seq, rmatch_bol in E.
    destruct (Nat.eqb (length t) (length (pre ++ t))) eqn:En; [|discriminate].
    apply Nat.eqb_eq in En. rewrite length_app in En.
    assert (pre = []) by (destruct pre; [reflexivity | simpl in En; lia]). subst pre.
    rewrite rmatch_seq, rmatch_plus_cls in E. destruct t as [|c t]; [discriminate|].
    destruct (isDigit c) eqn:Ec; [|discriminate].
    apply greedy_run_inv in E. destruct E as (w & r & -> & Hw & E).
    rewrite rmatch_seq, rmatch_eol in E. destruct r; [|discriminate].
    cbn [app]. split; [discriminate|]. cbn [forallb]. rewrite Ec, app_nil_r. exact Hw.
  - intros [Hne Hd]. destruct s as [|c s]; [congruence|].
    cbn [forallb] in Hd. apply andb_true_iff in Hd. destruct Hd as [Hc Hs].
    enough (H : match_here (length (c :: s)) (seqs [Bol; Plus (Cls isDigit); Eol]) (c :: s)
                = Some ([], []))
      by (apply search_here in H; now rewrite H).
    unfold match_here. cbn [seqs]. rewrite rmatch_seq, rmatch_bol.
    rewrite Nat.eqb_refl. rewrite rmatch_seq, rmatch_plus_cls, Hc.
    rewrite <- (app_nil_r s). apply greedy_run_max; [exact Hs | exact I | reflexivity].
Qed.

Lemma vttSkipped_iff t :
  vttSkipped t = true <->
  t = [] \/ t = u "WEBVTT"
  \/ startsWith (u "Kind:") t = true
  \/ startsWith (u "Language:") t = true
  \/ startsWith (u "NOTE") t = true
  \/ (t <> [] /\ forallb isDigit t = true)
  \/ includes (u "-->") t = true.
Proof.
  unfold vttSkipped. rewrite !orb_true_iff, str_eqb_eq, regex_test_lit.
  rewrite regex_test_digits.
  assert (Ht : negb (truthy t) = true <-> t = []) by (destruct t; simpl; split; congruence).
  rewrite Ht. tauto.
Qed.

(** The loop keeps the first occurrence of every text. *)
Lemma vtt_fold lines :
  forall acc,
    fold_left vttLine lines (map plainSegment acc)
    = map plainSegment
        (fold_left (fun seen t => if existsb (str_eqb t) seen then seen else seen ++ [t])
           (filter truthy (map vttCleaned (filter vttKept lines))) acc).
Proof.
  induction lines as [|line lines IH]; intros acc; [reflexivity|].
  cbn [fold_left filter map]. unfold vttLine at 2, vttKept at 1.
  destruct (vttSkipped (trim line)); cbn [negb]; [apply IH|].
  cbn [map filter]. fold (vttCleaned line).
  destruct (truthy (vttCleaned line)) eqn:Et; cbn [andb]; [|apply IH].
  cbn [fold_left].
  assert (He : existsb (fun s => str_eqb (text s) (vttCleaned line)) (map plainSegment acc)
               = existsb (str_eqb (vttCleaned line)) acc).
  { induction acc as [|a acc IHa]; [reflexivity|].
    cbn [map existsb text plainSegment]. rewrite IHa. f_equal.
    unfold str_eqb. destruct (list_eq_dec N.eq_dec a (vttCleaned line));
      destruct (list_eq_dec N.eq_dec (vttCleaned line) a); congruence. }
  rewrite He. destruct (existsb (str_eqb (vttCleaned line)) acc); cbn [negb]; [apply IH|].
  rewrite <- IH. f_equal. now rewrite map_app.
Qed.

Lemma existsb_str_eqb t seen : existsb (str_eqb t) seen = true <-> In t seen.
Proof.
  rewrite existsb_exists. split.
  - intros (x & Hx & E). apply str_eqb_eq in E. now subst.
  - intros H. exists t. split; [exact H | apply str_eqb_refl].
Qed.

Lemma first_occurrences (l : list str) :
  fold_left (fun seen t => if existsb (str_eqb t) seen then seen else seen ++ [t]) l []
  = rev (nodup (list_eq_dec N.eq_dec) (rev l)).
Proof.
  induction l as [|x l IH] using rev_ind; [reflexivity|].
  rewrite fold_left_app, rev_app_distr. cbn [fold_left rev app nodup]. rewrite IH.
  destruct (in_dec (list_eq_dec N.eq_dec) x (rev l)) as [Hin|Hout].
  - assert (E : existsb (str_eqb x) (rev (nodup (list_eq_dec N.eq_dec) (rev l))) = true).
    { apply existsb_str_eqb. apply -> in_rev. now apply nodup_In. }
    now rewrite E.
  - assert (E : existsb (str_eqb x) (rev (nodup (list_eq_dec N.eq_dec) (rev l))) = false).
    { destruct (existsb _ _) eqn:E; [|reflexivity]. exfalso. apply Hout.
      apply existsb_str_eqb in E. apply in_rev in E. now apply nodup_In in E. }
    rewrite E. reflexivity.
Qed.

Lemma vttSegments_texts payload :
  vttSegments payload
  = map plainSegment (rev (nodup (list_eq_dec N.eq_dec) (rev (vttCandidates payload)))).
Proof.
  unfold vttSegments, vttCandidates. rewrite <- first_occurrences.
  apply (vtt_fold (split_lines payload) []).
Qed.

(** C2, the failing instance: two lines that differ as written and agree
    once decoded are both emitted, undecoded. *)
Lemma vttSegments_not_decoded :
  map text (vttSegments (u "WEBVTT" ++ [LF] ++ u "a &amp; b" ++ [LF] ++ u "a & b"))
  = [u "a &amp; b"; u "a & b"]
  /\ map text (vttSegments_decoding
                 (u "WEBVTT" ++ [LF] ++ u "a &amp; b" ++ [LF] ++ u "a & b"))
     = [u "a & b"].
Proof. split; vm_compute; reflexivity. Qed.

(** C2 (amended): the plain-subtitle path splits the payload into lines,
    drops the lines that, once trimmed, are empty, are the format header,
    start with [Kind:], [Language:] or [NOTE], are all digits, or hold an
    arrow; it strips the markup of the other lines and trims them, without
    decoding entities; it emits the non-empty results in order, each text
    once (the first time it occurs anywhere), with start 0 and duration 0.
    The path is what fetchTranscriptFromYtDlp returns when the payload is not
    blank, gives no XML segment and holds the format header. *)
Theorem vttSegments_first_occurrences (payload : str) :
  map text (vttSegments payload)
    = rev (nodup (list_eq_dec N.eq_dec) (rev (vttCandidates payload)))
  /\ NoDup (map text (vttSegments payload))
  /\ (forall t, In t (map text (vttSegments payload)) <->
        t <> [] /\ exists line, In line (split_lines payload)
                     /\ vttSkipped (trim line) = false
                     /\ t = trim (stripTags (trim line)))
  /\ (forall s, In s (vttSegments payload) -> start s = zero /\ duration s = zero)
  /\ (forall t, vttSkipped t = true <->
        t = [] \/ t = u "WEBVTT"
        \/ startsWith (u "Kind:") t = true
        \/ startsWith (u "Language:") t = true
        \/ startsWith (u "NOTE") t = true
        \/ (t <> [] /\ forallb isDigit t = true)
        \/ includes (u "-->") t = true)
  /\ (trim payload <> [] -> parseTranscriptXml payload = Ok [] ->
      includes (u "WEBVTT") payload = true -> vttSegments payload <> [] ->
      subtitleSegments payload = Ok (vttSegments payload)).
Proof.
  assert (Htexts : map text (vttSegments payload)
                   = rev (nodup (list_eq_dec N.eq_dec) (rev (vttCandidates payload)))).
  { rewrite vttSegments_texts, map_map. cbn [text plainSegment]. apply map_id. }
  split; [exact Htexts|]. split; [|split; [|split; [|split]]].
  - rewrite Htexts. apply NoDup_rev. apply NoDup_nodup.
  - intros t. rewrite Htexts, <- in_rev, nodup_In, <- in_rev.
    unfold vttCandidates. rewrite filter_In, in_map_iff. split.
    + intros [(line & <- & Hl) Ht]. apply filter_In in Hl. destruct Hl as [Hl Hk].
      split; [destruct (vttCleaned line); [discriminate | discriminate]|].
      exists line. unfold vttKept in Hk. split; [exact Hl|].
      split; [now destruct (vttSkipped (trim line)) | reflexivity].
    + intros [Hne (line & Hl & Hs & ->)]. split.
      * exists line. split; [reflexivity|]. apply filter_In. split; [exact Hl|].
        unfold vttKept. now rewrite Hs.
      * destruct (trim (stripTags (trim line))); [congruence | reflexivity].
  - intros s Hs. rewrite vttSegments_texts in Hs. apply in_map_iff in Hs.
    destruct Hs as (t & <- & _). split; reflexivity.
  - apply vttSkipped_iff.
  - intros Hblank Hxml Hvtt Hne. unfold subtitleSegments.
    assert (Hp : truthy payload = true).
    { destruct payload; [exfalso; apply Hblank; reflexivity | reflexivity]. }
    rewrite Hp. cbn [negb orb].
    destruct (Nat.eqb (length (trim payload)) 0) eqn:El.
    + apply Nat.eqb_eq in El. destruct (trim payload); [congruence | discriminate].
    + rewrite Hxml. cbn [bind]. rewrite Hvtt.
      destruct (vttSegments payload); [congruence | reflexivity].
Qed.

Lemma vttSegments_first_occurrences_witness :
  subtitleSegments
    (u "WEBVTT" ++ [LF] ++ u "Kind: captions" ++ [LF] ++ [LF] ++ u "1" ++ [LF]
     ++ u "00:00.000 --> 00:02.000" ++ [LF] ++ u "<c>Hello</c> world" ++ [LF]
     ++ u "again" ++ [LF] ++ u "Hello world")
  = Ok [plainSegment (u "Hello world"); plainSegment (u "again")].
Proof.
  match goal with |- subtitleSegments ?p = _ =>
    destruct (vttSegments_first_occurrences p) as (_ & _ & _ & _ & _ & H) end.
  rewrite H; [reflexivity | vm_compute; discriminate | reflexivity | reflexivity
              | vm_compute; discriminate].
Defined.

(** ** Rendered lines hold no line feed *)

Lemma dropWhile_In p (s : str) c : In c (dropWhile p s) -> In c s.
Proof.
  induction s as [|a s IH]; [trivial|]. cbn [dropWhile].
  destruct (p a); [intros H; right; now apply IH | trivial].
Qed.

Lemma trim_In s c : In c (trim s) -> In c s.
Proof.
  unfold trim. intros H. apply in_rev in H. apply dropWhile_In in H.
  apply in_rev in H. now apply dropWhile_In in H.
Qed.

Lemma match_here_spaces n c t :
  match_here n (Plus (Cls isSpace)) (c :: t) = None -> isSpace c = false.
Proof.
  unfold match_here. rewrite rmatch_plus_cls.
  destruct (isSpace c); [|reflexivity]. intros H. exfalso.
  assert (Hsome : forall s cs, greedy_run isSpace (fun s' cs0 => Some (s', cs0)) s cs <> None).
  { induction s as [|a s IH]; intros cs; cbn [greedy_run]; [discriminate|].
    destruct (isSpace a); [|discriminate].
    destruct (greedy_run isSpace _ s cs) eqn:E; [discriminate | now apply IH in E]. }
  now apply Hsome in H.
Qed.

Lemma search_spaces_skipped n :
  forall s pre s' cs,
    search n (Plus (Cls isSpace)) s = Some (pre, s', cs) ->
    forall c, In c pre -> isSpace c = false.
Proof.
  induction s as [|a s IH]; intros pre s' cs H c Hc; cbn [search] in H.
  - destruct (match_here n _ []) as [[s1 cs1]|]; [|discriminate].
    inversion H; subst. destruct Hc.
  - destruct (match_here n _ (a :: s)) as [[s1 cs1]|] eqn:E.
    + inversion H; subst. destruct Hc.
    + destruct (search n _ s) as [[[pre1 s1] cs1]|] eqn:S; [|discriminate].
      inversion H; subst. destruct Hc as [<-|Hc].
      * now apply match_here_spaces in E.
      * now apply (IH _ _ _ eq_refl).
Qed.

Lemma search_spaces_none n :
  forall s, search n (Plus (Cls isSpace)) s = None ->
    forall c, In c s -> isSpace c = false.
Proof.
  induction s as [|a s IH]; intros H c Hc; [destruct Hc|]. cbn [search] in H.
  destruct (match_here n _ (a :: s)) as [[s1 cs1]|] eqn:E; [discriminate|].
  destruct (search n _ s) as [[[pre1 s1] cs1]|] eqn:S; [discriminate|].
  destruct Hc as [<-|Hc]; [now apply match_here_spaces in E | now apply IH].
Qed.

(** After the last step of decodeHtmlEntities the only white space left is
    the space. *)
Lemma collapse_spaces n :
  forall fuel s c,
    In c (replace_loop fuel n (Plus (Cls isSpace)) (constant (u " ")) s) ->
    length s < fuel ->
    isSpace c = false \/ c = chr " ".
Proof.
  induction fuel as [|fuel IH]; intros s c Hc Hfuel; [lia|].
  cbn [replace_loop] in Hc.
  destruct (search n _ s) as [[[pre s'] m]|] eqn:E.
  - pose proof (search_spaces_skipped n s pre s' m E) as Hpre.
    apply search_found in E. destruct E as (t & -> & Hm & Hs').
    rewrite skipn_app, Nat.sub_diag, skipn_all in Hc. cbn [skipn app] in Hc.
    assert (Hlt : length s' < length t)
      by (apply (match_here_progress n (Plus (Cls isSpace)) t s' m); [reflexivity | exact Hm]).
    assert (El : Nat.ltb (length s') (length t) = true) by now apply Nat.ltb_lt.
    rewrite El in Hc. rewrite length_app in Hfuel.
    apply in_app_or in Hc. destruct Hc as [Hc|Hc]; [left; now apply Hpre|].
    apply in_app_or in Hc. destruct Hc as [Hc|Hc].
    + right. unfold constant in Hc. cbn in Hc. destruct Hc as [<-|[]]. reflexivity.
    + apply (IH s' c Hc). lia.
  - left. now apply (search_spaces_none n s E).
Qed.

Lemma decodeHtmlEntities_no_LF t : ~ In LF (decodeHtmlEntities t).
Proof.
  unfold decodeHtmlEntities, replace_all at 1. intros H.
  apply collapse_spaces in H; [|lia]. destruct H as [H|H]; discriminate H.
Qed.

Lemma decimal_plain z : Forall plainChar (decimal z).
Proof.
  unfold decimal. generalize (S (Z.to_nat (Z.log2 z))) as fuel.
  assert (H : forall fuel z acc, Forall plainChar acc -> Forall plainChar (digitsOf fuel z acc)).
  { induction fuel as [|fuel IH]; intros x acc Hacc; [exact Hacc|].
    cbn [digitsOf].
    assert (Hd : plainChar (Z.to_N (x mod 10 + 48))).
    { unfold plainChar, LF. intros E.
      pose proof (Z.mod_pos_bound x 10 ltac:(lia)) as Hb.
      apply (f_equal Z.of_N) in E. rewrite Z2N.id in E by lia. simpl in E. lia. }
    destruct (Z.ltb x 10); [now constructor | apply IH; now constructor]. }
  intros fuel. apply H. constructor.
Qed.

Lemma plain_app a b : Forall plainChar a -> Forall plainChar b -> Forall plainChar (a ++ b).
Proof. intros Ha Hb. apply Forall_app. now split. Qed.

Lemma plain_literal (w : string) :
  forallb (fun c => negb (N.eqb c LF)) (u w) = true -> Forall plainChar (u w).
Proof.
  intros H. apply Forall_forall. intros c Hc. rewrite forallb_forall in H.
  apply H in Hc. unfold plainChar. intros ->. discriminate.
Qed.

Lemma plain_firstn n s : Forall plainChar s -> Forall plainChar (firstn n s).
Proof.
  intros H. rewrite <- (firstn_skipn n s) in H. now apply Forall_app in H.
Qed.

Lemma plain_skipn n s : Forall plainChar s -> Forall plainChar (skipn n s).
Proof.
  intros H. rewrite <- (firstn_skipn n s) in H. now apply Forall_app in H.
Qed.

Lemma plain_zeros n : Forall plainChar (repeat 48%N n).
Proof.
  apply Forall_forall. intros c Hc. apply repeat_spec in Hc. subst. discriminate.
Qed.

Ltac plain :=
  repeat first
    [ apply plain_app | apply decimal_plain | apply plain_zeros
    | apply plain_firstn | apply plain_skipn
    | apply plain_literal; reflexivity
    | apply Forall_nil | assumption ].

Lemma numberToString_plain x : Forall plainChar (numberToString x).
Proof.
  destruct x as [s|s| |s m e]; cbn [numberToString].
  - plain.
  - destruct s; plain.
  - plain.
  - cbv zeta.
    destruct (shortest 17 _ _ _ _ 1) as [ds n].
    pose proof (decimal_plain ds) as Hds.
    assert (Hexpo : Forall plainChar
                      ((if (0 <=? n - 1)%Z then u "+" else u "-") ++ decimal (Z.abs (n - 1))))
      by (destruct (0 <=? n - 1)%Z; plain).
    apply plain_app; [destruct s; plain|].
    destruct (_ && _)%bool; [plain|].
    destruct (_ && _)%bool; [plain|].
    destruct (_ && _)%bool; [plain|].
    destruct (decimal ds) as [|d [|d2 rest]]; [constructor | |].
    + apply plain_app; [exact Hds|]. apply plain_app; [plain | exact Hexpo].
    + inversion Hds as [|? ? Hd Hrest]; subst.
      apply plain_app; [now repeat constructor|].
      apply plain_app; [plain|]. apply plain_app; [exact Hrest|].
      apply plain_app; [plain | exact Hexpo].
Qed.

Lemma padStart2_plain s : Forall plainChar s -> Forall plainChar (padStart2 s).
Proof.
  intros H. destruct s as [|a [|b s]]; cbn [padStart2]; [plain | | exact H].
  apply plain_app; [plain | exact H].
Qed.

Lemma timestampedLine_no_LF s : ~ In LF (timestampedLine s).
Proof.
  unfold timestampedLine. intros H.
  apply in_app_or in H. destruct H as [H|H]; [vm_compute in H; intuition discriminate|].
  apply in_app_or in H. destruct H as [H|H].
  - unfold formatTimestamp in H.
    assert (Hp : Forall plainChar
                   (padStart2 (numberToString (Math_floor (num_div (start s) (of_Z 60))))
                    ++ u ":"
                    ++ padStart2 (numberToString (Math_floor (num_rem (start s) (of_Z 60))))))
      by (repeat first [apply plain_app | apply padStart2_plain
                       | apply numberToString_plain | apply plain_literal; reflexivity]).
    rewrite Forall_forall in Hp. now apply Hp in H.
  - apply in_app_or in H. destruct H as [H|H]; [vm_compute in H; intuition discriminate|].
    apply trim_In in H. now apply decodeHtmlEntities_no_LF in H.
Qed.


(** ** Formatting *)







(** ** Further evaluations of the model on the inputs of the test suite *)

Example decodeHtmlEntities_mixed :
  decodeHtmlEntities (u "it&#39;s &amp; great") = u "it's & great"
  /\ decodeHtmlEntities (u "hello&nbsp;  world &#65;&#66;&#67;") = u "hello world ABC".
Proof. split; vm_compute; reflexivity. Qed.

Example extractVideoId_tests :
  extractVideoId (u "www.youtube.com/watch?v=dQw4w9WgXcQ") = Some (u "dQw4w9WgXcQ")
  /\ extractVideoId (u "https://www.youtube.com/shorts/dQw4w9WgXcQ") = Some (u "dQw4w9WgXcQ")
  /\ extractVideoId (u "not a url at all") = None
  /\ extractVideoId [] = None.
Proof. repeat split; vm_compute; reflexivity. Qed.

Example parseTranscriptXml_skips_blank :
  parseTranscriptXml
    (uq "<transcript><text start=`0` dur=`5`>Hello</text><text start=`5` dur=`3`>   </text><text start=`8` dur=`2`>World</text></transcript>")
  = Ok [segment "Hello" 0 5; segment "World" 8 2].
Proof. vm_compute. reflexivity. Qed.

Example formatTimestamp_edges :
  formatTimestamp (parseFloat (Some (u "59.9"))) = u "00:59"
  /\ formatTimestamp (of_Z 3600) = u "60:00"
  /\ formatTimestamp (of_Z (-5)) = u "-1:-5"
  /\ formatTimestamp (parseFloat (Some (u "Infinity"))) = u "Infinity:NaN".
Proof. repeat split; vm_compute; reflexivity. Qed.

Example numberToString_samples :
  numberToString (parseFloat (Some (u "1e21"))) = u "1e+21"
  /\ numberToString (parseFloat (Some (u "123456789012345680000"))) = u "123456789012345680000"
  /\ numberToString (parseFloat (Some (u "0.1"))) = u "0.1"
  /\ numberToString (parseFloat (Some (u "1e23"))) = u "1e+23"
  /\ numberToString (parseInt (Some (u "0x10"))) = u "16".
Proof. repeat split; vm_compute; reflexivity. Qed.

(** * Part III: further properties of the code *)

(** ** Global replacement *)

(** A position where the pattern does not match is copied. *)
Lemma replace_loop_skip fuel n r f c t :
  match_here n r (c :: t) = None ->
  replace_loop (S fuel) n r f (c :: t) = c :: replace_loop (S fuel) n r f t.
Proof.
  intros H. cbn [replace_loop search]. rewrite H.
  destruct (search n r t) as [[[pre s'] cs]|]; reflexivity.
Qed.

Lemma replace_loop_absent n r f :
  forall fuel s, (forall t, suffix t s -> match_here n r t = None) ->
    replace_loop fuel n r f s = s.
Proof.
  intros fuel s H. destruct fuel as [|fuel]; [reflexivity|].
  cbn [replace_loop]. now rewrite (search_none n r s H).
Qed.

(** A replacement by at most one code unit for a pattern that consumes at
    least one never lengthens the text. *)
Lemma replace_loop_length n r f :
  progresses r = true -> (forall w cs, length (f w cs) <= 1) ->
  forall fuel s, length (replace_loop fuel n r f s) <= length s.
Proof.
  intros Hp Hf. induction fuel as [|fuel IH]; intros s; [apply Nat.le_refl|].
  cbn [replace_loop]. destruct (search n r s) as [[[pre s'] m]|] eqn:E; [|apply Nat.le_refl].
  apply search_found in E. destruct E as (t & -> & Hm & _).
  rewrite skipn_length_app.
  pose proof (match_here_progress n r t s' m Hp Hm) as Hlt.
  assert (El : Nat.ltb (length s') (length t) = true) by now apply Nat.ltb_lt.
  rewrite El, !length_app.
  pose proof (Hf (firstn (length t - length s') t) m). pose proof (IH s'). lia.
Qed.

(** ** White space after decoding *)

Lemma greedy_run_final p s cs : greedy_run p final s cs = Some (dropWhile p s, cs).
Proof.
  induction s as [|a s IH]; [reflexivity|]. cbn [greedy_run dropWhile].
  destruct (p a); [now rewrite IH | reflexivity].
Qed.

Lemma match_here_plus_cls n p c t :
  match_here n (Plus (Cls p)) (c :: t)
  = if p c then Some (dropWhile p t, []) else None.
Proof.
  unfold match_here. rewrite rmatch_plus_cls. destruct (p c); [|reflexivity].
  apply greedy_run_final.
Qed.

Lemma dropWhile_length p (s : str) : length (dropWhile p s) <= length s.
Proof.
  induction s as [|a s IH]; [apply Nat.le_refl|]. cbn [dropWhile].
  destruct (p a); [cbn [length]; lia | apply Nat.le_refl].
Qed.

Lemma collapseTo_cons x c t :
  collapseTo x (c :: t)
  = if isSpace c then (if startsSpace t then collapseTo x t else x :: collapseTo x t)
    else c :: collapseTo x t.
Proof. reflexivity. Qed.

Lemma collapseTo_run x c t :
  isSpace c = true -> collapseTo x (c :: t) = x :: collapseTo x (dropWhile isSpace t).
Proof.
  revert c. induction t as [|d t IH]; intros c Hc; rewrite (collapseTo_cons x c), Hc;
    [reflexivity|].
  cbn [startsSpace dropWhile]. destruct (isSpace d) eqn:Hd.
  - now apply IH.
  - reflexivity.
Qed.

Lemma replace_spaces_collapse n x :
  forall k s, length s <= k ->
    forall fuel, length s < fuel ->
      replace_loop fuel n (Plus (Cls isSpace)) (constant [x]) s = collapseTo x s.
Proof.
  induction k as [|k IH]; intros s Hk fuel Hfuel.
  - destruct s; [|cbn [length] in Hk; lia]. destruct fuel; reflexivity.
  - destruct s as [|c t]; [destruct fuel; reflexivity|].
    destruct fuel as [|fuel]; [lia|]. cbn [length] in Hk, Hfuel.
    destruct (isSpace c) eqn:Hc.
    + rewrite (collapseTo_run x c t Hc). cbn [replace_loop].
      rewrite (search_here n _ (c :: t) (dropWhile isSpace t) [])
        by (rewrite match_here_plus_cls; now rewrite Hc).
      pose proof (dropWhile_length isSpace t) as Hd.
      cbn [length skipn].
      assert (El : Nat.ltb (length (dropWhile isSpace t)) (S (length t)) = true)
        by (apply Nat.ltb_lt; lia).
      rewrite El. cbn [app]. unfold constant at 1. cbn [app]. f_equal. apply IH; lia.
    + rewrite replace_loop_skip by (rewrite match_here_plus_cls; now rewrite Hc).
      cbn [collapseTo]. rewrite Hc. f_equal. apply IH; lia.
Qed.

Lemma replace_all_spaces x s :
  replace_all (Plus (Cls isSpace)) (constant [x]) s = collapseTo x s.
Proof. unfold replace_all. apply (replace_spaces_collapse _ x (length s)); lia. Qed.

Lemma startsSpace_collapse s : startsSpace (collapseTo 32%N s) = startsSpace s.
Proof.
  induction s as [|c t IH]; [reflexivity|]. cbn [collapseTo startsSpace].
  destruct (isSpace c) eqn:Hc.
  - destruct (startsSpace t) eqn:Ht; [now rewrite IH | reflexivity].
  - cbn [startsSpace]. exact Hc.
Qed.

Lemma singleSpaced_collapse s : singleSpaced (collapseTo 32%N s) = true.
Proof.
  induction s as [|c t IH]; [reflexivity|]. cbn [collapseTo].
  destruct (isSpace c) eqn:Hc.
  - destruct (startsSpace t) eqn:Ht; [exact IH|].
    cbn [singleSpaced]. rewrite startsSpace_collapse, Ht, IH.
    now rewrite orb_true_r.
  - cbn [singleSpaced]. now rewrite Hc, IH.
Qed.

Lemma collapse_singleSpaced s : singleSpaced s = true -> collapseTo 32%N s = s.
Proof.
  induction s as [|c t IH]; [reflexivity|]. cbn [singleSpaced collapseTo]. intros H.
  apply andb_true_iff in H. destruct H as [H Ht]. rewrite (IH Ht).
  destruct (isSpace c); [|reflexivity].
  cbn [negb orb] in H. apply andb_true_iff in H. destruct H as [Hc Hs].
  apply N.eqb_eq in Hc. subst c. apply negb_true_iff in Hs. now rewrite Hs.
Qed.

Lemma decodeHtmlEntities_collapse t :
  exists t', decodeHtmlEntities t = collapseTo 32%N t'.
Proof. unfold decodeHtmlEntities. eexists. apply (replace_all_spaces 32%N). Qed.

Lemma singleSpaced_iff s :
  singleSpaced s = true
  <-> (forall c, In c s -> isSpace c = true -> c = chr " ")
      /\ (forall a b, s <> a ++ u "  " ++ b).
Proof.
  induction s as [|c t IH].
  - split; [|reflexivity]. intros _. split; [intros c []|].
    intros a b H. destruct a; discriminate H.
  - cbn [singleSpaced]. rewrite andb_true_iff, IH. split.
    + intros [Hc [Hin Hadj]]. split.
      * intros x [<-|Hx] Hs; [|now apply Hin].
        rewrite Hs in Hc. cbn [negb orb] in Hc.
        apply andb_true_iff in Hc. destruct Hc as [Hc _]. now apply N.eqb_eq in Hc.
      * intros a b H. destruct a as [|x a].
        -- cbn in H. inversion H; subst c t. cbn in Hc. discriminate Hc.
        -- cbn [app] in H. inversion H; subst. now apply (Hadj a b).
    + intros [Hin Hadj]. split; [|split].
      * destruct (isSpace c) eqn:Hc; [|reflexivity]. cbn [negb orb].
        pose proof (Hin c (or_introl eq_refl) Hc) as ->.
        rewrite N.eqb_refl. cbn [andb].
        destruct t as [|d t]; [reflexivity|]. cbn [startsSpace].
        destruct (isSpace d) eqn:Hd; [|reflexivity]. exfalso.
        pose proof (Hin d (or_intror (or_introl eq_refl)) Hd) as ->.
        now apply (Hadj [] t).
      * intros x Hx. apply Hin. now right.
      * intros a b ->. now apply (Hadj (c :: a) b).
Qed.

Lemma decodeHtmlEntities_singleSpaced t : singleSpaced (decodeHtmlEntities t) = true.
Proof.
  destruct (decodeHtmlEntities_collapse t) as [t' ->]. apply singleSpaced_collapse.
Qed.

(** The first code unit a match of the seven entity patterns begins with. *)
Lemma entity_headed n r k t cs x :
  rmatch n (Seq (Cls (N.eqb (chr "&"))) r) k t cs = Some x ->
  exists t', t = chr "&" :: t'.
Proof.
  destruct t as [|a t]; cbn [rmatch]; [discriminate|].
  destruct (N.eqb (chr "&") a) eqn:E; [|discriminate].
  apply N.eqb_eq in E. subst a. now exists t.
Qed.

Lemma replace_all_no_entity r0 f t :
  ~ In (chr "&") t ->
  replace_all (Seq (Cls (N.eqb (chr "&"))) r0) f t = t.
Proof.
  intros H. unfold replace_all. apply replace_loop_absent. intros s [w ->].
  destruct (match_here (length (w ++ s)) (Seq (Cls (N.eqb (chr "&"))) r0) s)
    as [x|] eqn:E; [|reflexivity].
  unfold match_here in E. apply entity_headed in E. destruct E as [t' ->].
  exfalso. apply H. apply in_or_app. right. now left.
Qed.

Lemma decodeHtmlEntities_no_entity t :
  ~ In (chr "&") t -> decodeHtmlEntities t = collapseTo 32%N t.
Proof.
  intros H. unfold decodeHtmlEntities. cbv zeta. rewrite (replace_all_spaces 32%N). f_equal.
  change (lit (u "&#39;")) with (Seq (Cls (N.eqb (chr "&"))) (lit (u "#39;"))).
  change (lit (u "&quot;")) with (Seq (Cls (N.eqb (chr "&"))) (lit (u "quot;"))).
  change (lit (u "&amp;")) with (Seq (Cls (N.eqb (chr "&"))) (lit (u "amp;"))).
  change (lit (u "&lt;")) with (Seq (Cls (N.eqb (chr "&"))) (lit (u "lt;"))).
  change (lit (u "&gt;")) with (Seq (Cls (N.eqb (chr "&"))) (lit (u "gt;"))).
  change (lit (u "&nbsp;")) with (Seq (Cls (N.eqb (chr "&"))) (lit (u "nbsp;"))).
  rewrite !(replace_all_no_entity _ _ t H).
  apply replace_loop_absent. intros s [w ->].
  destruct (match_here (length (w ++ s)) numericEntity s) as [x|] eqn:E; [|reflexivity].
  unfold match_here, numericEntity in E. cbn [seqs lit u map list_ascii_of_string] in E.
  rewrite !rmatch_seq in E.
  destruct s as [|a s]; [discriminate E|]. cbn [rmatch] in E.
  destruct (N.eqb _ a) eqn:Ea; [|discriminate E].
  apply N.eqb_eq in Ea. subst a. exfalso. apply H. apply in_or_app. right. now left.
Qed.

Lemma replace_all_length r f s :
  progresses r = true -> (forall w cs, length (f w cs) <= 1) ->
  length (replace_all r f s) <= length s.
Proof. intros Hp Hf. now apply replace_loop_length. Qed.

Lemma decodeHtmlEntities_length t : length (decodeHtmlEntities t) <= length t.
Proof.
  unfold decodeHtmlEntities. cbv zeta.
  repeat (etransitivity;
          [apply replace_all_length; [reflexivity | intros w cs; cbn; lia]|]).
  apply Nat.le_refl.
Qed.

(** X1: whatever the text, the decoded text has its white space in normal
    form: the only white-space code unit left is the space, and no two
    spaces are adjacent. *)
Theorem decodeHtmlEntities_single_spaces (t : str) :
  (forall c, In c (decodeHtmlEntities t) -> isSpace c = true -> c = chr " ")
  /\ (forall a b, decodeHtmlEntities t <> a ++ u "  " ++ b).
Proof. apply singleSpaced_iff. apply decodeHtmlEntities_singleSpaced. Qed.

(** X2: decoding never lengthens a text: every entity and every run of
    white space is replaced by a single code unit. *)
Theorem decodeHtmlEntities_never_longer (t : str) :
  length (decodeHtmlEntities t) <= length t.
Proof. apply decodeHtmlEntities_length. Qed.

(** X3: a text without an ampersand whose white space is single spaces is
    returned unchanged; so decoding a second time changes nothing unless the
    first pass left an ampersand in the text. *)
Theorem decodeHtmlEntities_plain_text (t : str) :
  (~ In (chr "&") t ->
   (forall c, In c t -> isSpace c = true -> c = chr " ") ->
   (forall a b, t <> a ++ u "  " ++ b) ->
   decodeHtmlEntities t = t)
  /\ (~ In (chr "&") (decodeHtmlEntities t) ->
      decodeHtmlEntities (decodeHtmlEntities t) = decodeHtmlEntities t).
Proof.
  split.
  - intros Hamp Hsp Hadj. rewrite decodeHtmlEntities_no_entity by exact Hamp.
    apply collapse_singleSpaced. apply singleSpaced_iff. now split.
  - intros Hamp. rewrite (decodeHtmlEntities_no_entity _ Hamp).
    apply collapse_singleSpaced. apply decodeHtmlEntities_singleSpaced.
Qed.

Lemma decodeHtmlEntities_plain_text_witness :
  decodeHtmlEntities (u "Hello world") = u "Hello world".
Proof.
  destruct (decodeHtmlEntities_plain_text (u "Hello world")) as [H _].
  apply H.
  - intros Hc. vm_compute in Hc.
    repeat (destruct Hc as [Hc|Hc]; [discriminate Hc|]). exact Hc.
  - intros c Hc. vm_compute in Hc.
    repeat (destruct Hc as [<-|Hc]; [vm_compute; intros; congruence|]). destruct Hc.
  - intros a b E.
    assert (Hs : singleSpaced (a ++ u "  " ++ b) = true) by (rewrite <- E; reflexivity).
    apply singleSpaced_iff in Hs. destruct Hs as [_ Hs]. now apply (Hs a b).
Defined.

(** ** trim *)

Lemma takeWhile_dropWhile p (s : str) : s = takeWhile p s ++ dropWhile p s.
Proof.
  induction s as [|a s IH]; [reflexivity|]. cbn [takeWhile dropWhile].
  destruct (p a); [cbn [app]; now f_equal | reflexivity].
Qed.

Lemma startsSpace_dropWhile s : startsSpace (dropWhile isSpace s) = false.
Proof.
  induction s as [|a s IH]; [reflexivity|]. cbn [dropWhile].
  destruct (isSpace a) eqn:E; [exact IH | exact E].
Qed.

(** What [trim] returns is the text between the leading and the trailing
    white space. *)
Lemma trim_infix s :
  exists a b, s = a ++ trim s ++ b
    /\ forallb isSpace a = true /\ forallb isSpace b = true.
Proof.
  unfold trim. set (d := dropWhile isSpace s).
  exists (takeWhile isSpace s), (rev (takeWhile isSpace (rev d))).
  assert (Htw : forall x, forallb isSpace (takeWhile isSpace x) = true).
  { induction x as [|c x IH]; [reflexivity|]. cbn [takeWhile].
    destruct (isSpace c) eqn:E; [cbn [forallb]; now rewrite E | reflexivity]. }
  split; [|split; [apply Htw|]].
  - rewrite <- rev_app_distr, <- takeWhile_dropWhile, rev_involutive.
    apply takeWhile_dropWhile.
  - rewrite forallb_forall. intros c Hc. apply in_rev in Hc.
    pose proof (Htw (rev d)) as H. rewrite forallb_forall in H. now apply H.
Qed.

Lemma trim_no_lead s : startsSpace (trim s) = false.
Proof.
  destruct (trim s) as [|c t] eqn:E; [reflexivity|]. cbn [startsSpace].
  unfold trim in E. set (d := dropWhile isSpace s) in *.
  assert (Hd : d = (c :: t) ++ rev (takeWhile isSpace (rev d))).
  { rewrite <- E, <- rev_app_distr, <- takeWhile_dropWhile. now rewrite rev_involutive. }
  pose proof (startsSpace_dropWhile s) as H. fold d in H. rewrite Hd in H. exact H.
Qed.

Lemma trim_no_trail s : startsSpace (rev (trim s)) = false.
Proof. unfold trim. rewrite rev_involutive. apply startsSpace_dropWhile. Qed.

Lemma singleSpaced_app a b :
  singleSpaced (a ++ b) = true -> singleSpaced a = true /\ singleSpaced b = true.
Proof.
  induction a as [|c a IH]; [now split|]. cbn [app singleSpaced]. intros H.
  apply andb_true_iff in H. destruct H as [Hc H]. destruct (IH H) as [Ha Hb].
  split; [|exact Hb]. rewrite Ha, andb_true_r.
  destruct a as [|d a]; [|exact Hc].
  destruct (isSpace c); [|reflexivity]. cbn [negb orb] in Hc |- *.
  apply andb_true_iff in Hc. destruct Hc as [Hc _]. now rewrite Hc.
Qed.

Lemma singleSpaced_trim s : singleSpaced s = true -> singleSpaced (trim s) = true.
Proof.
  intros H. destruct (trim_infix s) as (a & b & E & _). rewrite E in H.
  apply singleSpaced_app in H. destruct H as [_ H].
  now apply singleSpaced_app in H.
Qed.

Lemma trim_length s : length (trim s) <= length s.
Proof.
  destruct (trim_infix s) as (a & b & E & _).
  rewrite E at 2. rewrite !length_app. lia.
Qed.

(** ** joinSegments *)

(** X4: the plain transcript is one line of words: every white-space code
    unit in it is a space, no two spaces are adjacent, and it neither begins
    nor ends with white space.  It is never longer than the segment texts
    joined by spaces. *)
Theorem joinSegments_normal_form (segments : list TranscriptSegment) :
  let out := joinSegments segments in
  (forall c, In c out -> isSpace c = true -> c = chr " ")
  /\ (forall a b, out <> a ++ u "  " ++ b)
  /\ startsSpace out = false
  /\ startsSpace (rev out) = false
  /\ length out <= length (join (u " ") (map text segments)).
Proof.
  cbv zeta. unfold joinSegments.
  assert (H : singleSpaced
                (trim (decodeHtmlEntities (join (u " ") (map text segments)))) = true)
    by (apply singleSpaced_trim, decodeHtmlEntities_singleSpaced).
  apply singleSpaced_iff in H. destruct H as [H1 H2].
  split; [exact H1|]. split; [exact H2|]. split; [apply trim_no_lead|].
  split; [apply trim_no_trail|].
  etransitivity; [apply trim_length | apply decodeHtmlEntities_length].
Qed.

(** ** Numbers that are not NaN *)

Lemma shr_1_nonneg mrs : (0 <= shr_m mrs)%Z -> (0 <= shr_m (shr_1 mrs))%Z.
Proof.
  destruct mrs as [m r s]. destruct m as [|p|p]; cbn; intros H; try lia;
    destruct p; cbn; lia.
Qed.

Lemma iter_pos_shr_1_nonneg p :
  forall mrs, (0 <= shr_m mrs)%Z -> (0 <= shr_m (iter_pos shr_1 p mrs))%Z.
Proof.
  induction p as [p IH|p IH|]; intros mrs H; cbn [iter_pos].
  - apply IH, IH, shr_1_nonneg, H.
  - apply IH, IH, H.
  - apply shr_1_nonneg, H.
Qed.

Lemma shr_fexp_nonneg m e l :
  (0 <= m)%Z -> (0 <= shr_m (fst (shr_fexp prec emax m e l)))%Z.
Proof.
  intros H. unfold shr_fexp, shr.
  assert (H0 : (0 <= shr_m (shr_record_of_loc m l))%Z)
    by (destruct l as [|[ | | ]]; exact H).
  destruct (fexp prec emax (Zdigits2 m + e) - e)%Z; cbn [fst]; try exact H0.
  now apply iter_pos_shr_1_nonneg.
Qed.

Lemma binary_round_aux_not_nan sx mx ex lx :
  (0 <= mx)%Z -> binary_round_aux prec emax sx mx ex lx <> S754_nan.
Proof.
  intros H. unfold binary_round_aux.
  pose proof (shr_fexp_nonneg mx ex lx H) as H1.
  destruct (shr_fexp prec emax mx ex lx) as [mrs' e']. cbn [fst] in H1.
  assert (H2 : (0 <= round_nearest_even (shr_m mrs') (loc_of_shr_record mrs'))%Z).
  { unfold round_nearest_even. destruct (loc_of_shr_record mrs') as [|[ | | ]]; try lia.
    destruct (Z.even (shr_m mrs')); lia. }
  pose proof (shr_fexp_nonneg _ e' loc_Exact H2) as H3.
  destruct (shr_fexp prec emax _ e' loc_Exact) as [mrs'' e'']. cbn [fst] in H3.
  destruct (shr_m mrs'') as [|m|m]; [discriminate | | lia].
  destruct (Z.leb e'' (emax - prec)); discriminate.
Qed.

(** Dividing by a finite number other than zero gives NaN only for NaN. *)
Lemma num_div_not_nan x sy my ey :
  x <> NaN -> num_div x (S754_finite sy my ey) <> NaN.
Proof.
  intros Hx. unfold num_div, SFdiv. destruct x as [sx|sx| |sx mx ex]; try discriminate.
  - now elim Hx.
  - unfold SFdiv_core_binary.
    set (s := (ex - ey - _)%Z).
    set (m' := match s with Z.pos _ => Z.shiftl (Z.pos mx) s | 0%Z => Z.pos mx
               | Z.neg _ => 0%Z end).
    assert (Hm : (0 <= m')%Z).
    { subst m'. destruct s; try lia. apply Z.shiftl_nonneg. lia. }
    pose proof (Z.div_pos m' (Z.pos my) Hm ltac:(lia)) as Hq.
    unfold Z.div in Hq. destruct (Z.div_eucl m' (Z.pos my)) as [q r]. cbn [fst] in Hq.
    now apply binary_round_aux_not_nan.
Qed.

Lemma or_zero_not_nan x : or_zero x <> NaN.
Proof. destruct x; discriminate. Qed.

(** ** What every parsed segment satisfies *)

Lemma exec_loop_Forall {A : Type} (P : A -> Prop) n r
    (body : caps -> result (option A)) :
  (forall m a, body m = Ok (Some a) -> P a) ->
  forall fuel s xs, exec_loop fuel n r body s = Ok xs -> Forall P xs.
Proof.
  intros Hb. induction fuel as [|fuel IH]; intros s xs H; [discriminate|].
  cbn [exec_loop] in H. destruct (search n r s) as [[[pre s'] m]|].
  - destruct (body m) as [x| |] eqn:Eb; try discriminate. cbn [bind] in H.
    destruct (exec_loop fuel n r body s') as [ys| |] eqn:Er; try discriminate.
    cbn [bind] in H. inversion H; subst xs. specialize (IH _ _ Er).
    destruct x as [a|]; [constructor; [now apply (Hb m) | exact IH] | exact IH].
  - inversion H. constructor.
Qed.

Lemma srv1Segment_sound m s : srv1Segment m = Ok (Some s) -> soundSegment s.
Proof.
  unfold srv1Segment. destruct (capture 3 m) as [m3|]; [|discriminate].
  destruct (truthy (trim m3)) eqn:E; [|discriminate]. intros H. inversion H; subst s.
  split; [|split; apply or_zero_not_nan]. cbn [text]. intros ->. discriminate E.
Qed.

Lemma srv3Segment_sound fuel m s : srv3Segment fuel m = Ok (Some s) -> soundSegment s.
Proof.
  unfold srv3Segment. destruct (capture 3 m) as [inner|]; [|discriminate].
  destruct (exec_loop fuel (length inner) sRe word inner) as [words| |]; try discriminate.
  cbn [bind]. cbv zeta.
  match goal with |- context [truthy ?t] => destruct (truthy t) eqn:E end; [|discriminate].
  intros H. inversion H; subst s.
  split; [|split; apply num_div_not_nan, or_zero_not_nan].
  cbn [text]. intros Ht. rewrite Ht in E. discriminate E.
Qed.

Lemma parseTranscriptXml_sound xml segs :
  parseTranscriptXml xml = Ok segs -> Forall soundSegment segs.
Proof.
  unfold parseTranscriptXml, parseTranscriptXml_fuel.
  destruct (exec_loop _ _ srv1Re srv1Segment xml) as [srv1| |] eqn:E1; try discriminate.
  cbn [bind]. destruct srv1 as [|s1 srv1].
  - apply exec_loop_Forall. apply srv3Segment_sound.
  - intros H. inversion H; subst segs.
    apply (exec_loop_Forall soundSegment _ _ srv1Segment srv1Segment_sound _ _ _ E1).
Qed.

(** X5: whatever the input, every segment parseTranscriptXml returns has a
    text that is not empty and a start and a duration that are not NaN. *)
Theorem parseTranscriptXml_segments (xml : str) (segs : list TranscriptSegment) :
  parseTranscriptXml xml = Ok segs ->
  forall s, In s segs -> text s <> [] /\ start s <> NaN /\ duration s <> NaN.
Proof.
  intros H s Hs. apply parseTranscriptXml_sound in H.
  rewrite Forall_forall in H. now apply H.
Qed.

Lemma parseTranscriptXml_segments_witness :
  text (segment "World" 2 2) <> []
  /\ start (segment "World" 2 2) <> NaN
  /\ duration (segment "World" 2 2) <> NaN.
Proof.
  apply (parseTranscriptXml_segments helloWorld [segment "Hello" 0 2; segment "World" 2 2]).
  - vm_compute. reflexivity.
  - right. left. reflexivity.
Defined.

(** ** extractJsonObject on an embedded object *)

Lemma braceScan_first :
  forall w t depth len,
    w <> [] -> (depth + depthOf w = 0)%Z ->
    (forall p q, w = p ++ q -> p <> [] -> q <> [] -> (depth + depthOf p <> 0)%Z) ->
    braceScan (w ++ t) depth len = Some (len + length w).
Proof.
  induction w as [|c w IH]; intros t depth len Hne Hz Hmin; [congruence|].
  cbn [app braceScan].
  set (d := if isCh "{" c then (depth + 1)%Z
            else if isCh "}" c then (depth - 1)%Z else depth).
  assert (Hd : d = (depth + depthOf [c])%Z).
  { rewrite depthOf_cons, depthOf_nil. subst d.
    destruct (isCh "{" c); [lia|]. destruct (isCh "}" c); lia. }
  change (c :: w) with ([c] ++ w) in Hz. rewrite depthOf_app in Hz.
  destruct w as [|c2 w].
  - rewrite depthOf_nil in Hz. replace (Z.eqb d 0) with true by (symmetry; apply Z.eqb_eq; lia).
    cbn [length]. f_equal. lia.
  - replace (Z.eqb d 0) with false.
    + rewrite IH.
      * cbn [length]. f_equal. lia.
      * discriminate.
      * lia.
      * intros p q Hpq Hp Hq. specialize (Hmin (c :: p) q).
        change (c :: p) with ([c] ++ p) in Hmin. rewrite depthOf_app in Hmin.
        assert (depth + (depthOf [c] + depthOf p) <> 0)%Z
          by (apply Hmin; [cbn [app]; now rewrite Hpq | discriminate | exact Hq]).
        lia.
    + symmetry. apply Z.eqb_neq. rewrite Hd.
      apply (Hmin [c] (c2 :: w)); [reflexivity | discriminate | discriminate].
Qed.

(** X6: an object text that is embedded in a larger text is found again.  If
    the text from index [length pre] on begins with an object text, that is,
    a text starting with an opening brace, with as many opening as closing
    braces, whose non-empty proper prefixes all have more opening than
    closing braces, then extractJsonObject at that index returns exactly the
    object text, whatever precedes and follows it. *)
Theorem extractJsonObject_recovers (pre body post : str) :
  opens (chr "{" :: body) = closes (chr "{" :: body) ->
  (forall p q, chr "{" :: body = p ++ q -> p <> [] -> q <> [] ->
     (closes p < opens p)%Z) ->
  extractJsonObject (pre ++ (chr "{" :: body) ++ post) (Z.of_nat (length pre))
  = Some (chr "{" :: body).
Proof.
  intros Hbal Hmin. unfold extractJsonObject.
  replace (Z.of_nat (length pre) <? 0)%Z with false by (symmetry; apply Z.ltb_ge; lia).
  rewrite Nat2Z.id, skipn_length_app. cbn [app].
  change (isCh "{" (chr "{")) with true. cbv iota.
  change (chr "{" :: body ++ post) with ((chr "{" :: body) ++ post).
  rewrite braceScan_first.
  - cbn [Nat.add]. f_equal.
    rewrite <- (Nat.add_0_r (length (chr "{" :: body))), firstn_app_2.
    cbn [firstn]. apply app_nil_r.
  - discriminate.
  - unfold depthOf. lia.
  - intros p q Hpq Hp Hq. specialize (Hmin p q Hpq Hp Hq). unfold depthOf. lia.
Qed.

Lemma extractJsonObject_recovers_witness :
  extractJsonObject (u "var x = " ++ u "{}" ++ u ";") (Z.of_nat (length (u "var x = ")))
  = Some (u "{}").
Proof.
  apply (extractJsonObject_recovers (u "var x = ") (u "}") (u ";")).
  - reflexivity.
  - intros p q Hpq Hp Hq.
    destruct p as [|a [|b p]]; [congruence| |].
    + inversion Hpq; subst. vm_compute. reflexivity.
    + inversion Hpq as [[Ha Hb]]. destruct p; destruct q; try discriminate; congruence.
Defined.

(** ** Where extractVideoId finds the identifier *)

Lemma firstCapture_hosts_source hs url r :
  firstCapture (map idPattern hs) url = Some r ->
  exists h pre tail,
    In h hs /\ url = pre ++ u h ++ r ++ tail
    /\ r <> [] /\ forallb isIdChar r = true /\ endsId tail.
Proof.
  induction hs as [|h hs IH]; cbn [map firstCapture]; [discriminate|].
  destruct (str_match (idPattern h) url) as [cs|] eqn:E.
  - unfold str_match in E.
    destruct (search (length url) (idPattern h) url) as [[[pre s'] cs1]|] eqn:Es;
      [|discriminate].
    inversion E; subst cs1. apply search_suffix in Es. destruct Es as (t & Hurl & Hm).
    apply idPattern_source in Hm. destruct Hm as (a & w & -> & Hc & Hne & Hw & He).
    rewrite Hc. destruct w as [|c w]; [congruence|]. cbn [truthy].
    intros H. inversion H; subst r. exists h, (pre ++ a), s'.
    split; [now left|]. split; [now rewrite Hurl, <- app_assoc|]. now repeat split.
  - intros H. destruct (IH H) as (h' & pre & tail & Hin & Hrest).
    exists h', pre, tail. split; [now right | exact Hrest].
Qed.

Lemma extractVideoId_from url r :
  extractVideoId url = Some r ->
  (exists h pre tail,
     In h hosts /\ url = pre ++ u h ++ r ++ tail
     /\ r <> [] /\ forallb isIdChar r = true /\ endsId tail)
  \/ (url = r /\ length r = 11 /\ forallb isIdChar r = true).
Proof.
  unfold extractVideoId. rewrite patterns_eq, firstCapture_app.
  destruct (firstCapture (map idPattern hosts) url) as [w|] eqn:E.
  - intros H. inversion H; subst w. left. now apply firstCapture_hosts_source.
  - cbn [firstCapture]. destruct (str_match barePattern url) as [cs|] eqn:B; [|discriminate].
    apply str_match_bare_inv in B. destruct B as (Hlen & Hid & ->). cbn [capture].
    rewrite Nat.eqb_refl. destruct (truthy url); [|discriminate].
    intros H. inversion H; subst r. right. now repeat split.
Qed.

Lemma idPattern_here n host c tail :
  In host hosts -> isIdChar c = true ->
  match_here n (idPattern host) (u host ++ c :: tail) <> None.
Proof.
  intros Hh Hc. unfold match_here, idPattern. cbn [seqs]. rewrite rmatch_seq.
  change (rmatch n urlPrefix (rmatch n (Seq (lit (u host)) ?r) ?K))
    with (rmatch n (Seq urlPrefix (lit (u host))) (rmatch n r K)).
  pose proof (takeWhile_dropWhile isIdChar (c :: tail)) as Hsplit.
  assert (Hrun : rmatch n (Seq (Grp 1 (Plus (Cls isIdChar))) Eps) final (c :: tail) []
                 = Some (dropWhile isIdChar (c :: tail),
                         [(1, takeWhile isIdChar (c :: tail))])).
  { rewrite Hsplit at 1. apply idGroup_run.
    - cbn [takeWhile]. rewrite Hc. discriminate.
    - apply takeWhile_all.
    - apply endsId_dropWhile. }
  pose proof (urlHead_run [] [] host (or_introl eq_refl) (or_introl eq_refl) Hh n _
                (c :: tail) _ Hrun) as Hu.
  cbn [app] in Hu. intros Hnone.
  change final with (fun (s' : str) (cs : caps) => Some (s', cs)) in Hu.
  rewrite Hu in Hnone. discriminate Hnone.
Qed.

Lemma firstCapture_hosts_some hs url h :
  In h hs -> str_match (idPattern h) url <> None ->
  firstCapture (map idPattern hs) url <> None.
Proof.
  induction hs as [|h0 hs IH]; intros Hin Hm; [destruct Hin|].
  cbn [map firstCapture].
  destruct (str_match (idPattern h0) url) as [cs|] eqn:E.
  - destruct (str_match_idPattern_inv _ _ _ E) as (_ & w & -> & Hne & _).
    destruct w; [congruence | discriminate].
  - destruct Hin as [->|Hin]; [congruence | now apply IH].
Qed.

(** X23: where the identifier comes from.  An identifier that
    extractVideoId returns is either the whole input, 11 identifier
    characters long, or it is the longest run of identifier characters that
    follows an occurrence of one of the four hosts-with-path in the input:
    it is not empty, and the input goes on after it with the end of the text
    or with a character that cannot be part of an identifier. *)
Theorem extractVideoId_source (url r : str) :
  extractVideoId url = Some r ->
  (exists h pre tail,
     In h hosts /\ url = pre ++ u h ++ r ++ tail
     /\ r <> [] /\ forallb isIdChar r = true /\ endsId tail)
  \/ (url = r /\ length r = 11 /\ forallb isIdChar r = true).
Proof. apply extractVideoId_from. Qed.

Lemma extractVideoId_source_witness :
  (exists h pre tail,
     In h hosts
     /\ u "see https://youtu.be/dQw4w9WgXcQ?t=1" = pre ++ u h ++ u "dQw4w9WgXcQ" ++ tail
     /\ u "dQw4w9WgXcQ" <> [] /\ forallb isIdChar (u "dQw4w9WgXcQ") = true
     /\ endsId tail)
  \/ (u "see https://youtu.be/dQw4w9WgXcQ?t=1" = u "dQw4w9WgXcQ"
      /\ length (u "dQw4w9WgXcQ") = 11 /\ forallb isIdChar (u "dQw4w9WgXcQ") = true).
Proof.
  apply (extractVideoId_source (u "see https://youtu.be/dQw4w9WgXcQ?t=1") (u "dQw4w9WgXcQ")).
  vm_compute. reflexivity.
Defined.

(** X24: which texts extractVideoId accepts.  It returns an identifier
    exactly when the text holds, anywhere, one of the four hosts-with-path
    followed by an identifier character, or when the text is 11 identifier
    characters. *)
Theorem extractVideoId_accepts (url : str) :
  extractVideoId url <> None
  <-> ((exists h pre c tail,
          In h hosts /\ url = pre ++ u h ++ c :: tail /\ isIdChar c = true)
       \/ (length url = 11 /\ forallb isIdChar url = true)).
Proof.
  split.
  - destruct (extractVideoId url) as [r|] eqn:E; [|congruence]. intros _.
    apply extractVideoId_from in E.
    destruct E as [(h & pre & tail & Hin & -> & Hne & Hid & _)|(-> & Hlen & Hid)].
    + left. destruct r as [|c r]; [congruence|]. cbn [forallb] in Hid.
      apply andb_true_iff in Hid. destruct Hid as [Hc _].
      exists h, pre, c, (r ++ tail). now repeat split.
    + right. now split.
  - intros [(h & pre & c & tail & Hin & -> & Hc)|[Hlen Hid]].
    + unfold extractVideoId. rewrite patterns_eq, firstCapture_app.
      assert (H : firstCapture (map idPattern hosts) (pre ++ u h ++ c :: tail) <> None).
      { apply (firstCapture_hosts_some _ _ h Hin). unfold str_match.
        pose proof (search_exists (length (pre ++ u h ++ c :: tail)) (idPattern h) pre
                      (u h ++ c :: tail) (idPattern_here _ h c tail Hin Hc)) as Hs.
        destruct (search _ _ (pre ++ u h ++ c :: tail)) as [[[p s'] cs]|];
          [discriminate | congruence]. }
      destruct (firstCapture (map idPattern hosts) (pre ++ u h ++ c :: tail));
        [discriminate | congruence].
    + rewrite (extractVideoId_bare url Hlen Hid). discriminate.
Qed.

(** ** Lines *)

Lemma split_lines_plain (s : str) : ~ In LF s -> split_lines s = [s].
Proof.
  induction s as [|c t IH]; intros H; [reflexivity|]. cbn [split_lines].
  destruct (N.eqb c LF) eqn:E.
  - apply N.eqb_eq in E. exfalso. apply H. now left.
  - rewrite IH by (intros Hin; apply H; now right). reflexivity.
Qed.

Lemma split_lines_cons (s : str) : exists l ls, split_lines s = l :: ls.
Proof.
  induction s as [|c t (l & ls & IH)]; [now exists [], []|]. cbn [split_lines].
  destruct (N.eqb c LF); [now exists [], (split_lines t)|].
  rewrite IH. now exists (c :: l), ls.
Qed.

(** Splitting after a line without line feed. *)
Lemma split_lines_line (a b : str) :
  ~ In LF a -> split_lines (a ++ LF :: b) = a :: split_lines b.
Proof.
  induction a as [|c a IH]; intros H.
  - cbn [app split_lines]. now rewrite N.eqb_refl.
  - cbn [app split_lines]. destruct (N.eqb c LF) eqn:E.
    + apply N.eqb_eq in E. exfalso. apply H. now left.
    + rewrite IH by (intros Hin; apply H; now right). reflexivity.
Qed.

Lemma split_lines_app (a b : str) :
  split_lines (a ++ LF :: b) = split_lines a ++ split_lines b.
Proof.
  induction a as [|c a IH].
  - cbn [app split_lines]. now rewrite N.eqb_refl.
  - cbn [app split_lines]. destruct (N.eqb c LF); [now rewrite IH|].
    rewrite IH. destruct (split_lines_cons a) as (l & ls & ->). reflexivity.
Qed.

Lemma split_lines_join (ls : list str) :
  ls <> [] -> (forall l, In l ls -> ~ In LF l) -> split_lines (join [LF] ls) = ls.
Proof.
  induction ls as [|l ls IH]; intros Hne H; [congruence|].
  destruct ls as [|l2 ls].
  - cbn [join]. apply split_lines_plain. apply H. now left.
  - change (join [LF] (l :: l2 :: ls)) with (l ++ LF :: join [LF] (l2 :: ls)).
    rewrite split_lines_line by (apply H; now left).
    f_equal. apply IH; [discriminate|]. intros x Hx. apply H. now right.
Qed.

(** X21: splitting the stamped transcript at its line feeds gives back the
    rendered segments, one line per segment and in order: a stamp, a space
    and the decoded, trimmed text. *)
Theorem joinSegmentsWithTimestamps_lines (segments : list TranscriptSegment) :
  segments <> [] ->
  split_lines (joinSegmentsWithTimestamps segments)
  = map (fun s => u "[" ++ formatTimestamp (start s) ++ u "] "
                  ++ trim (decodeHtmlEntities (text s)))
        segments.
Proof.
  intros Hne. unfold joinSegmentsWithTimestamps. apply split_lines_join.
  - destruct segments; [congruence | discriminate].
  - intros l Hl. apply in_map_iff in Hl. destruct Hl as (s & <- & _).
    apply timestampedLine_no_LF.
Qed.

Lemma joinSegmentsWithTimestamps_lines_witness :
  split_lines (joinSegmentsWithTimestamps [segment "Hello" 0 2; segment "World" 2 2])
  = map (fun s => u "[" ++ formatTimestamp (start s) ++ u "] "
                  ++ trim (decodeHtmlEntities (text s)))
        [segment "Hello" 0 2; segment "World" 2 2].
Proof.
  apply (joinSegmentsWithTimestamps_lines [segment "Hello" 0 2; segment "World" 2 2]).
  discriminate.
Defined.

(** X22: the Markdown document has a fixed frame of lines around the
    transcript: for a title and an identifier without line feed, its lines
    are the heading with the title, an empty line, the line of the URL with
    the identifier, an empty line, a rule, an empty line, then the lines of
    the transcript, an empty line, a rule, an empty line and the closing
    line. *)
Theorem formatTranscriptAsMarkdown_lines (transcript videoId title : str) :
  ~ In LF title -> ~ In LF videoId ->
  split_lines (formatTranscriptAsMarkdown transcript videoId title)
  = [u "# " ++ title; []; u "**URL:** https://youtube.com/watch?v=" ++ videoId; [];
     u "---"; []]
    ++ split_lines transcript
    ++ [[]; u "---"; []; u "*Generated by FastyTranscript*"].
Proof.
  intros Ht Hv. unfold formatTranscriptAsMarkdown.
  assert (Hlit : forall w : string,
            forallb (fun c => negb (N.eqb c LF)) (u w) = true -> ~ In LF (u w)).
  { intros w H Hin. rewrite forallb_forall in H. apply H in Hin.
    rewrite N.eqb_refl in Hin. discriminate Hin. }
  assert (H1 : ~ In LF (u "# " ++ title)).
  { intros Hin. apply in_app_or in Hin. destruct Hin as [Hin|Hin]; [|now apply Ht].
    revert Hin. now apply Hlit. }
  assert (H2 : ~ In LF (u "**URL:** https://youtube.com/watch?v=" ++ videoId)).
  { intros Hin. apply in_app_or in Hin. destruct Hin as [Hin|Hin]; [|now apply Hv].
    revert Hin. now apply Hlit. }
  assert (Hnl : forall b, split_lines (LF :: b) = [] :: split_lines b)
    by (intros b; cbn [split_lines]; now rewrite N.eqb_refl).
  cbn [app].
  rewrite (app_assoc (u "# ") title), split_lines_line, Hnl by exact H1.
  rewrite (app_assoc (u "**URL:** https://youtube.com/watch?v=") videoId),
    split_lines_line, Hnl by exact H2.
  rewrite (split_lines_line (u "---")), Hnl by now apply Hlit.
  rewrite split_lines_app, Hnl.
  rewrite (split_lines_line (u "---")), Hnl by now apply Hlit.
  rewrite (split_lines_plain (u "*Generated by FastyTranscript*")) by now apply Hlit.
  reflexivity.
Qed.

Lemma formatTranscriptAsMarkdown_lines_witness :
  split_lines (formatTranscriptAsMarkdown (u "Hello World") (u "dQw4w9WgXcQ") (u "A title"))
  = [u "# " ++ u "A title"; [];
     u "**URL:** https://youtube.com/watch?v=" ++ u "dQw4w9WgXcQ"; []; u "---"; []]
    ++ split_lines (u "Hello World")
    ++ [[]; u "---"; []; u "*Generated by FastyTranscript*"].
Proof.
  apply (formatTranscriptAsMarkdown_lines (u "Hello World") (u "dQw4w9WgXcQ") (u "A title")).
  - intros Hc. vm_compute in Hc.
    repeat (destruct Hc as [Hc|Hc]; [discriminate Hc|]). exact Hc.
  - intros Hc. vm_compute in Hc.
    repeat (destruct Hc as [Hc|Hc]; [discriminate Hc|]). exact Hc.
Defined.

(** ** The strategies *)

Ltac io := unfold recover, andThen, perform, lift, pure, raise in *.

(** X7: fetchVideoTitle never fails and never gives an empty title: it
    makes one request; it returns the title the server sent when the
    request resolves, the response is ok, its body is readable and that
    title is not empty, and [YouTube Video <id>] in every other case
    (request refused, response not ok, body unreadable, title missing or
    empty). *)
Theorem fetchVideoTitle_never_fails (env : Net.Env) (videoId : str)
    (log : list Net.request) :
  (exists t,
     Net.fetchVideoTitle env videoId log
     = (Ok t, log ++ [Net.GetTitle (Net.oembedUrl videoId)])
     /\ t <> [])
  /\ (forall r d t,
        Net.oembed env (length log) (Net.oembedUrl videoId) = Resolved r ->
        Net.ok r = true -> Net.payload r = Resolved d ->
        Net.oembedTitle d = Some t -> t <> [] ->
        Net.fetchVideoTitle env videoId log
        = (Ok t, log ++ [Net.GetTitle (Net.oembedUrl videoId)]))
  /\ ((forall r d t,
         Net.oembed env (length log) (Net.oembedUrl videoId) = Resolved r ->
         Net.ok r = true -> Net.payload r = Resolved d ->
         Net.oembedTitle d = Some t -> t = []) ->
      Net.fetchVideoTitle env videoId log
      = (Ok (u "YouTube Video " ++ videoId),
         log ++ [Net.GetTitle (Net.oembedUrl videoId)])).
Proof.
  unfold Net.fetchVideoTitle. io.
  assert (Hd : Net.defaultTitle videoId <> []) by discriminate.
  change (u "YouTube Video " ++ videoId) with (Net.defaultTitle videoId).
  destruct (Net.oembed env (length log) (Net.oembedUrl videoId)) as [r|e] eqn:Er;
    cbn [settled]; [|split; [eauto|split; [discriminate|reflexivity]]].
  destruct (Net.ok r) eqn:Eok;
    [|split; [eauto|split; [intros r' d t Hr; inversion Hr; congruence|reflexivity]]].
  destruct (Net.payload r) as [d|e] eqn:Ep; cbn [settled];
    [|split; [eauto|split; [intros r' d t Hr; inversion Hr; congruence|reflexivity]]].
  destruct (Net.oembedTitle d) as [t|] eqn:Et;
    [|split; [eauto|split; [intros r' d' t Hr; inversion Hr; congruence|reflexivity]]].
  destruct (truthy t) eqn:Etr.
  - split; [|split].
    + exists t. split; [reflexivity | intros ->; discriminate Etr].
    + intros r' d' t' Hr Hok Hp Ht _. inversion Hr; subst r'.
      rewrite Ep in Hp. inversion Hp; subst d'. rewrite Et in Ht.
      inversion Ht; subst t'. reflexivity.
    + intros Hall. rewrite (Hall r d t eq_refl Eok Ep Et) in Etr. discriminate Etr.
  - destruct t; [|discriminate Etr]. split; [eauto|split; [|reflexivity]].
    intros r' d' t' Hr Hok Hp Ht Hne. inversion Hr; subst r'.
    rewrite Ep in Hp. inversion Hp; subst d'. rewrite Et in Ht.
    inversion Ht; subst t'. congruence.
Qed.

Lemma fetchVideoTitle_never_fails_witness :
  Net.fetchVideoTitle (titledEnv (Some (u "Never Gonna Give You Up")))
    (u "dQw4w9WgXcQ") []
  = (Ok (u "Never Gonna Give You Up"),
     [Net.GetTitle (Net.oembedUrl (u "dQw4w9WgXcQ"))])
  /\ Net.fetchVideoTitle (titledEnv (Some [])) (u "dQw4w9WgXcQ") []
     = (Ok (u "YouTube Video dQw4w9WgXcQ"),
        [Net.GetTitle (Net.oembedUrl (u "dQw4w9WgXcQ"))])
  /\ Net.fetchVideoTitle (sampleEnv [] []) (u "dQw4w9WgXcQ") []
     = (Ok (u "YouTube Video dQw4w9WgXcQ"),
        [Net.GetTitle (Net.oembedUrl (u "dQw4w9WgXcQ"))]).
Proof.
  split; [|split].
  - destruct (fetchVideoTitle_never_fails
                (titledEnv (Some (u "Never Gonna Give You Up"))) (u "dQw4w9WgXcQ") [])
      as (_ & H & _).
    apply (H (okResponse {| Net.oembedTitle := Some (u "Never Gonna Give You Up") |})
             {| Net.oembedTitle := Some (u "Never Gonna Give You Up") |}
             (u "Never Gonna Give You Up"));
      try reflexivity. discriminate.
  - destruct (fetchVideoTitle_never_fails (titledEnv (Some [])) (u "dQw4w9WgXcQ") [])
      as (_ & _ & H).
    apply H. intros r d t Hr _ Hp Ht. cbn in Hr. inversion Hr; subst r.
    cbn in Hp. inversion Hp; subst d. cbn in Ht. inversion Ht. reflexivity.
  - destruct (fetchVideoTitle_never_fails (sampleEnv [] []) (u "dQw4w9WgXcQ") [])
      as (_ & _ & H).
    apply H. intros r d t Hr. cbn in Hr. discriminate Hr.
Defined.

(** *** What a strategy returns *)

Lemma vttLine_sound acc line :
  Forall soundSegment acc -> Forall soundSegment (vttLine acc line).
Proof.
  intros H. unfold vttLine. destruct (vttSkipped (trim line)); [exact H|].
  destruct (truthy (trim (stripTags (trim line)))) eqn:E; [|exact H]. cbn [andb].
  destruct (negb _); [|exact H]. apply Forall_app. split; [exact H|].
  constructor; [|constructor]. split; [|split; discriminate].
  cbn [text]. intros Ht. rewrite Ht in E. discriminate E.
Qed.

Lemma vttSegments_sound subResp : Forall soundSegment (vttSegments subResp).
Proof.
  unfold vttSegments.
  assert (H : forall ls acc, Forall soundSegment acc ->
                Forall soundSegment (fold_left vttLine ls acc)).
  { induction ls as [|l ls IH]; intros acc Hacc; [exact Hacc|].
    cbn [fold_left]. apply IH. now apply vttLine_sound. }
  apply H. constructor.
Qed.

Lemma subtitleSegments_ok subResp segs :
  subtitleSegments subResp = Ok segs -> segs <> [] /\ Forall soundSegment segs.
Proof.
  unfold subtitleSegments. destruct (_ || _)%bool; [discriminate|].
  destruct (parseTranscriptXml subResp) as [xs| |] eqn:Ep; try discriminate.
  cbn [bind]. destruct xs as [|x xs].
  - destruct (includes (u "WEBVTT") subResp); [|discriminate].
    pose proof (vttSegments_sound subResp) as Hv.
    destruct (vttSegments subResp) as [|v vs]; [discriminate|].
    intros H. inversion H; subst segs. split; [discriminate | exact Hv].
  - intros H. inversion H; subst segs. split; [discriminate|].
    now apply parseTranscriptXml_sound in Ep.
Qed.

Lemma fetchCaptionTrack_ok env url ua log segs log' :
  Net.fetchCaptionTrack env url ua log = (Ok segs, log') ->
  segs <> [] /\ Forall soundSegment segs
  /\ log' = log ++ [Net.Get url [(u "User-Agent", ua)]].
Proof.
  unfold Net.fetchCaptionTrack. io.
  destruct (Net.http env (length log) url _) as [r|e]; cbn [settled]; [|discriminate].
  destruct (negb (Net.ok r)); [discriminate|].
  destruct (Net.payload r) as [xml|e]; cbn [settled]; [|discriminate].
  destruct (_ || _)%bool; [discriminate|].
  destruct (parseTranscriptXml xml) as [xs| |] eqn:Ep; try discriminate.
  destruct (Nat.eqb (length xs) 0) eqn:El; [discriminate|].
  intros H. inversion H; subst. split; [|split; [|reflexivity]].
  - intros ->. discriminate El.
  - now apply parseTranscriptXml_sound in Ep.
Qed.

(** The request log of a caption fetch, whatever comes back. *)
Lemma fetchCaptionTrack_log env url ua log :
  snd (Net.fetchCaptionTrack env url ua log) = log ++ [Net.Get url [(u "User-Agent", ua)]].
Proof.
  unfold Net.fetchCaptionTrack. io.
  destruct (Net.http env (length log) url _) as [r|e]; cbn [settled]; [|reflexivity].
  destruct (negb (Net.ok r)); [reflexivity|].
  destruct (Net.payload r) as [xml|e]; cbn [settled]; [|reflexivity].
  destruct (_ || _)%bool; [reflexivity|].
  destruct (parseTranscriptXml xml) as [xs| |]; try reflexivity.
  destruct (Nat.eqb (length xs) 0); reflexivity.
Qed.

Lemma fetchCaptionTrack_returns env url ua log :
  fst (Net.fetchCaptionTrack env url ua log) <> OutOfFuel.
Proof.
  unfold Net.fetchCaptionTrack. io.
  destruct (Net.http env (length log) url _) as [r|e]; cbn [settled]; [|discriminate].
  destruct (negb (Net.ok r)); [discriminate|].
  destruct (Net.payload r) as [xml|e]; cbn [settled]; [|discriminate].
  destruct (_ || _)%bool; [discriminate|].
  destruct (parseTranscriptXml_returns xml) as [xs ->].
  destruct (Nat.eqb (length xs) 0); discriminate.
Qed.

Lemma pickTrackUrl_cons t ts : exists url, pickTrackUrl (t :: ts) = Ok url.
Proof.
  unfold pickTrackUrl. destruct (find isEnglish (t :: ts)) as [en|]; eauto.
Qed.

(** One guarded attempt of the page strategy always comes back, with
    segments or without, after at most one request. *)
Lemma tryTracks_spec env tracks log :
  tracks <> OutOfFuel ->
  exists o log',
    Net.tryTracks env tracks log = (Ok o, log')
    /\ (forall segs, o = Some segs -> segs <> [] /\ Forall soundSegment segs)
    /\ (log' = log
        \/ exists url, log' = log ++ [Net.Get url [(u "User-Agent", Net.WEB_UA)]]).
Proof.
  intros Ht. unfold Net.tryTracks. io.
  destruct tracks as [[[|t ts]|]|e|]; try congruence;
    try (exists None, log; split; [reflexivity|]; split; [discriminate | now left]).
  destruct (pickTrackUrl_cons t ts) as [url ->].
  pose proof (fetchCaptionTrack_log env url Net.WEB_UA log) as Hlog.
  pose proof (fetchCaptionTrack_returns env url Net.WEB_UA log) as Hret.
  destruct (Net.fetchCaptionTrack env url Net.WEB_UA log) as [[segs|e|] log1] eqn:E;
    cbn [fst snd] in *; [| |congruence].
  - exists (Some segs), log1. split; [reflexivity|]. split.
    + intros segs' H. inversion H; subst segs'.
      apply fetchCaptionTrack_ok in E. tauto.
    + right. now exists url.
  - exists None, log1. split; [reflexivity|]. split; [discriminate|]. right. now exists url.
Qed.

Lemma settled_returns {A B : Type} (a : answer A) (g : A -> B) :
  (x <- settled a ;; Ok (g x)) <> OutOfFuel.
Proof. destruct a; discriminate. Qed.

Lemma fromMarker_spec env html log :
  exists o log',
    Net.fromMarker env html log = (Ok o, log')
    /\ (forall segs, o = Some segs -> segs <> [] /\ Forall soundSegment segs)
    /\ (log' = log
        \/ exists url, log' = log ++ [Net.Get url [(u "User-Agent", Net.WEB_UA)]]).
Proof.
  unfold Net.fromMarker.
  assert (Hnone : exists o log',
    @pure Net.request (option (list TranscriptSegment)) None log = (Ok o, log')
    /\ (forall segs, o = Some segs -> segs <> [] /\ Forall soundSegment segs)
    /\ (log' = log
        \/ exists url, log' = log ++ [Net.Get url [(u "User-Agent", Net.WEB_UA)]])).
  { exists None, log. split; [reflexivity|]. split; [discriminate | now left]. }
  destruct (search (length html) Net.markerRe html) as [[[before after] cs]|]; [|exact Hnone].
  destruct (extractJsonObject html _) as [jsonStr|]; [|exact Hnone].
  destruct (truthy jsonStr); [|exact Hnone].
  apply tryTracks_spec. apply settled_returns.
Qed.

Lemma fromCaptionsKey_spec env html log :
  exists o log',
    Net.fromCaptionsKey env html log = (Ok o, log')
    /\ (forall segs, o = Some segs -> segs <> [] /\ Forall soundSegment segs)
    /\ (log' = log
        \/ exists url, log' = log ++ [Net.Get url [(u "User-Agent", Net.WEB_UA)]]).
Proof.
  unfold Net.fromCaptionsKey.
  assert (Hnone : exists o log',
    @pure Net.request (option (list TranscriptSegment)) None log = (Ok o, log')
    /\ (forall segs, o = Some segs -> segs <> [] /\ Forall soundSegment segs)
    /\ (log' = log
        \/ exists url, log' = log ++ [Net.Get url [(u "User-Agent", Net.WEB_UA)]])).
  { exists None, log. split; [reflexivity|]. split; [discriminate | now left]. }
  destruct (split _ html) as [|p0 [|part1 ps]]; try exact Hnone.
  destruct (Z.eqb _ (-1)); [exact Hnone|].
  destruct (extractJsonObject part1 _) as [captionsJson|]; [|exact Hnone].
  destruct (truthy captionsJson); [|exact Hnone].
  apply tryTracks_spec. apply settled_returns.
Qed.

(** The page strategy, once the page has arrived and holds no captcha
    marker. *)
Lemma fetchTranscriptFromPage_body env videoId log r html :
  Net.http env (length log) (Net.watchUrl videoId)
    [(u "User-Agent", Net.WEB_UA); (u "Accept-Language", u "en-US,en;q=0.9")]
  = Resolved r ->
  Net.ok r = true -> Net.payload r = Resolved html ->
  includes (uq "class=`g-recaptcha`") html = false ->
  exists out rest,
    Net.fetchTranscriptFromPage env videoId log
    = (out, log ++ pageRequest videoId :: rest)
    /\ length rest <= 2
    /\ (forall e, In e rest -> exists url, e = Net.Get url [(u "User-Agent", Net.WEB_UA)])
    /\ ((exists segs, out = Ok segs /\ segs <> [] /\ Forall soundSegment segs)
        \/ (includes (uq "`playabilityStatus`:") html = false
            /\ out = Throw (u "Video is unavailable"))
        \/ (includes (uq "`playabilityStatus`:") html = true
            /\ out = Throw (u "Could not extract captions from page"))).
Proof.
  intros Hr Hok Hp Hc. unfold Net.fetchTranscriptFromPage. cbv zeta.
  unfold andThen at 1. unfold perform at 1. rewrite Hr. cbn [settled].
  rewrite Hok. cbn [negb]. unfold andThen at 1. unfold lift at 1.
  rewrite Hp. cbn [settled]. rewrite Hc.
  set (log1 := log ++ [_]).
  unfold andThen at 1.
  destruct (fromMarker_spec env html log1) as (o1 & l1 & -> & Ho1 & Hl1).
  assert (Hl1' : exists rest1, l1 = log ++ pageRequest videoId :: rest1
                   /\ length rest1 <= 1
                   /\ (forall e, In e rest1 ->
                         exists url, e = Net.Get url [(u "User-Agent", Net.WEB_UA)])).
  { destruct Hl1 as [->|[url ->]].
    - exists []. split; [reflexivity|]. split; [cbn; lia | intros e []].
    - exists [Net.Get url [(u "User-Agent", Net.WEB_UA)]]. subst log1.
      rewrite <- app_assoc. split; [reflexivity|]. split; [cbn; lia|].
      intros e [<-|[]]. now exists url. }
  destruct Hl1' as (rest1 & -> & Hlen1 & Hall1).
  destruct o1 as [segs|].
  - exists (Ok segs), rest1. split; [reflexivity|]. split; [lia|]. split; [exact Hall1|].
    left. exists segs. destruct (Ho1 segs eq_refl). auto.
  - unfold andThen at 1.
    destruct (fromCaptionsKey_spec env html (log ++ pageRequest videoId :: rest1))
      as (o2 & l2 & -> & Ho2 & Hl2).
    assert (Hl2' : exists rest2, l2 = log ++ pageRequest videoId :: rest2
                     /\ length rest2 <= 2
                     /\ (forall e, In e rest2 ->
                           exists url, e = Net.Get url [(u "User-Agent", Net.WEB_UA)])).
    { destruct Hl2 as [->|[url ->]].
      - exists rest1. split; [reflexivity|]. split; [lia | exact Hall1].
      - exists (rest1 ++ [Net.Get url [(u "User-Agent", Net.WEB_UA)]]).
        rewrite <- app_assoc. split; [reflexivity|]. split.
        + rewrite length_app. cbn [length]. lia.
        + intros e He. apply in_app_or in He. destruct He as [He|[<-|[]]];
            [now apply Hall1 | now exists url]. }
    destruct Hl2' as (rest2 & -> & Hlen2 & Hall2).
    destruct o2 as [segs|].
    + exists (Ok segs), rest2. split; [reflexivity|]. split; [lia|]. split; [exact Hall2|].
      left. exists segs. destruct (Ho2 segs eq_refl). auto.
    + destruct (includes (uq "`playabilityStatus`:") html) eqn:Epl; cbn [negb].
      * exists (Throw (u "Could not extract captions from page")), rest2.
        split; [reflexivity|]. split; [lia|]. split; [exact Hall2|]. right. right. auto.
      * exists (Throw (u "Video is unavailable")), rest2.
        split; [reflexivity|]. split; [lia|]. split; [exact Hall2|]. right. left. auto.
Qed.

(** X8: once the watch page has arrived with an ok status, the page
    strategy ends in one of four ways.  If the page holds the captcha marker
    it throws [Rate limited (captcha)] and makes no further request.
    Otherwise it makes at most two caption requests and either returns a
    non-empty list of segments or throws [Video is unavailable] (the page
    lacks the playabilityStatus key) or [Could not extract captions from
    page] (the page has it): what goes wrong in JSON.parse or in a caption
    request never surfaces. *)
Theorem fetchTranscriptFromPage_outcomes (env : Net.Env) (videoId : str)
    (log : list Net.request) (r : Net.Response str) (html : str) :
  Net.http env (length log) (Net.watchUrl videoId)
    [(u "User-Agent", Net.WEB_UA); (u "Accept-Language", u "en-US,en;q=0.9")]
  = Resolved r ->
  Net.ok r = true -> Net.payload r = Resolved html ->
  (includes (uq "class=`g-recaptcha`") html = true ->
   Net.fetchTranscriptFromPage env videoId log
   = (Throw (u "Rate limited (captcha)"), log ++ [pageRequest videoId]))
  /\ (includes (uq "class=`g-recaptcha`") html = false ->
      exists out rest,
        Net.fetchTranscriptFromPage env videoId log
        = (out, log ++ pageRequest videoId :: rest)
        /\ length rest <= 2
        /\ (forall e, In e rest ->
              exists url, e = Net.Get url [(u "User-Agent", Net.WEB_UA)])
        /\ ((exists segs, out = Ok segs /\ segs <> []
                          /\ forall s, In s segs ->
                               text s <> [] /\ start s <> NaN /\ duration s <> NaN)
            \/ (includes (uq "`playabilityStatus`:") html = false
                /\ out = Throw (u "Video is unavailable"))
            \/ (includes (uq "`playabilityStatus`:") html = true
                /\ out = Throw (u "Could not extract captions from page")))).
Proof.
  intros Hr Hok Hp. split.
  - intros Hc. unfold Net.fetchTranscriptFromPage. cbv zeta.
    unfold andThen at 1. unfold perform at 1. rewrite Hr. cbn [settled].
    rewrite Hok. cbn [negb]. unfold andThen at 1. unfold lift at 1.
    rewrite Hp. cbn [settled]. rewrite Hc. reflexivity.
  - intros Hc.
    destruct (fetchTranscriptFromPage_body env videoId log r html Hr Hok Hp Hc)
      as (out & rest & E & Hlen & Hall & Hout).
    exists out, rest. split; [exact E|]. split; [exact Hlen|]. split; [exact Hall|].
    destruct Hout as [(segs & -> & Hne & Hs)|Hout]; [|now right].
    left. exists segs. split; [reflexivity|]. split; [exact Hne|].
    rewrite Forall_forall in Hs. exact Hs.
Qed.

Lemma fetchTranscriptFromPage_outcomes_witness :
  Net.fetchTranscriptFromPage (sampleEnv [] (uq "<div class=`g-recaptcha`></div>"))
    (u "dQw4w9WgXcQ") []
  = (Throw (u "Rate limited (captcha)"), [] ++ [pageRequest (u "dQw4w9WgXcQ")]).
Proof.
  destruct (fetchTranscriptFromPage_outcomes
              (sampleEnv [] (uq "<div class=`g-recaptcha`></div>")) (u "dQw4w9WgXcQ") []
              (okResponse (uq "<div class=`g-recaptcha`></div>"))
              (uq "<div class=`g-recaptcha`></div>")
              eq_refl eq_refl eq_refl) as [H _].
  apply H. vm_compute. reflexivity.
Defined.

(** *** fetchTranscriptFromAndroid *)

Lemma fetchTranscriptFromAndroid_spec env videoId log :
  exists out rest,
    Net.fetchTranscriptFromAndroid env videoId log
    = (out, log ++ Net.PostPlayer Net.playerUrl Net.ANDROID_UA videoId :: rest)
    /\ out <> OutOfFuel
    /\ (rest = []
        \/ exists r data tracks url,
             Net.player env (length log) videoId = Resolved r
             /\ Net.ok r = true /\ Net.payload r = Resolved data
             /\ Net.tracksOf (Net.captions data) = Some tracks
             /\ tracks <> [] /\ pickTrackUrl tracks = Ok url
             /\ rest = [Net.Get url [(u "User-Agent", Net.ANDROID_UA)]])
    /\ (forall segs, out = Ok segs ->
          rest <> [] /\ segs <> [] /\ Forall soundSegment segs).
Proof.
  unfold Net.fetchTranscriptFromAndroid.
  unfold andThen at 1. unfold perform at 1.
  assert (Hfail : forall e : str,
    exists out rest,
      (@Throw (list TranscriptSegment) e,
       log ++ [Net.PostPlayer Net.playerUrl Net.ANDROID_UA videoId])
      = (out, log ++ Net.PostPlayer Net.playerUrl Net.ANDROID_UA videoId :: rest)
      /\ out <> OutOfFuel
      /\ (rest = []
          \/ exists r data tracks url,
               Net.player env (length log) videoId = Resolved r
               /\ Net.ok r = true /\ Net.payload r = Resolved data
               /\ Net.tracksOf (Net.captions data) = Some tracks
               /\ tracks <> [] /\ pickTrackUrl tracks = Ok url
               /\ rest = [Net.Get url [(u "User-Agent", Net.ANDROID_UA)]])
      /\ (forall segs, out = Ok segs ->
            rest <> [] /\ segs <> [] /\ Forall soundSegment segs)).
  { intros e. exists (Throw e), []. split; [reflexivity|]. split; [discriminate|].
    split; [now left | discriminate]. }
  destruct (Net.player env (length log) videoId) as [r|e] eqn:Er; cbn [settled];
    [|apply Hfail].
  destruct (Net.ok r) eqn:Eok; cbn [negb]; [|apply Hfail].
  unfold andThen at 1. unfold lift at 1.
  destruct (Net.payload r) as [data|e] eqn:Ep; cbn [settled]; [|apply Hfail].
  destruct (Net.captions data) as [c|] eqn:Ec; [|apply Hfail].
  destruct (Net.playerCaptionsTracklistRenderer c) as [tl|] eqn:Etl; [|apply Hfail].
  destruct (Net.captionTracks tl) as [[|t ts]|] eqn:Et; try apply Hfail.
  destruct (pickTrackUrl_cons t ts) as [url Hurl].
  unfold andThen at 1. unfold lift at 1. rewrite Hurl.
  set (log1 := log ++ [_]).
  pose proof (fetchCaptionTrack_log env url Net.ANDROID_UA log1) as Hlog.
  pose proof (fetchCaptionTrack_returns env url Net.ANDROID_UA log1) as Hret.
  destruct (Net.fetchCaptionTrack env url Net.ANDROID_UA log1) as [out log2] eqn:E.
  cbn [fst snd] in Hlog, Hret. subst log2 log1.
  exists out, [Net.Get url [(u "User-Agent", Net.ANDROID_UA)]].
  rewrite <- app_assoc. split; [reflexivity|]. split; [exact Hret|]. split.
  - right. exists r, data, (t :: ts), url.
    repeat split; try assumption; try discriminate.
    unfold Net.tracksOf. now rewrite Ec, Etl.
  - intros segs ->. apply fetchCaptionTrack_ok in E. split; [discriminate | tauto].
Qed.

(** X9: the Android strategy always comes back, after one or two requests.
    The first is the player request.  A second one is made only when the
    player response is ok and lists at least one caption track; it asks, with
    the Android user agent, for the location pickTrackUrl chooses among the
    listed tracks.  The strategy returns segments only after that second
    request, and then a non-empty list. *)
Theorem fetchTranscriptFromAndroid_requests (env : Net.Env) (videoId : str)
    (log : list Net.request) :
  exists out rest,
    Net.fetchTranscriptFromAndroid env videoId log
    = (out, log ++ Net.PostPlayer Net.playerUrl Net.ANDROID_UA videoId :: rest)
    /\ out <> OutOfFuel
    /\ (rest = []
        \/ exists r data tracks url,
             Net.player env (length log) videoId = Resolved r
             /\ Net.ok r = true /\ Net.payload r = Resolved data
             /\ Net.tracksOf (Net.captions data) = Some tracks
             /\ tracks <> [] /\ pickTrackUrl tracks = Ok url
             /\ rest = [Net.Get url [(u "User-Agent", Net.ANDROID_UA)]])
    /\ (forall segs, out = Ok segs -> rest <> [] /\ segs <> []).
Proof.
  destruct (fetchTranscriptFromAndroid_spec env videoId log)
    as (out & rest & E & Hret & Hrest & Hok).
  exists out, rest. split; [exact E|]. split; [exact Hret|]. split; [exact Hrest|].
  intros segs Hs. destruct (Hok segs Hs) as (H1 & H2 & _). now split.
Qed.

(** *** What the three strategies return *)

Lemma fetchTranscriptFromPage_ok env videoId log segs log' :
  Net.fetchTranscriptFromPage env videoId log = (Ok segs, log') ->
  segs <> [] /\ Forall soundSegment segs.
Proof.
  intros H.
  destruct (Net.http env (length log) (Net.watchUrl videoId)
              [(u "User-Agent", Net.WEB_UA); (u "Accept-Language", u "en-US,en;q=0.9")])
    as [r|e] eqn:Er.
  2: { unfold Net.fetchTranscriptFromPage in H. cbv zeta in H.
       unfold andThen at 1 in H. unfold perform at 1 in H. rewrite Er in H.
       discriminate H. }
  destruct (Net.ok r) eqn:Eok.
  2: { unfold Net.fetchTranscriptFromPage in H. cbv zeta in H.
       unfold andThen at 1 in H. unfold perform at 1 in H. rewrite Er in H.
       cbn [settled] in H. rewrite Eok in H. discriminate H. }
  destruct (Net.payload r) as [html|e] eqn:Ep.
  2: { unfold Net.fetchTranscriptFromPage in H. cbv zeta in H.
       unfold andThen at 1 in H. unfold perform at 1 in H. rewrite Er in H.
       cbn [settled] in H. rewrite Eok in H. cbn [negb] in H.
       unfold andThen at 1 in H. unfold lift at 1 in H. rewrite Ep in H.
       discriminate H. }
  destruct (includes (uq "class=`g-recaptcha`") html) eqn:Ec.
  { unfold Net.fetchTranscriptFromPage in H. cbv zeta in H.
    unfold andThen at 1 in H. unfold perform at 1 in H. rewrite Er in H.
    cbn [settled] in H. rewrite Eok in H. cbn [negb] in H.
    unfold andThen at 1 in H. unfold lift at 1 in H. rewrite Ep in H.
    cbn [settled] in H. rewrite Ec in H. discriminate H. }
  destruct (fetchTranscriptFromPage_body env videoId log r html Er Eok Ep Ec)
    as (out & rest & E & _ & _ & Hout).
  rewrite E in H. inversion H; subst out.
  destruct Hout as [(segs' & Hs & Hne & Hsound)|[[_ Hs]|[_ Hs]]]; try discriminate Hs.
  inversion Hs; subst segs'. now split.
Qed.

Lemma fetchTranscriptFromYtDlp_ok env videoId log segs log' :
  Net.fetchTranscriptFromYtDlp env videoId log = (Ok segs, log') ->
  segs <> [] /\ Forall soundSegment segs.
Proof.
  unfold Net.fetchTranscriptFromYtDlp. io.
  destruct (Net.execSync env (length log) _) as [out|e]; cbn [settled]; [|discriminate].
  destruct (Net.parseInfo env out) as [info|e]; cbn [settled]; [|discriminate].
  destruct (Net.subtitleSource info) as [[|s0 ss]|]; try discriminate.
  destruct (Net.subtitleTrack (s0 :: ss)) as [track|]; [|discriminate].
  destruct (negb (truthy (Net.url track))); [discriminate|].
  destruct (Net.execSync env _ (Net.curlCommand (Net.url track))) as [subResp|e];
    cbn [settled]; [|discriminate].
  destruct (subtitleSegments subResp) as [xs| |] eqn:Es; try discriminate.
  intros H. inversion H; subst. now apply (subtitleSegments_ok subResp).
Qed.

(** X10: whatever the outside answers, a strategy that returns, returns a
    list of segments that is not empty, in which every segment has a text
    that is not empty and a start and a duration that are not NaN. *)
Theorem strategies_return_segments (env : Net.Env) (videoId : str)
    (log log' : list Net.request) (segs : list TranscriptSegment) :
  Net.fetchTranscriptFromAndroid env videoId log = (Ok segs, log')
  \/ Net.fetchTranscriptFromPage env videoId log = (Ok segs, log')
  \/ Net.fetchTranscriptFromYtDlp env videoId log = (Ok segs, log') ->
  segs <> []
  /\ forall s, In s segs -> text s <> [] /\ start s <> NaN /\ duration s <> NaN.
Proof.
  intros H.
  assert (Hs : segs <> [] /\ Forall soundSegment segs).
  { destruct H as [H|[H|H]].
    - destruct (fetchTranscriptFromAndroid_spec env videoId log)
        as (out & rest & E & _ & _ & Hok).
      rewrite E in H. injection H as Hout _. subst out.
      destruct (Hok segs eq_refl) as (_ & Hne & Hsound). now split.
    - now apply fetchTranscriptFromPage_ok in H.
    - now apply fetchTranscriptFromYtDlp_ok in H. }
  destruct Hs as [Hne Hs]. split; [exact Hne|]. rewrite Forall_forall in Hs. exact Hs.
Qed.

Lemma strategies_return_segments_witness :
  [segment "Hello" 0 2; segment "World" 2 2] <> []
  /\ forall s, In s [segment "Hello" 0 2; segment "World" 2 2] ->
       text s <> [] /\ start s <> NaN /\ duration s <> NaN.
Proof.
  apply (strategies_return_segments (sampleEnv [track "en"] helloWorld) (u "dQw4w9WgXcQ")
           []
           [Net.PostPlayer Net.playerUrl Net.ANDROID_UA (u "dQw4w9WgXcQ");
            Net.Get (baseUrl (track "en")) [(u "User-Agent", Net.ANDROID_UA)]]).
  left. vm_compute. reflexivity.
Defined.

(** *** fetchTranscriptFromYtDlp *)

Lemma find_split {A : Type} (p : A -> bool) (l : list A) (x : A) :
  find p l = Some x ->
  exists before after, l = before ++ x :: after /\ p x = true
    /\ forall y, In y before -> p y = false.
Proof.
  intros H. apply find_first in H. destruct H as (before & after & -> & Hx & Hb).
  exists before, after. split; [reflexivity|]. split; [exact Hx|].
  intros y Hy. rewrite forallb_forall in Hb. apply Hb in Hy. now destruct (p y).
Qed.

Lemma find_none_all {A : Type} (p : A -> bool) (l : list A) :
  find p l = None -> forall y, In y l -> p y = false.
Proof.
  intros H y Hy. apply find_none_forallb in H. rewrite forallb_forall in H.
  apply H in Hy. now destruct (p y).
Qed.

(** X11: from a non-empty list of subtitle tracks the yt-dlp strategy takes
    the track of the best-ranked format present, in the order srv1, srv2,
    srv3, vtt, anything else; among the tracks of that format it takes the
    first, and when no track has one of the four formats it takes the first
    track of the list. *)
Theorem subtitleTrack_prefers (subSource : list Net.SubtitleTrack) :
  subSource <> [] ->
  exists before t after,
    subSource = before ++ t :: after
    /\ Net.subtitleTrack subSource = Some t
    /\ (forall s, In s subSource -> extRank t <= extRank s)
    /\ (forall s, In s before -> extRank t < 4 -> extRank s <> extRank t)
    /\ (extRank t = 4 -> before = []).
Proof.
  intros Hne. unfold Net.subtitleTrack.
  destruct (find (Net.hasExt "srv1") subSource) as [t|] eqn:E1.
  { apply find_split in E1. destruct E1 as (before & after & -> & Ht & Hb).
    exists before, t, after. cbn [Net.orElse].
    assert (Hr : extRank t = 0) by (unfold extRank; now rewrite Ht).
    rewrite Hr. repeat split; try lia.
    intros s Hs _. unfold extRank. rewrite (Hb s Hs).
    repeat match goal with |- context [if ?b then _ else _] => destruct b end; lia. }
  pose proof (find_none_all _ _ E1) as N1. cbn [Net.orElse].
  destruct (find (Net.hasExt "srv2") subSource) as [t|] eqn:E2.
  { apply find_split in E2. destruct E2 as (before & after & -> & Ht & Hb).
    exists before, t, after. cbn [Net.orElse].
    assert (Hr : extRank t = 1)
      by (unfold extRank; rewrite (N1 t) by (apply in_or_app; right; now left);
          now rewrite Ht).
    rewrite Hr. repeat split; try lia.
    - intros s Hs. unfold extRank. rewrite (N1 s Hs).
      repeat match goal with |- context [if ?b then _ else _] => destruct b end; lia.
    - intros s Hs _. unfold extRank.
      rewrite (N1 s) by (apply in_or_app; now left). rewrite (Hb s Hs).
      repeat match goal with |- context [if ?b then _ else _] => destruct b end; lia. }
  pose proof (find_none_all _ _ E2) as N2. cbn [Net.orElse].
  destruct (find (Net.hasExt "srv3") subSource) as [t|] eqn:E3.
  { apply find_split in E3. destruct E3 as (before & after & -> & Ht & Hb).
    exists before, t, after. cbn [Net.orElse].
    assert (Hin : In t (before ++ t :: after)) by (apply in_or_app; right; now left).
    assert (Hr : extRank t = 2)
      by (unfold extRank; now rewrite (N1 t Hin), (N2 t Hin), Ht).
    rewrite Hr. repeat split; try lia.
    - intros s Hs. unfold extRank. rewrite (N1 s Hs), (N2 s Hs).
      repeat match goal with |- context [if ?b then _ else _] => destruct b end; lia.
    - intros s Hs _. unfold extRank.
      assert (Hs' : In s (before ++ t :: after)) by (apply in_or_app; now left).
      rewrite (N1 s Hs'), (N2 s Hs'), (Hb s Hs).
      repeat match goal with |- context [if ?b then _ else _] => destruct b end; lia. }
  pose proof (find_none_all _ _ E3) as N3. cbn [Net.orElse].
  destruct (find (Net.hasExt "vtt") subSource) as [t|] eqn:E4.
  { apply find_split in E4. destruct E4 as (before & after & -> & Ht & Hb).
    exists before, t, after. cbn [Net.orElse].
    assert (Hin : In t (before ++ t :: after)) by (apply in_or_app; right; now left).
    assert (Hr : extRank t = 3)
      by (unfold extRank; now rewrite (N1 t Hin), (N2 t Hin), (N3 t Hin), Ht).
    rewrite Hr. repeat split; try lia.
    - intros s Hs. unfold extRank. rewrite (N1 s Hs), (N2 s Hs), (N3 s Hs).
      repeat match goal with |- context [if ?b then _ else _] => destruct b end; lia.
    - intros s Hs _. unfold extRank.
      assert (Hs' : In s (before ++ t :: after)) by (apply in_or_app; now left).
      rewrite (N1 s Hs'), (N2 s Hs'), (N3 s Hs'), (Hb s Hs). lia. }
  pose proof (find_none_all _ _ E4) as N4. cbn [Net.orElse].
  destruct subSource as [|t rest]; [congruence|].
  exists [], t, rest. cbn [hd_error app].
  assert (Hall : forall s, In s (t :: rest) -> extRank s = 4)
    by (intros s Hs; unfold extRank; now rewrite (N1 s Hs), (N2 s Hs), (N3 s Hs), (N4 s Hs)).
  rewrite (Hall t (or_introl eq_refl)). repeat split; try lia.
  intros s Hs. rewrite (Hall s Hs). lia.
Qed.

Lemma subtitleTrack_prefers_witness :
  exists before t after,
    [ {| Net.url := u "a"; Net.ext := u "vtt" |};
      {| Net.url := u "b"; Net.ext := u "srv3" |};
      {| Net.url := u "c"; Net.ext := u "srv1" |} ] = before ++ t :: after
    /\ Net.subtitleTrack
         [ {| Net.url := u "a"; Net.ext := u "vtt" |};
           {| Net.url := u "b"; Net.ext := u "srv3" |};
           {| Net.url := u "c"; Net.ext := u "srv1" |} ] = Some t
    /\ (forall s, In s [ {| Net.url := u "a"; Net.ext := u "vtt" |};
                         {| Net.url := u "b"; Net.ext := u "srv3" |};
                         {| Net.url := u "c"; Net.ext := u "srv1" |} ] ->
          extRank t <= extRank s)
    /\ (forall s, In s before -> extRank t < 4 -> extRank s <> extRank t)
    /\ (extRank t = 4 -> before = []).
Proof.
  apply (subtitleTrack_prefers
           [ {| Net.url := u "a"; Net.ext := u "vtt" |};
             {| Net.url := u "b"; Net.ext := u "srv3" |};
             {| Net.url := u "c"; Net.ext := u "srv1" |} ]).
  discriminate.
Defined.

Lemma lookup_In key obj v : Net.lookup key obj = Some v -> In v (map snd obj).
Proof.
  induction obj as [|[k w] obj IH]; [discriminate|]. cbn [Net.lookup map snd].
  destruct (str_eqb k key); [intros H; inversion H; now left | intros H; right; auto].
Qed.

(** The choice among the lists of one object: the list of [en], else the
    list of [en-US], else the first list. *)
Lemma preferred_spec (obj : Net.Sources) k v rest :
  obj = (k, v) :: rest ->
  exists w,
    Net.orElse (Net.lookup (u "en") obj)
      (Net.orElse (Net.lookup (u "en-US") obj) (Net.firstValue obj)) = Some w
    /\ In w (map snd obj)
    /\ (Net.lookup (u "en") obj = Some w
        \/ (Net.lookup (u "en") obj = None /\ Net.lookup (u "en-US") obj = Some w)
        \/ (Net.lookup (u "en") obj = None /\ Net.lookup (u "en-US") obj = None
            /\ w = v)).
Proof.
  intros ->. destruct (Net.lookup (u "en") ((k, v) :: rest)) as [w|] eqn:E1.
  - exists w. split; [reflexivity|]. split; [now apply lookup_In in E1 | now left].
  - destruct (Net.lookup (u "en-US") ((k, v) :: rest)) as [w|] eqn:E2.
    + exists w. split; [reflexivity|]. split; [now apply lookup_In in E2 | auto].
    + exists v. split; [reflexivity|]. split; [now left | auto].
Qed.

(** X12: the yt-dlp strategy takes its subtitle tracks from the manual
    subtitles whenever the metadata lists any manual subtitles at all: the
    list of [en], else the list of [en-US], else the first list, even when
    the list taken is empty.  The automatic captions are read, in the same
    order, only when there are no manual subtitles, and no list is found only
    when there are neither. *)
Theorem subtitleSource_priority (info : Net.Info) :
  let subs := match Net.subtitles info with Some s => s | None => [] end in
  let autoCaps := match Net.automatic_captions info with Some s => s | None => [] end in
  (forall k v rest, subs = (k, v) :: rest ->
     exists w, Net.subtitleSource info = Some w /\ In w (map snd subs)
       /\ (Net.lookup (u "en") subs = Some w
           \/ (Net.lookup (u "en") subs = None /\ Net.lookup (u "en-US") subs = Some w)
           \/ (Net.lookup (u "en") subs = None /\ Net.lookup (u "en-US") subs = None
               /\ w = v)))
  /\ (subs = [] -> forall k v rest, autoCaps = (k, v) :: rest ->
        exists w, Net.subtitleSource info = Some w /\ In w (map snd autoCaps)
          /\ (Net.lookup (u "en") autoCaps = Some w
              \/ (Net.lookup (u "en") autoCaps = None
                  /\ Net.lookup (u "en-US") autoCaps = Some w)
              \/ (Net.lookup (u "en") autoCaps = None
                  /\ Net.lookup (u "en-US") autoCaps = None /\ w = v)))
  /\ (subs = [] -> autoCaps = [] -> Net.subtitleSource info = None).
Proof.
  cbv zeta. unfold Net.subtitleSource. cbv zeta.
  set (subs := match Net.subtitles info with Some s => s | None => [] end).
  set (autoCaps := match Net.automatic_captions info with Some s => s | None => [] end).
  split; [|split].
  - intros k v rest E. destruct (preferred_spec subs k v rest E) as (w & Hw & Hin & Hc).
    exists w. split; [|now split].
    destruct (Net.lookup (u "en") subs) as [w1|]; [exact Hw|].
    destruct (Net.lookup (u "en-US") subs) as [w2|]; [exact Hw|].
    cbn [Net.orElse] in Hw |- *. now rewrite Hw.
  - intros E k v rest Ea. rewrite E. cbn [Net.lookup Net.firstValue Net.orElse].
    destruct (preferred_spec autoCaps k v rest Ea) as (w & Hw & Hin & Hc).
    exists w. now split.
  - intros E Ea. rewrite E, Ea. reflexivity.
Qed.

Lemma subtitleSource_priority_witness :
  exists w,
    Net.subtitleSource
      {| Net.subtitles := Some [(u "fr", [{| Net.url := u "f"; Net.ext := u "vtt" |}]);
                                (u "en", [])];
         Net.automatic_captions :=
           Some [(u "en", [{| Net.url := u "a"; Net.ext := u "srv1" |}])] |}
    = Some w
    /\ w = [].
Proof.
  destruct (subtitleSource_priority
              {| Net.subtitles :=
                   Some [(u "fr", [{| Net.url := u "f"; Net.ext := u "vtt" |}]);
                         (u "en", [])];
                 Net.automatic_captions :=
                   Some [(u "en", [{| Net.url := u "a"; Net.ext := u "srv1" |}])] |})
    as (H & _).
  destruct (H (u "fr") [{| Net.url := u "f"; Net.ext := u "vtt" |}] [(u "en", [])] eq_refl)
    as (w & Hw & _ & Hc).
  exists w. split; [exact Hw|].
  destruct Hc as [Hc|[[Hc _]|[Hc _]]]; vm_compute in Hc; congruence.
Defined.

(** X13: for an identifier that extractVideoId returned, the command line
    of the yt-dlp strategy is the fixed text around the identifier, the
    identifier holds only letters, digits, hyphens and underscores, and so the
    only double quotes of the command are the two that enclose the URL. *)
Theorem ytDlpCommand_quoted (s id : str) :
  extractVideoId s = Some id ->
  Net.ytDlpCommand id
  = uq "yt-dlp --skip-download --dump-json -- `" ++ Net.watchUrl id ++ uq "` 2>/dev/null"
  /\ (forall c, In c id -> isIdChar c = true)
  /\ count_occ N.eq_dec (Net.ytDlpCommand id) DQ = 2.
Proof.
  intros H. apply extractVideoId_sound in H. destruct H as [_ Hid].
  rewrite forallb_forall in Hid. split; [|split; [exact Hid|]].
  - unfold Net.ytDlpCommand, Net.watchUrl.
    change (uq "yt-dlp --skip-download --dump-json -- `https://www.youtube.com/watch?v=")
      with (uq "yt-dlp --skip-download --dump-json -- `"
            ++ u "https://www.youtube.com/watch?v=").
    now rewrite <- !app_assoc.
  - unfold Net.ytDlpCommand.
    assert (H0 : @count_occ N N.eq_dec id DQ = 0).
    { apply count_occ_not_In. intros Hin. apply Hid in Hin. discriminate Hin. }
    rewrite !(@count_occ_app N N.eq_dec), H0. reflexivity.
Qed.

Lemma ytDlpCommand_quoted_witness :
  Net.ytDlpCommand (u "dQw4w9WgXcQ")
  = uq "yt-dlp --skip-download --dump-json -- `" ++ Net.watchUrl (u "dQw4w9WgXcQ")
    ++ uq "` 2>/dev/null"
  /\ (forall c, In c (u "dQw4w9WgXcQ") -> isIdChar c = true)
  /\ count_occ N.eq_dec (Net.ytDlpCommand (u "dQw4w9WgXcQ")) DQ = 2.
Proof.
  apply (ytDlpCommand_quoted (u "https://youtu.be/dQw4w9WgXcQ") (u "dQw4w9WgXcQ")).
  vm_compute. reflexivity.
Defined.

(** *** The marker of the page strategy *)

Lemma markerRe_inv n t s' m :
  match_here n Net.markerRe t = Some (s', m) ->
  exists w1 w2,
    t = u "ytInitialPlayerResponse" ++ w1 ++ u "=" ++ w2 ++ chr "{" :: s'
    /\ forallb isSpace w1 = true /\ forallb isSpace w2 = true.
Proof.
  unfold match_here, Net.markerRe. cbn [seqs]. intros H.
  peel_lit H s1. rewrite ?rmatch_seq in H. rewrite rmatch_star_greedy in H.
  apply greedy_run_inv in H. destruct H as (w1 & s2 & -> & Hw1 & H).
  peel_lit H s3. rewrite ?rmatch_seq in H. rewrite rmatch_star_greedy in H.
  apply greedy_run_inv in H. destruct H as (w2 & s4 & -> & Hw2 & H).
  apply rmatch_lit_inv in H. destruct H as (s5 & -> & H). inversion H; subst s' m.
  exists w1, w2. now repeat split.
Qed.

Lemma indexOf_at_skip (a rest : str) :
  ~ In (chr "{") a ->
  forall i, indexOf_at (u "{") (a ++ chr "{" :: rest) i = Z.of_nat (i + length a).
Proof.
  intros Ha. induction a as [|c a IH]; intros i.
  - cbn [app length]. destruct rest; cbn; rewrite Nat.add_0_r; reflexivity.
  - cbn [app indexOf_at]. 
    assert (Hc : startsWith (u "{") (c :: a ++ chr "{" :: rest) = false).
    { change (startsWith (u "{") (c :: a ++ chr "{" :: rest))
        with (N.eqb 123 c && true)%bool.
      destruct (N.eqb 123 c) eqn:E; [|reflexivity].
      apply N.eqb_eq in E. exfalso. apply Ha. left. now rewrite <- E. }
    rewrite Hc. rewrite IH by (intros Hin; apply Ha; now right).
    cbn [length]. f_equal. lia.
Qed.

Lemma spaces_no_brace w : forallb isSpace w = true -> ~ In (chr "{") w.
Proof.
  intros H Hin. rewrite forallb_forall in H. apply H in Hin. discriminate Hin.
Qed.

Lemma extractJsonObject_skipn s i :
  extractJsonObject s (Z.of_nat i) = extractJsonObject (skipn i s) 0.
Proof.
  unfold extractJsonObject.
  replace (Z.of_nat i <? 0)%Z with false by (symmetry; apply Z.ltb_ge; lia).
  now rewrite Nat2Z.id.
Qed.

(** X14: when the page matches the marker, the brace that [indexOf] finds
    from the position of the match is the brace that ends the match: no
    other opening brace lies between the two, so the page strategy always
    runs extractJsonObject on the text that starts at the marker's own
    brace. *)
Theorem marker_brace (html before after : str) (cs : caps) :
  search (length html) Net.markerRe html = Some (before, after, cs) ->
  exists gap,
    html = before ++ gap ++ chr "{" :: after
    /\ ~ In (chr "{") gap
    /\ indexOf (u "{") html (length before) = Z.of_nat (length before + length gap)
    /\ extractJsonObject html (indexOf (u "{") html (length before))
       = extractJsonObject (chr "{" :: after) 0.
Proof.
  intros H. apply search_found in H. destruct H as (t & -> & Hm & _).
  apply markerRe_inv in Hm. destruct Hm as (w1 & w2 & -> & Hw1 & Hw2).
  set (gap := u "ytInitialPlayerResponse" ++ w1 ++ u "=" ++ w2).
  assert (Hgap : ~ In (chr "{") gap).
  { subst gap. intros Hin. apply in_app_or in Hin. destruct Hin as [Hin|Hin].
    - vm_compute in Hin. repeat (destruct Hin as [Hin|Hin]; [discriminate Hin|]). exact Hin.
    - apply in_app_or in Hin. destruct Hin as [Hin|Hin];
        [now apply (spaces_no_brace w1 Hw1)|].
      apply in_app_or in Hin. destruct Hin as [Hin|Hin];
        [|now apply (spaces_no_brace w2 Hw2)].
      destruct Hin as [Hin|[]]. discriminate Hin. }
  assert (E : u "ytInitialPlayerResponse" ++ w1 ++ u "=" ++ w2 ++ chr "{" :: after
              = gap ++ chr "{" :: after)
    by (subst gap; now rewrite <- !app_assoc).
  rewrite E. exists gap. split; [reflexivity|]. split; [exact Hgap|].
  assert (Hidx : indexOf (u "{") (before ++ gap ++ chr "{" :: after) (length before)
                 = Z.of_nat (length before + length gap)).
  { unfold indexOf. rewrite Nat.min_l by (rewrite length_app; lia).
    rewrite skipn_length_app. now apply indexOf_at_skip. }
  split; [exact Hidx|]. rewrite Hidx, extractJsonObject_skipn.
  replace (skipn (length before + length gap) (before ++ gap ++ chr "{" :: after))
    with (chr "{" :: after); [reflexivity|].
  rewrite <- (skipn_length_app gap (chr "{" :: after)) at 1.
  rewrite <- (skipn_length_app before (gap ++ chr "{" :: after)) at 1.
  rewrite skipn_skipn. f_equal. lia.
Qed.

Lemma marker_brace_witness :
  exists gap,
    u "var ytInitialPlayerResponse = {};" = u "var " ++ gap ++ chr "{" :: u "};"
    /\ ~ In (chr "{") gap
    /\ indexOf (u "{") (u "var ytInitialPlayerResponse = {};") (length (u "var "))
       = Z.of_nat (length (u "var ") + length gap)
    /\ extractJsonObject (u "var ytInitialPlayerResponse = {};")
         (indexOf (u "{") (u "var ytInitialPlayerResponse = {};") (length (u "var ")))
       = extractJsonObject (chr "{" :: u "};") 0.
Proof.
  apply (marker_brace (u "var ytInitialPlayerResponse = {};") (u "var ") (u "};") []).
  vm_compute. reflexivity.
Defined.

Lemma subtitleSegments_returns subResp : subtitleSegments subResp <> OutOfFuel.
Proof.
  unfold subtitleSegments. destruct (_ || _)%bool; [discriminate|].
  destruct (parseTranscriptXml_returns subResp) as [xs ->]. cbn [bind].
  destruct xs; [|discriminate].
  destruct (includes (u "WEBVTT") subResp); [|discriminate].
  destruct (vttSegments subResp); discriminate.
Qed.

(** X25: the yt-dlp strategy always comes back, after one or two
    subprocesses.  The first is the yt-dlp command for the identifier.  The
    second is run only when the metadata parse and give a non-empty list of
    subtitle tracks whose chosen track has a location that is not empty; it
    is the curl command for that location.  The strategy returns segments
    only after that second subprocess, and then a non-empty list. *)
Theorem fetchTranscriptFromYtDlp_requests (env : Net.Env) (videoId : str)
    (log : list Net.request) :
  exists out rest,
    Net.fetchTranscriptFromYtDlp env videoId log
    = (out, log ++ Net.ExecSync (Net.ytDlpCommand videoId) :: rest)
    /\ out <> OutOfFuel
    /\ (rest = []
        \/ exists meta info subSource track,
             Net.execSync env (length log) (Net.ytDlpCommand videoId) = Resolved meta
             /\ Net.parseInfo env meta = Resolved info
             /\ Net.subtitleSource info = Some subSource
             /\ Net.subtitleTrack subSource = Some track
             /\ Net.url track <> []
             /\ rest = [Net.ExecSync (Net.curlCommand (Net.url track))])
    /\ (forall segs, out = Ok segs -> rest <> [] /\ segs <> []).
Proof.
  unfold Net.fetchTranscriptFromYtDlp. io.
  assert (Hfail : forall e : str,
    exists out rest,
      (@Throw (list TranscriptSegment) e,
       log ++ [Net.ExecSync (Net.ytDlpCommand videoId)])
      = (out, log ++ Net.ExecSync (Net.ytDlpCommand videoId) :: rest)
      /\ out <> OutOfFuel
      /\ (rest = []
          \/ exists meta info subSource track,
               Net.execSync env (length log) (Net.ytDlpCommand videoId) = Resolved meta
               /\ Net.parseInfo env meta = Resolved info
               /\ Net.subtitleSource info = Some subSource
               /\ Net.subtitleTrack subSource = Some track
               /\ Net.url track <> []
               /\ rest = [Net.ExecSync (Net.curlCommand (Net.url track))])
      /\ (forall segs, out = Ok segs -> rest <> [] /\ segs <> [])).
  { intros e. exists (Throw e), []. split; [reflexivity|]. split; [discriminate|].
    split; [now left | discriminate]. }
  destruct (Net.execSync env (length log) (Net.ytDlpCommand videoId)) as [meta|e] eqn:Em;
    cbn [settled]; [|apply Hfail].
  destruct (Net.parseInfo env meta) as [info|e] eqn:Ei; cbn [settled]; [|apply Hfail].
  destruct (Net.subtitleSource info) as [[|s0 ss]|] eqn:Es; try apply Hfail.
  destruct (Net.subtitleTrack (s0 :: ss)) as [track|] eqn:Et; [|apply Hfail].
  destruct (truthy (Net.url track)) eqn:Eu; cbn [negb]; [|apply Hfail].
  set (log1 := log ++ [_]).
  destruct (Net.execSync env (length log1) (Net.curlCommand (Net.url track)))
    as [subResp|e]; cbn [settled].
  - exists (subtitleSegments subResp), [Net.ExecSync (Net.curlCommand (Net.url track))].
    subst log1. rewrite <- app_assoc. cbn [app].
    split; [now destruct (subtitleSegments subResp)|].
    split; [apply subtitleSegments_returns|]. split.
    + right. exists meta, info, (s0 :: ss), track. repeat split; try assumption.
      intros Hu. rewrite Hu in Eu. discriminate Eu.
    + intros segs Hs. split; [discriminate|].
      now destruct (subtitleSegments_ok _ _ Hs).
  - exists (Throw e), [Net.ExecSync (Net.curlCommand (Net.url track))].
    subst log1. rewrite <- app_assoc. cbn [app].
    split; [reflexivity|]. split; [discriminate|]. split.
    + right. exists meta, info, (s0 :: ss), track. repeat split; try assumption.
      intros Hu. rewrite Hu in Eu. discriminate Eu.
    + discriminate.
Qed.

(** X28: the Markdown document of the shared parsers has a fixed frame of
    lines as well: for a title and an identifier without line feed, its
    lines are the heading with the title, an empty line, the line of the URL
    with the identifier, an empty line, a rule, an empty line, the lines of
    the transcript, and one empty last line. *)
Theorem formatTranscriptMarkdown_lines (title videoId transcript : str) :
  ~ In LF title -> ~ In LF videoId ->
  split_lines (Parsers.formatTranscriptMarkdown title videoId transcript)
  = [u "# " ++ title; []; u "**URL:** https://youtube.com/watch?v=" ++ videoId; [];
     u "---"; []]
    ++ split_lines transcript ++ [[]].
Proof.
  intros Ht Hv. unfold Parsers.formatTranscriptMarkdown.
  assert (Hlit : forall w : string,
            forallb (fun c => negb (N.eqb c LF)) (u w) = true -> ~ In LF (u w)).
  { intros w H Hin. rewrite forallb_forall in H. apply H in Hin.
    rewrite N.eqb_refl in Hin. discriminate Hin. }
  assert (H1 : ~ In LF (u "# " ++ title)).
  { intros Hin. apply in_app_or in Hin. destruct Hin as [Hin|Hin]; [|now apply Ht].
    revert Hin. now apply Hlit. }
  assert (H2 : ~ In LF (u "**URL:** https://youtube.com/watch?v=" ++ videoId)).
  { intros Hin. apply in_app_or in Hin. destruct Hin as [Hin|Hin]; [|now apply Hv].
    revert Hin. now apply Hlit. }
  assert (Hnl : forall b, split_lines (LF :: b) = [] :: split_lines b)
    by (intros b; cbn [split_lines]; now rewrite N.eqb_refl).
  cbn [app].
  rewrite (app_assoc (u "# ") title), split_lines_line, Hnl by exact H1.
  rewrite (app_assoc (u "**URL:** https://youtube.com/watch?v=") videoId),
    split_lines_line, Hnl by exact H2.
  rewrite (split_lines_line (u "---")), Hnl by now apply Hlit.
  rewrite split_lines_app. reflexivity.
Qed.

Lemma formatTranscriptMarkdown_lines_witness :
  split_lines (Parsers.formatTranscriptMarkdown (u "Title") (u "vid1") (u "text"))
  = [u "# " ++ u "Title"; []; u "**URL:** https://youtube.com/watch?v=" ++ u "vid1"; [];
     u "---"; []]
    ++ split_lines (u "text") ++ [[]].
Proof.
  apply (formatTranscriptMarkdown_lines (u "Title") (u "vid1") (u "text")).
  - intros Hc. vm_compute in Hc.
    repeat (destruct Hc as [Hc|Hc]; [discriminate Hc|]). exact Hc.
  - intros Hc. vm_compute in Hc.
    repeat (destruct Hc as [Hc|Hc]; [discriminate Hc|]). exact Hc.
Defined.

(** ** The fallback of the page strategy *)

Lemma split_at_skip sep :
  forall s k cur, split_at sep s k cur = split_at sep (skipn k s) 0 cur.
Proof.
  induction s as [|c t IH]; intros k cur.
  - destruct k; reflexivity.
  - destruct k as [|k]; [reflexivity|]. cbn [split_at skipn]. apply IH.
Qed.

Lemma startsWith_app_l (w x y : str) :
  startsWith w (x ++ y) = true -> length w <= length x -> startsWith w x = true.
Proof.
  revert x. induction w as [|a w IH]; intros x H Hl; [reflexivity|].
  destruct x as [|b x]; [cbn [length] in Hl; lia|].
  cbn [app startsWith] in H |- *. apply andb_true_iff in H. destruct H as [H1 H2].
  rewrite H1. cbn [andb]. apply IH; [exact H2 | cbn [length] in Hl; lia].
Qed.

(** Before the first occurrence of the separator nothing is split off. *)
Lemma split_at_first (sep : str) c0 (sep' : str) :
  sep = c0 :: sep' ->
  forall a s cur,
    includes sep (a ++ removelast sep) = false ->
    split_at sep (a ++ sep ++ s) 0 cur = (cur ++ a) :: split_at sep s 0 [].
Proof.
  intros Hsep. induction a as [|c a IH]; intros s cur Hfree.
  - cbn [app]. rewrite app_nil_r. rewrite Hsep at 2. cbn [app split_at].
    assert (Hs : startsWith sep (c0 :: sep' ++ s) = true)
      by (apply startsWith_iff; exists s; now rewrite Hsep).
    rewrite Hs, split_at_skip. f_equal. f_equal.
    replace (length sep - 1) with (length sep') by (rewrite Hsep; cbn [length]; lia).
    apply skipn_length_app.
  - cbn [app] in Hfree |- *. cbn [includes] in Hfree.
    apply orb_false_iff in Hfree. destruct Hfree as [Hhere Hrest].
    cbn [split_at].
    destruct (startsWith sep (c :: a ++ sep ++ s)) eqn:Hs.
    + exfalso.
      assert (Hl : length sep <= length (c :: a ++ removelast sep)).
      { cbn [length]. rewrite length_app, Hsep. 
        assert (length (removelast (c0 :: sep')) = length sep').
        { clear. revert c0. induction sep' as [|d w IHw]; intros c0; [reflexivity|].
          change (removelast (c0 :: d :: w)) with (c0 :: removelast (d :: w)).
          cbn [length]. now rewrite IHw. }
        cbn [length]. lia. }
      assert (Hsplit : c :: a ++ sep ++ s = (c :: a ++ removelast sep) ++ [last sep c0] ++ s).
      { cbn [app]. f_equal. rewrite <- app_assoc. f_equal.
        rewrite (app_removelast_last c0 (l := sep)) at 1 by (rewrite Hsep; discriminate).
        now rewrite <- app_assoc. }
      rewrite Hsplit in Hs. apply startsWith_app_l in Hs; [|exact Hl]. congruence.
    + rewrite IH by exact Hrest. now rewrite <- app_assoc.
Qed.

Lemma split_at_none (sep : str) :
  forall s cur, includes sep s = false -> split_at sep s 0 cur = [cur ++ s].
Proof.
  induction s as [|c t IH]; intros cur H.
  - cbn [split_at]. now rewrite app_nil_r.
  - cbn [includes] in H. apply orb_false_iff in H. destruct H as [Hh Ht].
    cbn [split_at]. rewrite Hh, IH by exact Ht. now rewrite <- app_assoc.
Qed.

Lemma includes_app_r (w s x : str) :
  includes w (s ++ x) = false -> includes w s = false.
Proof.
  intros H. destruct (includes w s) eqn:E; [|reflexivity].
  apply includes_iff in E. destruct E as (a & b & ->).
  assert (Hc : includes w ((a ++ w ++ b) ++ x) = true).
  { apply includes_iff. exists a, (b ++ x). now rewrite <- !app_assoc. }
  congruence.
Qed.

(** X29: the fallback of the page strategy looks only between the first two
    occurrences of the key [captions]: what precedes the first occurrence
    and what follows the second changes nothing, so an object that itself
    holds the key again is cut short there. *)
Theorem fromCaptionsKey_between_keys (env : Net.Env) (a b rest : str)
    (log : list Net.request) :
  includes (uq "`captions`:") (a ++ removelast (uq "`captions`:")) = false ->
  includes (uq "`captions`:") (b ++ removelast (uq "`captions`:")) = false ->
  Net.fromCaptionsKey env (a ++ uq "`captions`:" ++ b ++ uq "`captions`:" ++ rest) log
  = Net.fromCaptionsKey env (uq "`captions`:" ++ b) log.
Proof.
  intros Ha Hb. unfold Net.fromCaptionsKey, split.
  rewrite (split_at_first (uq "`captions`:") DQ (u "captions" ++ [DQ; chr ":"]) eq_refl
             a _ [] Ha).
  rewrite (split_at_first (uq "`captions`:") DQ (u "captions" ++ [DQ; chr ":"]) eq_refl
             b _ [] Hb).
  pose proof (split_at_first (uq "`captions`:") DQ (u "captions" ++ [DQ; chr ":"]) eq_refl
                [] b [] eq_refl) as H0.
  cbn [app] in H0. cbn [app]. rewrite H0.
  rewrite (split_at_none _ b []) by (now apply includes_app_r in Hb).
  reflexivity.
Qed.

Lemma fromCaptionsKey_between_keys_witness :
  Net.fromCaptionsKey (sampleEnv [] [])
    (u "x" ++ uq "`captions`:" ++ uq "{`a`:{" ++ uq "`captions`:" ++ u "1}}") []
  = Net.fromCaptionsKey (sampleEnv [] []) (uq "`captions`:" ++ uq "{`a`:{") [].
Proof.
  apply (fromCaptionsKey_between_keys (sampleEnv [] []) (u "x") (uq "{`a`:{") (u "1}}") []);
    vm_compute; reflexivity.
Defined.

(** ** The command *)

(** The runs of the command, case by case. *)
Lemma fetchTranscript_runs (host : App.Host) :
  match clipboardUrl host with
  | None =>
      App.fetchTranscript host []
      = (Ok tt, [App.ReadText; App.SetMarkdown App.noUrlFound; App.SetIsLoading false])
  | Some (t, id) =>
      match plainTranscript host id with
      | OutOfFuel =>
          App.fetchTranscript host []
          = (OutOfFuel, [App.ReadText; App.GetVideoTranscript id])
      | Throw msg =>
          App.fetchTranscript host []
          = (Ok tt, [App.ReadText; App.GetVideoTranscript id;
                     App.SetMarkdown (App.fetchFailed msg id); App.SetIsLoading false])
      | Ok res =>
          match App.copy host 2 (document id res) with
          | Rejected e =>
              App.fetchTranscript host []
              = (Ok tt, [App.ReadText; App.GetVideoTranscript id;
                         App.Copy (document id res);
                         App.SetMarkdown (App.failed e); App.SetIsLoading false])
          | Resolved _ =>
              match App.showToast host 3 with
              | Rejected e =>
                  App.fetchTranscript host []
                  = (Ok tt, [App.ReadText; App.GetVideoTranscript id;
                             App.Copy (document id res);
                             App.ShowToast (u "Copied to clipboard!");
                             App.SetMarkdown (App.failed e); App.SetIsLoading false])
              | Resolved _ =>
                  App.fetchTranscript host []
                  = (Ok tt, [App.ReadText; App.GetVideoTranscript id;
                             App.Copy (document id res);
                             App.ShowToast (u "Copied to clipboard!");
                             App.SetMarkdown (document id res); App.SetIsLoading false])
              end
          end
      end
  end.
Proof.
  unfold clipboardUrl, App.fetchTranscript, App.setMarkdown, App.setIsLoading. io.
  cbn [length app].
  destruct (App.readText host 0) as [[t|]|e]; cbn [settled]; try reflexivity.
  destruct (truthy t); [|reflexivity].
  destruct (extractVideoId t) as [id|] eqn:Eid; [|reflexivity].
  destruct (extractVideoId_sound _ _ Eid) as [Hne _].
  assert (Ht : truthy id = true) by (destruct id; [congruence | reflexivity]).
  rewrite Ht, Eid, Ht. cbn [negb].
  unfold App.transcriptOf, plainTranscript, document.
  destruct (fst (getVideoTranscript (App.world host) id {| timestamps := None |} []))
    as [res|msg|]; cbn [app length]; try reflexivity.
  destruct (App.copy host 2 _) as [[]|e]; cbn [settled]; [|reflexivity].
  destruct (App.showToast host 3) as [[]|e]; cbn [settled]; reflexivity.
Qed.

Lemma getVideoTranscript_plain w videoId res :
  fst (getVideoTranscript w videoId {| timestamps := None |} []) = Ok res ->
  exists segs, transcript res = joinSegments segs /\ title res = fetchVideoTitle w videoId.
Proof.
  unfold getVideoTranscript, attempt, mbind, try_catch, invoke, ret, throw.
  cbn [app].
  destruct (fetchTranscriptFromAndroid w videoId) as [sa|ea|]; cbn [fst];
    [intros H; inversion H; now exists sa | | discriminate].
  destruct (fetchTranscriptFromPage w videoId) as [sb|eb|]; cbn [fst];
    [intros H; inversion H; now exists sb | | discriminate].
  destruct (fetchTranscriptFromYtDlp w videoId) as [sc|ec|]; cbn [fst];
    [intros H; inversion H; now exists sc | discriminate | discriminate].
Qed.

(** X15: a run of the command that comes back ends by setting the Markdown
    once and then clearing the loading flag, and sets nothing before: the
    view is never left loading.  What it shows is the no-URL page, the page
    of a failed fetch, the page of another error, or the document of the
    fetched transcript; the invalid-URL page is never shown.  The run fails
    to come back only when the clipboard holds a video reference whose
    transcript fetch does not come back. *)
Theorem fetchTranscript_settles (host : App.Host) :
  let out := fst (App.fetchTranscript host []) in
  let log := snd (App.fetchTranscript host []) in
  (out = OutOfFuel <->
   exists t id, clipboardUrl host = Some (t, id) /\ plainTranscript host id = OutOfFuel)
  /\ (out <> OutOfFuel ->
      out = Ok tt
      /\ exists before md,
           log = before ++ [App.SetMarkdown md; App.SetIsLoading false]
           /\ existsb isSetter before = false
           /\ App.Detail (App.shown log [] true) = (false, md)
           /\ (md = App.noUrlFound
               \/ (exists msg id, md = App.fetchFailed msg id)
               \/ (exists e, md = App.failed e)
               \/ (exists id res, md = document id res))).
Proof.
  cbv zeta. pose proof (fetchTranscript_runs host) as H.
  destruct (clipboardUrl host) as [[t id]|].
  - destruct (plainTranscript host id) as [res|msg|] eqn:Ep.
    + destruct (App.copy host 2 (document id res)) as [[]|e].
      * destruct (App.showToast host 3) as [[]|e]; rewrite H; cbn [fst snd]; split;
          try (split; [discriminate | intros (t' & id' & E & E'); congruence]).
        -- intros _. split; [reflexivity|].
           exists [App.ReadText; App.GetVideoTranscript id; App.Copy (document id res);
                   App.ShowToast (u "Copied to clipboard!")], (document id res).
           repeat split. right. right. right. now exists id, res.
        -- intros _. split; [reflexivity|].
           exists [App.ReadText; App.GetVideoTranscript id; App.Copy (document id res);
                   App.ShowToast (u "Copied to clipboard!")], (App.failed e).
           repeat split. right. right. left. now exists e.
      * rewrite H; cbn [fst snd]; split;
          try (split; [discriminate | intros (t' & id' & E & E'); congruence]).
        intros _. split; [reflexivity|].
        exists [App.ReadText; App.GetVideoTranscript id; App.Copy (document id res)],
               (App.failed e).
        repeat split. right. right. left. now exists e.
    + rewrite H; cbn [fst snd]; split;
        try (split; [discriminate | intros (t' & id' & E & E'); congruence]).
      intros _. split; [reflexivity|].
      exists [App.ReadText; App.GetVideoTranscript id], (App.fetchFailed msg id).
      repeat split. right. left. now exists msg, id.
    + rewrite H; cbn [fst snd]; split.
      * split; [intros _; now exists t, id | reflexivity].
      * intros Hne. congruence.
  - rewrite H; cbn [fst snd]; split.
    + split; [discriminate | intros (t' & id' & E & _); discriminate E].
    + intros _. split; [reflexivity|]. exists [App.ReadText], App.noUrlFound.
      repeat split. now left.
Qed.

(** X16: the command writes to the clipboard only the document of a
    transcript it has fetched, and fetches a transcript only for the
    identifier that extractVideoId finds in the text of the clipboard.  The
    transcript in that document is the plain one: the decoded segment texts
    joined by spaces, without timestamps. *)
Theorem fetchTranscript_clipboard (host : App.Host) :
  let log := snd (App.fetchTranscript host []) in
  (forall id, In (App.GetVideoTranscript id) log ->
     exists t, App.readText host 0 = Resolved (Some t) /\ extractVideoId t = Some id)
  /\ (forall c, In (App.Copy c) log ->
        exists id res segs,
          In (App.GetVideoTranscript id) log
          /\ plainTranscript host id = Ok res
          /\ transcript res = joinSegments segs
          /\ c = formatTranscriptAsMarkdown (transcript res) id (title res)).
Proof.
  cbv zeta. pose proof (fetchTranscript_runs host) as H.
  unfold clipboardUrl in H.
  assert (Hnone : App.fetchTranscript host []
                  = (Ok tt, [App.ReadText; App.SetMarkdown App.noUrlFound;
                             App.SetIsLoading false]) ->
          (forall id, In (App.GetVideoTranscript id) (snd (App.fetchTranscript host [])) ->
             exists t, App.readText host 0 = Resolved (Some t)
                       /\ extractVideoId t = Some id)
          /\ (forall c, In (App.Copy c) (snd (App.fetchTranscript host [])) ->
                exists id res segs,
                  In (App.GetVideoTranscript id) (snd (App.fetchTranscript host []))
                  /\ plainTranscript host id = Ok res
                  /\ transcript res = joinSegments segs
                  /\ c = formatTranscriptAsMarkdown (transcript res) id (title res))).
  { intros ->. cbn [snd]. split.
    - intros id Hin. cbn in Hin. intuition discriminate.
    - intros c Hin. cbn in Hin. intuition discriminate. }
  destruct (App.readText host 0) as [[t|]|e] eqn:Er; try (apply Hnone; exact H).
  destruct (truthy t); [|apply Hnone; exact H].
  destruct (extractVideoId t) as [id|] eqn:Eid; [|apply Hnone; exact H].
  assert (Hid : forall l id', In (App.GetVideoTranscript id')
                                (App.ReadText :: App.GetVideoTranscript id :: l) ->
                (forall x, In x l -> isSetter x = true \/ (exists c, x = App.Copy c)
                                     \/ (exists c, x = App.ShowToast c)) ->
                exists t0, Resolved (Some t) = Resolved (Some t0)
                           /\ extractVideoId t0 = Some id').
  { intros l id' [Hin|[Hin|Hin]] Hl; [discriminate Hin | | ].
    - inversion Hin; subst id'. now exists t.
    - apply Hl in Hin. destruct Hin as [Hin|[[c Hin]|[c Hin]]]; discriminate Hin. }
  destruct (plainTranscript host id) as [res|msg|] eqn:Ep.
  - destruct (getVideoTranscript_plain _ _ _ Ep) as (segs & Hsegs & _).
    assert (Hcopy : forall l c,
              In (App.Copy c)
                 (App.ReadText :: App.GetVideoTranscript id :: App.Copy (document id res) :: l) ->
              (forall x, In x l -> isSetter x = true \/ (exists c, x = App.ShowToast c)) ->
              c = document id res).
    { intros l c [Hin|[Hin|[Hin|Hin]]] Hl; try discriminate Hin.
      - now inversion Hin.
      - apply Hl in Hin. destruct Hin as [Hin|[c' Hin]]; discriminate Hin. }
    destruct (App.copy host 2 (document id res)) as [[]|e].
    + destruct (App.showToast host 3) as [[]|e]; rewrite H; cbn [snd]; split.
      * intros id' Hin. apply (Hid _ _ Hin). intros x Hx. cbn in Hx.
        destruct Hx as [<-|[<-|[<-|[<-|[]]]]]; eauto.
      * intros c Hin. exists id, res, segs. split; [right; now left|].
        split; [exact Ep|]. split; [exact Hsegs|].
        apply (Hcopy _ _ Hin). intros x Hx. cbn in Hx.
        destruct Hx as [<-|[<-|[<-|[]]]]; eauto.
      * intros id' Hin. apply (Hid _ _ Hin). intros x Hx. cbn in Hx.
        destruct Hx as [<-|[<-|[<-|[<-|[]]]]]; eauto.
      * intros c Hin. exists id, res, segs. split; [right; now left|].
        split; [exact Ep|]. split; [exact Hsegs|].
        apply (Hcopy _ _ Hin). intros x Hx. cbn in Hx.
        destruct Hx as [<-|[<-|[<-|[]]]]; eauto.
    + rewrite H; cbn [snd]; split.
      * intros id' Hin. apply (Hid _ _ Hin). intros x Hx. cbn in Hx.
        destruct Hx as [<-|[<-|[<-|[]]]]; eauto.
      * intros c Hin. exists id, res, segs. split; [right; now left|].
        split; [exact Ep|]. split; [exact Hsegs|].
        apply (Hcopy _ _ Hin). intros x Hx. cbn in Hx.
        destruct Hx as [<-|[<-|[]]]; eauto.
  - rewrite H; cbn [snd]; split.
    + intros id' Hin. apply (Hid _ _ Hin). intros x Hx. cbn in Hx.
      destruct Hx as [<-|[<-|[]]]; eauto.
    + intros c Hin. cbn in Hin. intuition discriminate.
  - rewrite H; cbn [snd]; split.
    + intros id' Hin. apply (Hid _ _ Hin). intros x [].
    + intros c Hin. cbn in Hin. intuition discriminate.
Qed.

(** ** The shared parsers *)

Lemma match_here_cls n p c t :
  match_here n (Cls p) (c :: t) = if p c then Some (t, []) else None.
Proof. unfold match_here. cbn [rmatch]. now destruct (p c). Qed.

(** Replacing every code unit of a class by nothing filters the text. *)
Lemma replace_cls_filter n p :
  forall s fuel, length s < fuel ->
    replace_loop fuel n (Cls p) (constant []) s = filter (fun c => negb (p c)) s.
Proof.
  induction s as [|c t IH]; intros fuel Hfuel.
  - destruct fuel; reflexivity.
  - destruct fuel as [|fuel]; [lia|]. cbn [length] in Hfuel. cbn [filter].
    destruct (p c) eqn:Hc; cbn [negb].
    + cbn [replace_loop].
      rewrite (search_here n _ (c :: t) t []) by (rewrite match_here_cls; now rewrite Hc).
      cbn [length skipn].
      assert (El : Nat.ltb (length t) (S (length t)) = true) by (apply Nat.ltb_lt; lia).
      rewrite El. cbn [app]. unfold constant at 1. cbn [app]. apply IH. lia.
    + rewrite replace_loop_skip by (rewrite match_here_cls; now rewrite Hc).
      f_equal. apply IH. lia.
Qed.

Lemma collapseTo_In x s c :
  In c (collapseTo x s) -> c = x \/ (In c s /\ isSpace c = false).
Proof.
  induction s as [|a t IH]; [intros []|]. cbn [collapseTo].
  destruct (isSpace a) eqn:Ha.
  - destruct (startsSpace t).
    + intros H. destruct (IH H) as [->|[H1 H2]]; [now left | right; split; [now right | exact H2]].
    + intros [<-|H]; [now left|].
      destruct (IH H) as [->|[H1 H2]]; [now left | right; split; [now right | exact H2]].
  - intros [<-|H]; [right; split; [now left | exact Ha]|].
    destruct (IH H) as [->|[H1 H2]]; [now left | right; split; [now right | exact H2]].
Qed.

Lemma collapseTo_no_space x s :
  (forall c, In c s -> isSpace c = false) -> collapseTo x s = s.
Proof.
  induction s as [|a t IH]; intros H; [reflexivity|]. cbn [collapseTo].
  rewrite (H a (or_introl eq_refl)). f_equal. apply IH. intros c Hc. apply H. now right.
Qed.

Lemma idChar_below c : isIdChar c = true -> (c < 123)%N.
Proof.
  unfold isIdChar, in_range. intros H.
  repeat (apply orb_true_iff in H; destruct H as [H|H]);
    try (apply andb_true_iff in H; destruct H as [_ H]; apply N.leb_le in H; lia);
    apply N.eqb_eq in H; lia.
Qed.

Lemma idChar_table :
  forallb (fun n => implb (isIdChar (N.of_nat n))
                      (negb (isSpace (N.of_nat n))
                       && negb (Parsers.notFilenameChar (N.of_nat n))))
    (seq 0 123) = true.
Proof. vm_compute. reflexivity. Qed.

Lemma idChar_kept c :
  isIdChar c = true -> isSpace c = false /\ Parsers.notFilenameChar c = false.
Proof.
  intros H. pose proof (idChar_below c H) as Hlt.
  pose proof idChar_table as T. rewrite forallb_forall in T.
  specialize (T (N.to_nat c)). rewrite N2Nat.id, H in T. cbn [implb] in T.
  assert (Hin : In (N.to_nat c) (seq 0 123)) by (apply in_seq; lia).
  apply T in Hin. apply andb_true_iff in Hin. destruct Hin as [H1 H2].
  split; [now destruct (isSpace c) | now destruct (Parsers.notFilenameChar c)].
Qed.

Lemma filenameChar_idChar c :
  Parsers.notFilenameChar c = false -> isSpace c = false -> isIdChar c = true.
Proof.
  unfold Parsers.notFilenameChar, isIdChar. intros H Hs.
  apply negb_false_iff in H.
  destruct (N.eqb c 32) eqn:E.
  - apply N.eqb_eq in E. subst c. discriminate Hs.
  - repeat (apply orb_true_iff in H; destruct H as [H|H]); try discriminate H;
      rewrite H; repeat rewrite orb_true_r; reflexivity.
Qed.

Lemma sanitizeFilename_eq title :
  Parsers.sanitizeFilename title
  = firstn 80 (collapseTo 95%N
                 (filter (fun c => negb (Parsers.notFilenameChar c)) title)).
Proof.
  unfold Parsers.sanitizeFilename. change (constant (u "_")) with (constant [95%N]).
  rewrite replace_all_spaces. unfold replace_all. now rewrite replace_cls_filter by lia.
Qed.

Lemma firstn_In {A : Type} n (l : list A) x : In x (firstn n l) -> In x l.
Proof.
  intros H. rewrite <- (firstn_skipn n l). apply in_or_app. now left.
Qed.

Lemma sanitizeFilename_chars title c :
  In c (Parsers.sanitizeFilename title) -> isIdChar c = true.
Proof.
  rewrite sanitizeFilename_eq. intros H. apply firstn_In in H.
  apply collapseTo_In in H. destruct H as [->|[H Hs]]; [reflexivity|].
  apply filter_In in H. destruct H as [_ H]. apply negb_true_iff in H.
  now apply filenameChar_idChar.
Qed.

(** X17: a sanitized file name holds at most 80 code units, each of them a
    letter, a digit, a hyphen or an underscore; in particular it holds no
    white space, no path separator and no dot. *)
Theorem sanitizeFilename_safe (title : str) :
  length (Parsers.sanitizeFilename title) <= 80
  /\ forall c, In c (Parsers.sanitizeFilename title) -> isIdChar c = true.
Proof.
  split; [|apply sanitizeFilename_chars].
  unfold Parsers.sanitizeFilename. rewrite length_firstn. apply Nat.le_min_l.
Qed.

(** X18: sanitizing a sanitized file name changes nothing. *)
Theorem sanitizeFilename_idempotent (title : str) :
  Parsers.sanitizeFilename (Parsers.sanitizeFilename title)
  = Parsers.sanitizeFilename title.
Proof.
  set (r := Parsers.sanitizeFilename title).
  assert (Hc : forall c, In c r -> isIdChar c = true) by apply sanitizeFilename_chars.
  assert (Hl : length r <= 80)
    by (unfold r, Parsers.sanitizeFilename; rewrite length_firstn; apply Nat.le_min_l).
  rewrite sanitizeFilename_eq.
  assert (Hf : filter (fun c => negb (Parsers.notFilenameChar c)) r = r).
  { clearbody r. clear Hl. induction r as [|a r IH]; [reflexivity|]. cbn [filter].
    destruct (idChar_kept a (Hc a (or_introl eq_refl))) as [_ ->]. cbn [negb].
    f_equal. apply IH. intros c Hin. apply Hc. now right. }
  rewrite Hf, collapseTo_no_space.
  - apply firstn_all2. exact Hl.
  - intros c Hin. now destruct (idChar_kept c (Hc c Hin)).
Qed.

(** *** vttToPlainText *)

(** X19: the plain text of a subtitle file is one line of words: every
    white-space code unit in it is a space, no two spaces are adjacent, and
    it neither begins nor ends with white space. *)
Theorem vttToPlainText_normal_form (vttContent : str) :
  let out := Parsers.vttToPlainText vttContent in
  (forall c, In c out -> isSpace c = true -> c = chr " ")
  /\ (forall a b, out <> a ++ u "  " ++ b)
  /\ startsSpace out = false
  /\ startsSpace (rev out) = false.
Proof.
  cbv zeta. unfold Parsers.vttToPlainText. cbv zeta.
  destruct (fold_left Parsers.vttStep (split_lines vttContent) ([], []))
    as [textLines seen].
  change (constant (u " ")) with (constant [32%N]). rewrite replace_all_spaces.
  assert (H : singleSpaced (trim (collapseTo 32%N (join (u " ") textLines))) = true)
    by apply singleSpaced_trim, singleSpaced_collapse.
  apply singleSpaced_iff in H. destruct H as [H1 H2].
  split; [exact H1|]. split; [exact H2|]. split; [apply trim_no_lead | apply trim_no_trail].
Qed.

(** *** decodeHtmlEntities of the shared parsers *)

(** X20: the decoder of the shared parsers returns a text without an
    ampersand unchanged, and never lengthens a text. *)
Theorem parsers_decodeHtmlEntities_plain (t : str) :
  (~ In (chr "&") t -> Parsers.decodeHtmlEntities t = t)
  /\ length (Parsers.decodeHtmlEntities t) <= length t.
Proof.
  split.
  - intros H. unfold Parsers.decodeHtmlEntities. cbv zeta.
    change (lit (u "&#39;")) with (Seq (Cls (N.eqb (chr "&"))) (lit (u "#39;"))).
    change (lit (u "&quot;")) with (Seq (Cls (N.eqb (chr "&"))) (lit (u "quot;"))).
    change (lit (u "&amp;")) with (Seq (Cls (N.eqb (chr "&"))) (lit (u "amp;"))).
    change (lit (u "&lt;")) with (Seq (Cls (N.eqb (chr "&"))) (lit (u "lt;"))).
    change (lit (u "&gt;")) with (Seq (Cls (N.eqb (chr "&"))) (lit (u "gt;"))).
    now rewrite !(replace_all_no_entity _ _ t H).
  - unfold Parsers.decodeHtmlEntities. cbv zeta.
    repeat (etransitivity;
            [apply replace_all_length; [reflexivity | intros w cs; cbn; lia]|]).
    apply Nat.le_refl.
Qed.

Lemma parsers_decodeHtmlEntities_plain_witness :
  Parsers.decodeHtmlEntities (u "plain text") = u "plain text"
  /\ length (Parsers.decodeHtmlEntities (u "plain text")) <= length (u "plain text").
Proof.
  destruct (parsers_decodeHtmlEntities_plain (u "plain text")) as [H1 H2].
  split; [|exact H2]. apply H1. intros Hc. vm_compute in Hc.
  repeat (destruct Hc as [Hc|Hc]; [discriminate Hc|]). exact Hc.
Defined.

(** ** The command-line program *)

Lemma hd_filter_find {A : Type} (p : A -> bool) (l : list A) :
  hd_error (filter p l) = find p l.
Proof.
  induction l as [|a l IH]; [reflexivity|]. cbn [filter find].
  destruct (p a); [reflexivity | exact IH].
Qed.

Lemma includesArg_flags (name : string) (args : list str) :
  Cli.isFlag (u name) = true ->
  Cli.includesArg name (filter Cli.isFlag args) = Cli.includesArg name args.
Proof.
  intros Hn. unfold Cli.includesArg. induction args as [|a args IH]; [reflexivity|].
  cbn [filter existsb]. destruct (Cli.isFlag a) eqn:Ea.
  - cbn [existsb]. now rewrite IH.
  - rewrite IH. destruct (str_eqb a (u name)) eqn:E; [|reflexivity].
    apply str_eqb_eq in E. subst a. congruence.
Qed.

Lemma cli_run_eq host args :
  Cli.run host args
  = match find (fun a => negb (Cli.isFlag a)) args with
    | None => Cli.consoleError Cli.usage ;;; pure 2%Z
    | Some first =>
        match extractVideoId first with
        | Some videoId =>
            Cli.main host (Cli.includesArg "--timestamps" args)
              (Cli.includesArg "--json" args) videoId
        | None =>
            Cli.consoleError (u "Invalid YouTube URL or ID: " ++ first) ;;; pure 2%Z
        end
    end.
Proof.
  unfold Cli.run. cbv zeta.
  rewrite !includesArg_flags by reflexivity.
  rewrite <- hd_filter_find.
  destruct (filter (fun a => negb (Cli.isFlag a)) args) as [|first rest]; [reflexivity|].
  cbn [hd_error]. destruct (extractVideoId first) as [id|] eqn:E; [|reflexivity].
  destruct (extractVideoId_sound _ _ E) as [Hne _].
  destruct id; [congruence | reflexivity].
Qed.

(** X26: the command-line program reads its arguments in any order.  The
    text it works on is the first argument that does not start with two
    hyphens, and the two switches count wherever they stand.  Without such
    an argument it prints the usage line to the error stream and exits with
    status 2; when extractVideoId finds no identifier in it, it prints the
    invalid-input line and exits with status 2; in both cases it calls no
    strategy and prints nothing to the output stream.  Otherwise it runs the
    strategies for the identifier found. *)
Theorem cli_arguments (host : Cli.Host) (args : list str) :
  (find (fun a => negb (Cli.isFlag a)) args = None ->
   Cli.run host args [] = (Ok 2%Z, [Cli.ConsoleError Cli.usage]))
  /\ (forall first,
        find (fun a => negb (Cli.isFlag a)) args = Some first ->
        extractVideoId first = None ->
        Cli.run host args []
        = (Ok 2%Z, [Cli.ConsoleError (u "Invalid YouTube URL or ID: " ++ first)]))
  /\ (forall first videoId,
        find (fun a => negb (Cli.isFlag a)) args = Some first ->
        extractVideoId first = Some videoId ->
        Cli.run host args []
        = Cli.main host (Cli.includesArg "--timestamps" args)
            (Cli.includesArg "--json" args) videoId []).
Proof.
  rewrite cli_run_eq. split; [|split].
  - intros ->. reflexivity.
  - intros first -> ->. reflexivity.
  - intros first videoId -> ->. reflexivity.
Qed.

Lemma cli_arguments_witness :
  Cli.run {| Cli.world := failingWorld "a" "b" "c"; Cli.stringify := fun _ _ _ _ _ => [] |}
    [u "--json"; u "not a link"; u "--timestamps"] []
  = (Ok 2%Z, [Cli.ConsoleError (u "Invalid YouTube URL or ID: " ++ u "not a link")]).
Proof.
  destruct (cli_arguments
              {| Cli.world := failingWorld "a" "b" "c";
                 Cli.stringify := fun _ _ _ _ _ => [] |}
              [u "--json"; u "not a link"; u "--timestamps"]) as (_ & H & _).
  apply (H (u "not a link")); vm_compute; reflexivity.
Defined.

(** X27: once it has an identifier, the command-line program calls the
    strategies in the order Android, page, yt-dlp, each at most once, and
    stops at the first that returns: it then prints one document, which names
    that strategy as its method, and exits with status 0.  When all three
    throw it prints nothing to the output stream, prints to the error stream
    the three reasons, labelled and in order, and exits with status 1. *)
Theorem cli_main_outcomes (host : Cli.Host) (timestamps jsonOutput : bool)
    (videoId : str) :
  let w := Cli.world host in
  let a := fetchTranscriptFromAndroid w videoId in
  let b := fetchTranscriptFromPage w videoId in
  let c := fetchTranscriptFromYtDlp w videoId in
  let printed (segs : list TranscriptSegment) (method : string) :=
    snd (Cli.output host timestamps jsonOutput videoId segs (fetchVideoTitle w videoId)
           (u method) []) in
  (forall segs method, exists line, printed segs method = [Cli.ConsoleLog line])
  /\ (forall segs, a = Ok segs ->
        Cli.main host timestamps jsonOutput videoId []
        = (Ok 0%Z, [Cli.Called Title; Cli.Called StrategyA] ++ printed segs "android"%string))
  /\ (forall ea segs, a = Throw ea -> b = Ok segs ->
        Cli.main host timestamps jsonOutput videoId []
        = (Ok 0%Z, [Cli.Called Title; Cli.Called StrategyA; Cli.Called StrategyB]
                   ++ printed segs "page"%string))
  /\ (forall ea eb segs, a = Throw ea -> b = Throw eb -> c = Ok segs ->
        Cli.main host timestamps jsonOutput videoId []
        = (Ok 0%Z, [Cli.Called Title; Cli.Called StrategyA; Cli.Called StrategyB;
                    Cli.Called StrategyC] ++ printed segs "yt-dlp"%string))
  /\ (forall ea eb ec, a = Throw ea -> b = Throw eb -> c = Throw ec ->
        Cli.main host timestamps jsonOutput videoId []
        = (Ok 1%Z, [Cli.Called Title; Cli.Called StrategyA; Cli.Called StrategyB;
                    Cli.Called StrategyC;
                    Cli.ConsoleError
                      (u "No transcript available. All methods failed:" ++ [LF]
                       ++ u "- ANDROID: " ++ ea ++ [LF]
                       ++ u "- Page: " ++ eb ++ [LF]
                       ++ u "- yt-dlp: " ++ ec)])).
Proof.
  cbv zeta. split; [|split; [|split; [|split]]].
  - intros segs method. unfold Cli.output, Cli.consoleLog, perform.
    destruct jsonOutput; cbn [snd app]; eauto.
  - intros segs Ha. unfold Cli.main, Cli.strategy, Cli.called. io. cbn [app].
    rewrite Ha. unfold Cli.output, Cli.consoleLog, perform.
    destruct jsonOutput; reflexivity.
  - intros ea segs Ha Hb. unfold Cli.main, Cli.strategy, Cli.called. io. cbn [app].
    rewrite Ha, Hb. unfold Cli.output, Cli.consoleLog, perform.
    destruct jsonOutput; reflexivity.
  - intros ea eb segs Ha Hb Hc. unfold Cli.main, Cli.strategy, Cli.called. io. cbn [app].
    rewrite Ha, Hb, Hc. unfold Cli.output, Cli.consoleLog, perform.
    destruct jsonOutput; reflexivity.
  - intros ea eb ec Ha Hb Hc. unfold Cli.main, Cli.strategy, Cli.called, Cli.consoleError.
    io. cbn [app]. rewrite Ha, Hb, Hc. cbn [settled app length map join].
    rewrite <- !app_assoc. reflexivity.
Qed.

Lemma cli_main_outcomes_witness :
  Cli.main {| Cli.world := failingWorld "a" "b" "c"; Cli.stringify := fun _ _ _ _ _ => [] |}
    false false (u "dQw4w9WgXcQ") []
  = (Ok 1%Z, [Cli.Called Title; Cli.Called StrategyA; Cli.Called StrategyB;
              Cli.Called StrategyC;
              Cli.ConsoleError
                (u "No transcript available. All methods failed:" ++ [LF]
                 ++ u "- ANDROID: " ++ u "a" ++ [LF]
                 ++ u "- Page: " ++ u "b" ++ [LF]
                 ++ u "- yt-dlp: " ++ u "c")]).
Proof.
  destruct (cli_main_outcomes
              {| Cli.world := failingWorld "a" "b" "c";
                 Cli.stringify := fun _ _ _ _ _ => [] |}
              false false (u "dQw4w9WgXcQ")) as (_ & _ & _ & _ & H).
  apply H; reflexivity.
Defined.

(** ** The tests of the shared parsers *)

Example parsers_decodeHtmlEntities_tests :
  Parsers.decodeHtmlEntities (u "a &amp; b") = u "a & b"
  /\ Parsers.decodeHtmlEntities (u "&lt;div&gt;") = u "<div>"
  /\ Parsers.decodeHtmlEntities (u "it&#39;s") = u "it's"
  /\ Parsers.decodeHtmlEntities (u "&quot;hi&quot;") = uq "`hi`"
  /\ Parsers.decodeHtmlEntities [] = []
  /\ Parsers.decodeHtmlEntities (u "&#39;&quot;&amp;&lt;&gt;") = uq "'`&<>".
Proof. repeat split; vm_compute; reflexivity. Qed.

Example vttToPlainText_tests :
  Parsers.vttToPlainText (u "WEBVTT" ++ [LF; LF] ++ u "Hello world") = u "Hello world"
  /\ Parsers.vttToPlainText
       (u "WEBVTT" ++ [LF] ++ u "Kind: captions" ++ [LF] ++ u "Language: en" ++ [LF; LF]
        ++ u "Hello world") = u "Hello world"
  /\ Parsers.vttToPlainText
       (u "WEBVTT" ++ [LF; LF] ++ u "00:00:00.000 --> 00:00:05.000" ++ [LF]
        ++ u "Hello world" ++ [LF; LF] ++ u "00:00:05.000 --> 00:00:10.000" ++ [LF]
        ++ u "Second line") = u "Hello world Second line"
  /\ Parsers.vttToPlainText
       (u "WEBVTT" ++ [LF; LF] ++ u "<c.colorE5E5E5>Hello</c> <c>world</c>")
     = u "Hello world"
  /\ Parsers.vttToPlainText
       (u "WEBVTT" ++ [LF; LF] ++ u "Hello" ++ [LF] ++ u "Hello" ++ [LF] ++ u "World")
     = u "Hello World"
  /\ Parsers.vttToPlainText (u "WEBVTT" ++ [LF; LF] ++ u "it&#39;s &amp; good")
     = u "it's & good"
  /\ Parsers.vttToPlainText (u "WEBVTT" ++ [LF; LF]) = []
  /\ Parsers.vttToPlainText (u "WEBVTT" ++ [LF; LF] ++ u "hello    world")
     = u "hello world"
  /\ Parsers.vttToPlainText
       (u "WEBVTT" ++ [LF; LF; LF; LF] ++ u "Hello" ++ [LF; LF; LF] ++ u "World")
     = u "Hello World".
Proof. repeat split; vm_compute; reflexivity. Qed.

Example sanitizeFilename_tests :
  Parsers.sanitizeFilename (u "hello!@#$world") = u "helloworld"
  /\ Parsers.sanitizeFilename (u "hello world") = u "hello_world"
  /\ Parsers.sanitizeFilename (u "hello   world") = u "hello_world"
  /\ length (Parsers.sanitizeFilename (repeat (chr "a") 100)) = 80
  /\ Parsers.sanitizeFilename (u "hello-world_test") = u "hello-world_test"
  /\ Parsers.sanitizeFilename [] = []
  /\ Parsers.sanitizeFilename (u "abc123XYZ") = u "abc123XYZ".
Proof. repeat split; vm_compute; reflexivity. Qed.

Example extractJsonObject_tests :
  extractJsonObject (uq "var x = {`key`: `value`};") 8 = Some (uq "{`key`: `value`}")
  /\ extractJsonObject (uq "{`a`: {`b`: {`c`: 1}}}") 0 = Some (uq "{`a`: {`b`: {`c`: 1}}}")
  /\ extractJsonObject (u "hello") 0 = None
  /\ extractJsonObject (u "{unclosed") 0 = None
  /\ indexOf (u "{") (uq "prefix {`x`: 1} suffix") 0 = 7%Z
  /\ extractJsonObject (uq "prefix {`x`: 1} suffix") 7 = Some (uq "{`x`: 1}").
Proof. repeat split; vm_compute; reflexivity. Qed.

Example split_samples :
  split (u "aa") (u "aaa") = [[]; u "a"]
  /\ split (u "b") (u "ab") = [u "a"; []]
  /\ split (uq "`captions`:") (uq "x`captions`:{`a`:{`captions`:1}}")
     = [u "x"; uq "{`a`:{"; u "1}}"]
  /\ split (u ",") [] = [[]].
Proof. repeat split; vm_compute; reflexivity. Qed.
